(** * Starfield and glyph-rain animation of script.js

    A shallow embedding of the canvas animation code of [script.js]
    ([initSpaceBackground], the [Star] class, [initStars], [resize],
    [animate], the matrix-rain start/stop/toggle functions and the [draw]
    of the rain, the key-sequence handler of [initKonamiCode], the
    observer of [initScrollAnimations], and [initLightbox]), with the
    properties of the natural-language specification stated over it,
    followed by further properties read off the code.

    Numbers.  The code computes over IEEE 754 doubles, and the starfield
    is embedded twice.

    In [Star], [Starfield] and [Page] a Number is an exact rational ([Q])
    and no operation rounds.  Over this embedding are stated the
    properties that are about the shape of the computation rather than
    about its digits: the length of the pool, the fields that an update
    leaves alone, the progress on a page that does not scroll, the order
    of two thresholds.  They hold over doubles as well (lemmas
    [update_frame64], [frames_length64], [resize_length64],
    [threshold_monotone64] and [scrollProgress_degenerate64]).

    In [Star64], [Starfield64] and [Dom] every operation is followed by
    [Double.round], the rounding of its exact result to the nearest
    double, ties to even, subnormal numbers included, so that the value of
    a field or of a threshold is the one the code computes and a
    comparison goes the way it goes in the code.  Over this embedding are
    stated the properties that depend on a bound or on the outcome of a
    test.  A decimal literal of the source is the double nearest to it
    ([Double.lit]).  [Double.round] has no upper limit: a result beyond
    the largest double, which the hardware turns into an infinity, is left
    finite; with the sizes of the window and of the page in whole pixels,
    as the DOM gives them, no operation of the code gets there.  For the
    exponent 2 [Math.pow] is the rounded product of the base with itself.

    The one place where the code can leave the finite numbers is the
    division [scrollY / maxScroll] of [animate]; what flows out of it has
    type [Number], which adds the two infinities and NaN with their
    IEEE 754 arithmetic (signed zeros are not distinguished: no code path
    divides by a computed zero other than [maxScroll], which is a
    difference and therefore never a negative zero).

    Module [Binary64] repeats the arithmetic of [animate] over the
    doubles of the kernel, to evaluate it at the concrete inputs of the
    scenarios, and [Double.of_float] reads such a double as a rational, to
    compare [Double.round] with the hardware.

    Randomness.  [Math.random()] reads an oracle: a sequence of rationals
    that is consumed from the front.  Theorems that need it assume every
    draw lies in the half-open unit interval and, over doubles, is a
    double. *)

From Stdlib Require Import QArith Qabs Qround Qpower Lqa Lia List Bool Arith.
From Stdlib Require Import PrimFloat Uint63 FloatOps.
From stdpp Require Import base list gmap strings.
Import ListNotations.

(** ** Numbers *)

Module JS.

Local Open Scope Q_scope.

Definition Qltb (a b : Q) : bool := negb (Qle_bool b a).

Inductive Number : Type :=
| Fin (q : Q)
| PosInf
| NegInf
| NaN.

(** The infinity [q * inf] for a finite factor [q]: NaN when [q] is zero,
    otherwise [pos] or [neg] according to the sign of [q]. *)
Definition scaled_inf (q : Q) (pos neg : Number) : Number :=
  if Qeq_bool q 0 then NaN else if Qltb 0 q then pos else neg.

Definition add (a b : Number) : Number :=
  match a, b with
  | NaN, _ | _, NaN => NaN
  | Fin u, Fin v => Fin (u + v)
  | PosInf, NegInf | NegInf, PosInf => NaN
  | PosInf, _ | _, PosInf => PosInf
  | NegInf, _ | _, NegInf => NegInf
  end.

Definition mul (a b : Number) : Number :=
  match a, b with
  | NaN, _ | _, NaN => NaN
  | Fin u, Fin v => Fin (u * v)
  | Fin u, PosInf | PosInf, Fin u => scaled_inf u PosInf NegInf
  | Fin u, NegInf | NegInf, Fin u => scaled_inf u NegInf PosInf
  | PosInf, PosInf | NegInf, NegInf => PosInf
  | PosInf, NegInf | NegInf, PosInf => NegInf
  end.

(** [a / b].  A finite non-zero number over zero is an infinity of the
    sign of the numerator, zero over zero is NaN, a finite number over an
    infinity is zero, and an infinity over an infinity is NaN. *)
Definition div (a b : Number) : Number :=
  match a, b with
  | NaN, _ | _, NaN => NaN
  | Fin u, Fin v =>
      if Qeq_bool v 0 then scaled_inf u PosInf NegInf else Fin (u / v)
  | Fin _, _ => Fin 0
  | PosInf, Fin v => if Qltb v 0 then NegInf else PosInf
  | NegInf, Fin v => if Qltb v 0 then PosInf else NegInf
  | _, _ => NaN
  end.

(** [a < b]; every comparison with NaN is false. *)
Definition lt (a b : Number) : bool :=
  match a, b with
  | NaN, _ | _, NaN => false
  | Fin u, Fin v => Qltb u v
  | NegInf, NegInf | PosInf, _ | _, NegInf => false
  | NegInf, _ | _, PosInf => true
  end.

(** [Math.min(a, b)]: NaN if either argument is NaN. *)
Definition Math_min (a b : Number) : Number :=
  match a, b with
  | NaN, _ | _, NaN => NaN
  | _, _ => if lt b a then b else a
  end.

(** [Math.pow(a, e)] for a natural exponent [e], by repeated
    multiplication; [Math.pow(a, 0)] is 1 for every [a], NaN included. *)
Fixpoint Math_pow (a : Number) (e : nat) : Number :=
  match e with
  | O => Fin 1
  | S e' => mul a (Math_pow a e')
  end.

Definition of_nat (n : nat) : Number := Fin (inject_Z (Z.of_nat n)).

(** Equality of numbers up to the equivalence of fractions; NaN is
    related to itself here, this is the equality of values, not the
    JavaScript operator [===]. *)
Definition equiv (a b : Number) : Prop :=
  match a, b with
  | Fin u, Fin v => u == v
  | PosInf, PosInf | NegInf, NegInf | NaN, NaN => True
  | _, _ => False
  end.

(** [a] is a finite number within the closed interval from [lo] to [hi]. *)
Definition within (lo hi : Q) (a : Number) : Prop :=
  match a with
  | Fin q => lo <= q <= hi
  | _ => False
  end.

(** *** The random oracle *)

Definition Rand : Type := nat -> Q.

Definition Rng (A : Type) : Type := Rand -> A * Rand.

Definition ret {A} (a : A) : Rng A := fun g => (a, g).

Definition bind {A B} (m : Rng A) (k : A -> Rng B) : Rng B :=
  fun g => let (a, g') := m g in k a g'.

(** [Math.random()]: the next draw of the oracle. *)
Definition Math_random : Rng Q :=
  fun g => (g O, fun n => g (S n)).

(** Every draw is in the half-open unit interval. *)
Definition unit_draws (g : Rand) : Prop := forall n, 0 <= g n /\ g n < 1.

(** *** Completions *)

Inductive Error : Type := TypeError.

(** How a call ends: normally with a value, or by throwing. *)
Inductive Completion (A : Type) : Type :=
| Normal (a : A)
| Throw (e : Error).

Arguments Normal {A} a.
Arguments Throw {A} e.

(** A reference that may be [null] ([None]), as [getElementById]
    returns it. *)
Definition truthy {A} (ref : option A) : bool :=
  match ref with Some _ => true | None => false end.

(** Calling a method on a reference: a TypeError when it is [null]. *)
Definition member {A} (ref : option A) : Completion A :=
  match ref with Some a => Normal a | None => Throw TypeError end.

End JS.

Notation "'let*' v ':=' m 'in' k" := (JS.bind m (fun v => k))
  (at level 10, v name, m at level 100, k at level 200).

(** ** The starfield *)

Module Star.

Local Open Scope Q_scope.

(** The fields of a [Star] object. *)
Record t : Type := Make {
  x : Q;
  y : Q;
  z : Q;
  size : Q;
  opacity : Q;
  twinkleSpeed : Q;
  twinkleDir : Q
}.

(** [reset()]: assigns each of the seven fields, five of them from fresh
    random draws taken in source order, so the outcome does not depend on
    what the object held before. *)
Definition reset (width : Q) : JS.Rng t :=
  let* r_x := JS.Math_random in
  let* r_z := JS.Math_random in
  let* r_size := JS.Math_random in
  let* r_opacity := JS.Math_random in
  let* r_twinkle := JS.Math_random in
  JS.ret {| x := r_x * width;
            y := -10;
            z := r_z * 2 + 0.5;
            size := r_size * 1.5;
            opacity := r_opacity * 0.5 + 0.1;
            twinkleSpeed := r_twinkle * 0.05;
            twinkleDir := 1 |}.

(** [constructor()]: [reset], then a random height on the screen. *)
Definition constructor (width height : Q) : JS.Rng t :=
  let* s := reset width in
  let* r_y := JS.Math_random in
  JS.ret {| x := x s; y := r_y * height; z := z s; size := size s;
            opacity := opacity s; twinkleSpeed := twinkleSpeed s;
            twinkleDir := twinkleDir s |}.

(** The three assignments of [update()] that precede the bounds test. *)
Definition drift (s : t) : t :=
  {| x := x s; y := y s + z s * 0.2; z := z s; size := size s;
     opacity := opacity s; twinkleSpeed := twinkleSpeed s;
     twinkleDir := twinkleDir s |}.

Definition twinkle (s : t) : t :=
  let opacity' := opacity s + twinkleSpeed s * twinkleDir s in
  {| x := x s; y := y s; z := z s; size := size s;
     opacity := opacity';
     twinkleSpeed := twinkleSpeed s;
     twinkleDir := if JS.Qltb 0.8 opacity' || JS.Qltb opacity' 0.1
                   then twinkleDir s * -1 else twinkleDir s |}.

(** [update()]. *)
Definition update (width height : Q) (s : t) : JS.Rng t :=
  let s' := twinkle (drift s) in
  if JS.Qltb height (y s') then reset width else JS.ret s'.

(** The method [draw()] of the class is never called ([animate] draws
    the stars itself) and is left out. *)

(** [n] calls of [update()] on the same object. *)
Fixpoint updates (n : nat) (width height : Q) (s : t) : JS.Rng t :=
  match n with
  | O => JS.ret s
  | S n' =>
      let* s' := update width height s in
      updates n' width height s'
  end.

End Star.

Module Starfield.

Import JS.
Local Open Scope Q_scope.

(** What the code reads from [window] and [document.body], fresh at every
    use. *)
Record Window : Type := {
  innerWidth : Q;
  innerHeight : Q;
  scrollY : Q;
  scrollHeight : Q
}.

(** The attributes of the canvas element that the code writes. *)
Record Canvas : Type := {
  canvas_width : Q;
  canvas_height : Q;
  style_opacity : Q
}.

(** Commands sent to the 2d context.  [FillCircle] stands for the
    sequence [beginPath], [fillStyle = rgba(255, 255, 255, alpha)],
    [arc(x, y, r, 0, 2 * PI)], [fill]. *)
Inductive CanvasOp : Type :=
| ClearRect (left top w h : Q)
| FillCircle (cx cy r : Q) (alpha : Number).

(** The variables captured by the functions nested in
    [initSpaceBackground]. *)
Record Field : Type := {
  canvas : Canvas;
  width : Q;
  height : Q;
  stars : list Star.t
}.

Definition baseStarCount : nat := 400.

(** The loop of [initStars]: [n] more calls of [stars.push(new Star())]. *)
Fixpoint push_stars (n : nat) (w h : Q) (pool : list Star.t)
  : Rng (list Star.t) :=
  match n with
  | O => ret pool
  | S n' =>
      let* s := Star.constructor w h in
      push_stars n' w h (pool ++ [s])
  end.

Definition initStars (f : Field) : Rng Field :=
  let* pool := push_stars baseStarCount (width f) (height f) [] in
  ret {| canvas := {| canvas_width := canvas_width (canvas f);
                      canvas_height := canvas_height (canvas f);
                      style_opacity := 1 |};
         width := width f;
         height := height f;
         stars := pool |}.

Definition resize (win : Window) (f : Field) : Rng Field :=
  initStars {| canvas := {| canvas_width := innerWidth win;
                            canvas_height := innerHeight win;
                            style_opacity := style_opacity (canvas f) |};
               width := innerWidth win;
               height := innerHeight win;
               stars := stars f |}.

(** [Math.min(scrollY / maxScroll, 1)] *)
Definition scrollProgress (win : Window) : Number :=
  let maxScroll := scrollHeight win - innerHeight win in
  Math_min (div (Fin (scrollY win)) (Fin maxScroll)) (Fin 1).

(** [count * (0.1 + Math.pow(scrollProgress, 2) * 0.9)] *)
Definition visibleThreshold (count : nat) (progress : Number) : Number :=
  mul (of_nat count) (add (Fin 0.1) (mul (Math_pow progress 2) (Fin 0.9))).

(** [star.opacity * (0.5 + scrollProgress * 0.5)] *)
Definition brightness (star : Star.t) (progress : Number) : Number :=
  mul (Fin (Star.opacity star)) (add (Fin 0.5) (mul progress (Fin 0.5))).

Definition visible (progress : Number) (index : nat) : bool :=
  lt (of_nat index) (visibleThreshold baseStarCount progress).

Definition draw_star (star : Star.t) (progress : Number) : CanvasOp :=
  FillCircle (Star.x star) (Star.y star) (Star.size star)
             (brightness star progress).

(** The callback that [animate] passes to [stars.forEach]: the star is
    updated in place, then drawn if its index is under the threshold. *)
Definition each_star (w h : Q) (progress : Number)
    (star : Star.t) (index : nat) : Rng (Star.t * list CanvasOp) :=
  let* star' := Star.update w h star in
  ret (star', if visible progress index
              then [draw_star star' progress] else []).

(** [forEach] over the pool from index [index] on, collecting the updated
    objects and the drawing commands in order. *)
Fixpoint forEach (callback : Star.t -> nat -> Rng (Star.t * list CanvasOp))
    (index : nat) (pool : list Star.t) : Rng (list Star.t * list CanvasOp) :=
  match pool with
  | [] => ret ([], [])
  | star :: rest =>
      let* r := callback star index in
      let* rs := forEach callback (S index) rest in
      ret (fst r :: fst rs, snd r ++ snd rs)
  end.

(** One call of [animate], up to its closing
    [requestAnimationFrame(animate)]. *)
Definition animate (win : Window) (f : Field) : Rng (Field * list CanvasOp) :=
  let progress := scrollProgress win in
  let* r := forEach (each_star (width f) (height f) progress) O (stars f) in
  ret ({| canvas := canvas f; width := width f; height := height f;
          stars := fst r |},
       ClearRect 0 0 (width f) (height f) :: snd r).

(** Successive frames, one per snapshot of the window. *)
Fixpoint frames (wins : list Window) (f : Field) : Rng (Field * list CanvasOp) :=
  match wins with
  | [] => ret (f, [])
  | win :: wins' =>
      let* r := animate win f in
      let* rs := frames wins' (fst r) in
      ret (fst rs, snd r ++ snd rs)
  end.

End Starfield.

(** ** The page around the starfield *)

Module Page.

Import JS Starfield.
Local Open Scope Q_scope.

Record t : Type := {
  window : Window;
  (** [document.getElementById('space-canvas')] *)
  space_canvas : option Canvas;
  (** the variables of a started starfield; [None] while there is none *)
  starfield : option Field;
  (** listeners added with [window.addEventListener('resize', resize)] *)
  resize_listeners : nat;
  (** callbacks passed to [requestAnimationFrame] and not yet run *)
  frame_requests : nat;
  (** the drawing commands issued so far *)
  painted : list CanvasOp
}.

(** [initSpaceBackground()].  [width] and [height] are declared without a
    value and [resize] assigns them before anything reads them; they are 0
    in the record until then. *)
Definition initSpaceBackground (pg : t) (g : Rand) : Completion (t * Rand) :=
  let canvas_ref := space_canvas pg in
  if negb (truthy canvas_ref) then Normal (pg, g)
  else
    match member canvas_ref with
    | Throw e => Throw e
    | Normal cv =>
        let f0 := {| canvas := cv; width := 0; height := 0; stars := [] |} in
        let (f1, g1) := resize (window pg) f0 g in
        let (r, g2) := animate (window pg) f1 g1 in
        Normal ({| window := window pg;
                   space_canvas := Some (canvas (fst r));
                   starfield := Some (fst r);
                   resize_listeners := S (resize_listeners pg);
                   frame_requests := S (frame_requests pg);
                   painted := painted pg ++ snd r |}, g2)
    end.

End Page.

(** ** The glyph rain *)

Module MatrixRain.

Import JS.

(** The part of the document and of the timer table that the rain
    touches.  Canvas elements are named by the order of their creation;
    the callback of an interval timer is named by the canvas its [draw]
    closure paints on. *)
Record Doc : Type := {
  (** [document.body.classList.contains('matrix-mode')] *)
  matrix_mode : bool;
  (** the global [matrixInterval]; [None] is [undefined] *)
  matrixInterval : option nat;
  (** the repeating timers that are active, by handle *)
  intervals : gmap nat nat;
  (** the handle [setInterval] returns next *)
  next_interval : nat;
  (** the elements with id [matrix-rain], in document order *)
  overlays : list nat;
  (** the number of canvases created so far *)
  created : nat;
  (** the canvases whose resize listener [startMatrixRain] has added *)
  resize_listeners : list nat;
  (** the calls of [draw] so far, by canvas *)
  rain_frames : list nat;
  (** the calls of [alert] so far *)
  alerts : nat
}.

(** The page as loaded, with or without the class on [body]. *)
Definition loaded (mode : bool) : Doc :=
  {| matrix_mode := mode; matrixInterval := None; intervals := ∅;
     next_interval := 1; overlays := []; created := 0;
     resize_listeners := []; rain_frames := []; alerts := 0 |}.

(** [clearInterval(handle)]: nothing happens for [undefined] or for a
    handle that is not active. *)
Definition clearInterval (handle : option nat) (d : Doc) : Doc :=
  match handle with
  | None => d
  | Some h =>
      {| matrix_mode := matrix_mode d; matrixInterval := matrixInterval d;
         intervals := delete h (intervals d);
         next_interval := next_interval d; overlays := overlays d;
         created := created d; resize_listeners := resize_listeners d;
         rain_frames := rain_frames d; alerts := alerts d |}
  end.

(** [canvas.remove()] *)
Definition remove (node : nat) (d : Doc) : Doc :=
  {| matrix_mode := matrix_mode d; matrixInterval := matrixInterval d;
     intervals := intervals d; next_interval := next_interval d;
     overlays := filter (λ n, n ≠ node) (overlays d);
     created := created d; resize_listeners := resize_listeners d;
     rain_frames := rain_frames d; alerts := alerts d |}.

(** [document.getElementById('matrix-rain')]: the first such element. *)
Definition getElementById_matrix_rain (d : Doc) : option nat :=
  head (overlays d).

(** [startMatrixRain()]: a new canvas is appended to [body], a timer is
    set on its [draw], the handle goes into [matrixInterval], and a
    resize listener is added. *)
Definition startMatrixRain (d : Doc) : Doc :=
  let node := created d in
  let handle := next_interval d in
  {| matrix_mode := matrix_mode d;
     matrixInterval := Some handle;
     intervals := <[handle := node]> (intervals d);
     next_interval := S handle;
     overlays := overlays d ++ [node];
     created := S node;
     resize_listeners := resize_listeners d ++ [node];
     rain_frames := rain_frames d;
     alerts := alerts d |}.

(** [stopMatrixRain()] *)
Definition stopMatrixRain (d : Doc) : Completion Doc :=
  let d1 := clearInterval (matrixInterval d) d in
  let canvas_ref := getElementById_matrix_rain d1 in
  if truthy canvas_ref then
    match member canvas_ref with
    | Throw e => Throw e
    | Normal node => Normal (remove node d1)
    end
  else Normal d1.

(** [toggleMatrixMode()] *)
Definition toggleMatrixMode (d : Doc) : Completion Doc :=
  let d1 :=
    {| matrix_mode := negb (matrix_mode d);
       matrixInterval := matrixInterval d; intervals := intervals d;
       next_interval := next_interval d; overlays := overlays d;
       created := created d; resize_listeners := resize_listeners d;
       rain_frames := rain_frames d; alerts := alerts d |} in
  let isMatrix := matrix_mode d1 in
  if isMatrix then
    Normal (startMatrixRain
      {| matrix_mode := matrix_mode d1; matrixInterval := matrixInterval d1;
         intervals := intervals d1; next_interval := next_interval d1;
         overlays := overlays d1; created := created d1;
         resize_listeners := resize_listeners d1;
         rain_frames := rain_frames d1; alerts := S (alerts d1) |})
  else stopMatrixRain d1.

(** The timer [handle] fires: its [draw] runs if the timer is active. *)
Definition tick (handle : nat) (d : Doc) : Doc :=
  match intervals d !! handle with
  | None => d
  | Some node =>
      {| matrix_mode := matrix_mode d; matrixInterval := matrixInterval d;
         intervals := intervals d; next_interval := next_interval d;
         overlays := overlays d; created := created d;
         resize_listeners := resize_listeners d;
         rain_frames := rain_frames d ++ [node]; alerts := alerts d |}
  end.

(** What the page reacts to: the completed key sequence, which calls
    [toggleMatrixMode]; a timer; a resize of the window, on which the
    listeners of [startMatrixRain] only set the size of their canvas. *)
Inductive Event : Type :=
| Konami
| Tick (handle : nat)
| Resize.

Definition step (ev : Event) (d : Doc) : Completion Doc :=
  match ev with
  | Konami => toggleMatrixMode d
  | Tick handle => Normal (tick handle d)
  | Resize => Normal d
  end.

(** The events in order; a throwing handler ends only its own event. *)
Fixpoint run (evs : list Event) (d : Doc) : Doc :=
  match evs with
  | [] => d
  | ev :: evs' =>
      match step ev d with
      | Normal d' => run evs' d'
      | Throw _ => run evs' d
      end
  end.

Definition reachable (d : Doc) : Prop :=
  ∃ mode evs, d = run evs (loaded mode).

Definition is_toggle (ev : Event) : bool :=
  match ev with Konami => true | _ => false end.

End MatrixRain.

(** ** The arithmetic of a frame over doubles *)

Module Binary64.

Local Open Scope float_scope.

(** [Math.min(a, b)] on doubles: NaN if either argument is NaN, and the
    negative zero is below the positive one. *)
Definition Math_min (a b : float) : float :=
  if is_nan a || is_nan b then nan
  else if PrimFloat.ltb b a then b
  else if PrimFloat.ltb a b then a
  else if get_sign b then b else a.

(** [Math.min(scrollY / maxScroll, 1)] *)
Definition scrollProgress (scrollY scrollHeight innerHeight : float) : float :=
  let maxScroll := scrollHeight - innerHeight in
  Math_min (scrollY / maxScroll) 1.

(** [count * (0.1 + Math.pow(progress, 2) * 0.9)], with the square taken
    as the product, which is what [Math.pow] returns at 0, 0.5 and 1. *)
Definition visibleThreshold (count progress : float) : float :=
  count * (0x1.999999999999ap-4 + progress * progress * 0x1.ccccccccccccdp-1).

(** The index of [forEach] as a double; exact below 2^53. *)
Definition of_index (index : nat) : float :=
  Nat.iter index (fun v => v + 1) 0.

(** [index < visibleThreshold] *)
Definition visible (progress : float) (index : nat) : bool :=
  PrimFloat.ltb (of_index index) (visibleThreshold 400 progress).

(** [star.opacity * (0.5 + scrollProgress * 0.5)] *)
Definition brightness (opacity progress : float) : float :=
  opacity * (0.5 + progress * 0.5).

End Binary64.

(** ** Vocabulary of the statements *)

Module Spec.

Import JS.
Local Open Scope Q_scope.

(** The order of values; NaN is not comparable. *)
Definition num_le (a b : Number) : Prop :=
  match a, b with
  | NaN, _ | _, NaN => False
  | Fin u, Fin v => u <= v
  | NegInf, _ | _, PosInf => True
  | _, _ => False
  end.

(** [clamp(v, lo, hi)] on finite numbers. *)
Definition clamp (v lo hi : Q) : Q :=
  if Qltb v lo then lo else if Qltb hi v then hi else v.

(** A list with its indices, counted from [k]. *)
Fixpoint indexed_from {A} (k : nat) (l : list A) : list (nat * A) :=
  match l with
  | [] => []
  | a :: l' => (k, a) :: indexed_from (S k) l'
  end.

(** The elements of [pool] whose index is strictly below [cutoff], in
    order. *)
Definition below (cutoff : Q) (pool : list Star.t) : list Star.t :=
  map snd
    (List.filter (fun e => Qltb (inject_Z (Z.of_nat (fst e))) cutoff)
                 (indexed_from 0 pool)).

(** The rain is at rest: no timer is active, the document holds no
    overlay, and whatever happens short of a new toggle, [draw] is not
    called again. *)
Definition rain_stopped (d : MatrixRain.Doc) : Prop :=
  MatrixRain.intervals d = ∅ /\
  MatrixRain.overlays d = [] /\
  forall evs : list MatrixRain.Event,
    forallb (fun ev => negb (MatrixRain.is_toggle ev)) evs = true ->
    MatrixRain.rain_frames (MatrixRain.run evs d) = MatrixRain.rain_frames d.

(** The rain runs: one timer is active, its handle is the one kept in
    [matrixInterval], and the document holds the one overlay it paints. *)
Definition rain_running (d : MatrixRain.Doc) : Prop :=
  exists handle node : nat,
    MatrixRain.matrixInterval d = Some handle /\
    MatrixRain.intervals d = {[ handle := node ]} /\
    MatrixRain.overlays d = [node].

(** What holds between any two events. *)
Definition rain_settled (d : MatrixRain.Doc) : Prop :=
  (MatrixRain.intervals d = ∅ /\ MatrixRain.overlays d = []) \/
  (MatrixRain.matrix_mode d = true /\ rain_running d).

End Spec.

(** ** The key sequence *)

Module Konami.

Import JS.

Definition code : list string :=
  ["ArrowUp"; "ArrowUp"; "ArrowDown"; "ArrowDown"; "ArrowLeft";
   "ArrowRight"; "ArrowLeft"; "ArrowRight"; "b"; "a"]%string.

(** What the handler writes with [console.log]. *)
Inductive Message : Type :=
| Invitation
| KeyAccepted (key : string) (position total : nat)
| AccessGranted
| AccessDenied.

(** The variable [index] of [initKonamiCode], the console, and the part
    of the document that [toggleMatrixMode] works on. *)
Record State : Type := {
  index : nat;
  console : list Message;
  doc : MatrixRain.Doc
}.

(** [initKonamiCode()], up to the registration of the handler. *)
Definition initKonamiCode (d : MatrixRain.Doc) : State :=
  {| index := 0; console := [Invitation]; doc := d |}.

(** [e.key === code[index]]; past the end [code[index]] is [undefined],
    which no key equals. *)
Definition key_matches (key : string) (position : nat) : bool :=
  match code !! position with
  | Some expected => String.eqb key expected
  | None => false
  end.

(** The [keydown] handler. *)
Definition keydown (key : string) (st : State) : Completion State :=
  if key_matches key (index st) then
    let index' := S (index st) in
    let console' :=
      console st ++ [KeyAccepted key index' (length code)] in
    if index' =? length code then
      match MatrixRain.toggleMatrixMode (doc st) with
      | Throw e => Throw e
      | Normal d' =>
          Normal {| index := 0; console := console' ++ [AccessGranted];
                    doc := d' |}
      end
    else Normal {| index := index'; console := console'; doc := doc st |}
  else
    Normal {| index := 0;
              console := if 0 <? index st
                         then console st ++ [AccessDenied] else console st;
              doc := doc st |}.

(** The keys in order; a throwing handler ends only its own event. *)
Fixpoint keys (ks : list string) (st : State) : State :=
  match ks with
  | [] => st
  | k :: ks' =>
      match keydown k st with
      | Normal st' => keys ks' st'
      | Throw _ => keys ks' st
      end
  end.

Definition is_granted (m : Message) : bool :=
  match m with AccessGranted => true | _ => false end.

(** How often the console says that access was granted. *)
Definition granted (st : State) : nat :=
  length (List.filter is_granted (console st)).

End Konami.

(** ** The drawing of the glyph rain *)

Module Rain.

Import JS.
Local Open Scope Q_scope.

Definition fontSize : Q := 16.

(** The three strings of [startMatrixRain], as UTF-16 code units (every
    character of them is a single unit). *)
Definition katakana : list N :=
  [12450; 12449; 12459; 12469; 12479; 12490; 12495; 12510; 12516; 12515;
   12521; 12527; 12460; 12470; 12480; 12496; 12497; 12452; 12451; 12461;
   12471; 12481; 12491; 12498; 12511; 12522; 12528; 12462; 12472; 12482;
   12499; 12500; 12454; 12453; 12463; 12473; 12484; 12492; 12501; 12512;
   12518; 12517; 12523; 12464; 12474; 12502; 12485; 12503; 12456; 12455;
   12465; 12475; 12486; 12493; 12504; 12513; 12524; 12529; 12466; 12476;
   12487; 12505; 12506; 12458; 12457; 12467; 12477; 12488; 12494; 12507;
   12514; 12520; 12519; 12525; 12530; 12468; 12478; 12489; 12508; 12509;
   12532; 12483; 12531; 48; 49; 50; 51; 52; 53; 54; 55; 56; 57; 90]%N.

Definition latin : list N :=
  [65; 66; 67; 68; 69; 70; 71; 72; 73; 74; 75; 76; 77; 78; 79; 80; 81;
   82; 83; 84; 85; 86; 87; 88; 89; 90]%N.

Definition nums : list N :=
  [48; 49; 50; 51; 52; 53; 54; 55; 56; 57]%N.

Definition alphabet : list N := katakana ++ latin ++ nums.

(** [s.charAt(pos)]: the unit at [pos], or the empty string ([None])
    when [pos] is out of range. *)
Definition charAt (s : list N) (pos : Z) : option N :=
  if (pos <? 0)%Z then None else s !! Z.to_nat pos.

(** The canvas of the rain and the array captured by [draw]. *)
Record Closure : Type := {
  canvas_width : Q;
  canvas_height : Q;
  rainDrops : list nat
}.

(** Commands sent to the 2d context of the overlay: the translucent black
    rectangle over the whole canvas, and one glyph. *)
Inductive Op : Type :=
| FillRect (left top w h : Q)
| FillText (text : option N) (left top : Q).

(** [for (let x = 0; x < columns; x++) rainDrops[x] = 1], from [x] on;
    [x] is the length of the array, so the assignment appends.  [None]
    when the fuel runs out before the test fails. *)
Fixpoint fill_columns (fuel : nat) (x : nat) (columns : Q)
    (drops : list nat) : option (list nat) :=
  match fuel with
  | O => None
  | S fuel' =>
      if Qltb (inject_Z (Z.of_nat x)) columns
      then fill_columns fuel' (S x) columns (drops ++ [1%nat])
      else Some drops
  end.

(** The part of [startMatrixRain] that sizes the canvas and fills the
    array. *)
Definition start (innerWidth innerHeight : Q) : option Closure :=
  let columns := innerWidth / fontSize in
  match fill_columns (S (Z.to_nat (Qceiling columns))) 0 columns [] with
  | None => None
  | Some drops =>
      Some {| canvas_width := innerWidth; canvas_height := innerHeight;
              rainDrops := drops |}
  end.

(** The body of the loop of [draw] for column [i]: a glyph is drawn at
    the drop, and the drop moves on; once it is below the canvas, a second
    random number decides whether it starts again from the top. *)
Definition draw_column (h : Q) (i : nat) (drop : nat) : Rng (nat * Op) :=
  let* r := Math_random in
  let text :=
    charAt alphabet (Qfloor (r * inject_Z (Z.of_nat (length alphabet)))) in
  let op := FillText text (inject_Z (Z.of_nat i) * fontSize)
                     (inject_Z (Z.of_nat drop) * fontSize) in
  if Qltb h (inject_Z (Z.of_nat drop) * fontSize) then
    let* r' := Math_random in
    ret (S (if Qltb 0.975 r' then O else drop), op)
  else ret (S drop, op).

(** The loop of [draw], from column [i] on. *)
Fixpoint draw_columns (h : Q) (i : nat) (drops : list nat)
  : Rng (list nat * list Op) :=
  match drops with
  | [] => ret ([], [])
  | drop :: rest =>
      let* r := draw_column h i drop in
      let* rs := draw_columns h (S i) rest in
      ret (fst r :: fst rs, snd r :: snd rs)
  end.

(** [draw()] *)
Definition draw (c : Closure) : Rng (Closure * list Op) :=
  let* r := draw_columns (canvas_height c) 0 (rainDrops c) in
  ret ({| canvas_width := canvas_width c; canvas_height := canvas_height c;
          rainDrops := fst r |},
       FillRect 0 0 (canvas_width c) (canvas_height c) :: snd r).

(** The resize listener of [startMatrixRain]. *)
Definition on_resize (innerWidth innerHeight : Q) (c : Closure) : Closure :=
  {| canvas_width := innerWidth; canvas_height := innerHeight;
     rainDrops := rainDrops c |}.

(** What happens to a started rain: its timer fires, or the window is
    resized. *)
Inductive Event : Type :=
| Draw
| Resized (innerWidth innerHeight : Q).

Fixpoint run (evs : list Event) (c : Closure) : Rng (Closure * list Op) :=
  match evs with
  | [] => ret (c, [])
  | Draw :: evs' =>
      let* r := draw c in
      let* rs := run evs' (fst r) in
      ret (fst rs, snd r ++ snd rs)
  | Resized w h :: evs' => run evs' (on_resize w h c)
  end.

End Rain.

(** ** The animation loop on the page *)

Module Loop.

Import JS Starfield.
Local Open Scope Q_scope.

(** What the browser delivers to a started starfield: an animation
    frame, a resize of the window to new sizes, a scroll. *)
Inductive Event : Type :=
| Frame
| Resize (innerWidth innerHeight : Q)
| Scroll (scrollY : Q).

(** A pending callback of [requestAnimationFrame] runs: it is [animate],
    which ends by requesting the next frame. *)
Definition on_frame (pg : Page.t) (g : Rand) : Page.t * Rand :=
  match Page.frame_requests pg, Page.starfield pg with
  | S pending, Some f =>
      let (r, g') := animate (Page.window pg) f g in
      ({| Page.window := Page.window pg;
          Page.space_canvas := Some (canvas (fst r));
          Page.starfield := Some (fst r);
          Page.resize_listeners := Page.resize_listeners pg;
          Page.frame_requests := S pending;
          Page.painted := Page.painted pg ++ snd r |}, g')
  | _, _ => (pg, g)
  end.

(** The listeners of the resize event run, each of them [resize]. *)
Fixpoint resize_each (listeners : nat) (win : Window) (f : Field)
  : Rng Field :=
  match listeners with
  | O => ret f
  | S listeners' =>
      let* f' := resize win f in
      resize_each listeners' win f'
  end.

Definition on_resize (w h : Q) (pg : Page.t) (g : Rand) : Page.t * Rand :=
  let win := {| innerWidth := w; innerHeight := h;
                scrollY := scrollY (Page.window pg);
                scrollHeight := scrollHeight (Page.window pg) |} in
  match Page.starfield pg with
  | Some f =>
      let (f', g') := resize_each (Page.resize_listeners pg) win f g in
      ({| Page.window := win;
          Page.space_canvas := Some (canvas f');
          Page.starfield := Some f';
          Page.resize_listeners := Page.resize_listeners pg;
          Page.frame_requests := Page.frame_requests pg;
          Page.painted := Page.painted pg |}, g')
  | None =>
      ({| Page.window := win;
          Page.space_canvas := Page.space_canvas pg;
          Page.starfield := None;
          Page.resize_listeners := Page.resize_listeners pg;
          Page.frame_requests := Page.frame_requests pg;
          Page.painted := Page.painted pg |}, g)
  end.

Definition on_scroll (y : Q) (pg : Page.t) : Page.t :=
  {| Page.window := {| innerWidth := innerWidth (Page.window pg);
                       innerHeight := innerHeight (Page.window pg);
                       scrollY := y;
                       scrollHeight := scrollHeight (Page.window pg) |};
     Page.space_canvas := Page.space_canvas pg;
     Page.starfield := Page.starfield pg;
     Page.resize_listeners := Page.resize_listeners pg;
     Page.frame_requests := Page.frame_requests pg;
     Page.painted := Page.painted pg |}.

Definition step (ev : Event) (pg : Page.t) (g : Rand) : Page.t * Rand :=
  match ev with
  | Frame => on_frame pg g
  | Resize w h => on_resize w h pg g
  | Scroll y => (on_scroll y pg, g)
  end.

Fixpoint run (evs : list Event) (pg : Page.t) (g : Rand) : Page.t * Rand :=
  match evs with
  | [] => (pg, g)
  | ev :: evs' => let (pg', g') := step ev pg g in run evs' pg' g'
  end.

(** The page at [DOMContentLoaded], before [initSpaceBackground]. *)
Definition loaded (win : Window) (cv : option Canvas) : Page.t :=
  {| Page.window := win; Page.space_canvas := cv; Page.starfield := None;
     Page.resize_listeners := 0; Page.frame_requests := 0;
     Page.painted := [] |}.

Definition is_clear (op : CanvasOp) : bool :=
  match op with ClearRect _ _ _ _ => true | FillCircle _ _ _ _ => false end.

Definition is_frame (ev : Event) : bool :=
  match ev with Frame => true | _ => false end.

End Loop.

(** ** The reveal of elements on scroll *)

Module ScrollAnimations.

Local Open Scope Q_scope.

(** [(index % 5) * 0.05], the delay of the transition in seconds. *)
Definition delay (index : nat) : Q :=
  inject_Z (Z.of_nat (index mod 5)) * 0.05.

(** The animated elements, named by their position in
    [animatedElements]: those the observer observes, and those with the
    class [in-view]. *)
Record State : Type := {
  observed : gset nat;
  in_view : gset nat
}.

(** The loop over [animatedElements], for [n] elements: each is
    observed. *)
Definition initScrollAnimations (n : nat) : State :=
  {| observed := list_to_set (seq 0 n); in_view := ∅ |}.

(** The callback of the observer on one entry. *)
Definition on_entry (entry : nat * bool) (st : State) : State :=
  let (target, isIntersecting) := entry in
  if isIntersecting
  then {| observed := observed st ∖ {[ target ]};
          in_view := {[ target ]} ∪ in_view st |}
  else st.

(** The callback of the observer: [entries.forEach]. *)
Definition on_entries (entries : list (nat * bool)) (st : State) : State :=
  foldl (fun acc entry => on_entry entry acc) st entries.

(** The callback, batch after batch. *)
Definition run (batches : list (list (nat * bool))) (st : State) : State :=
  foldl (fun acc entries => on_entries entries acc) st batches.

End ScrollAnimations.

(** ** The lightbox *)

Module Lightbox.

(** The class [active] of the lightbox, the [src] of its image, and the
    callbacks of [setTimeout] that have not run yet. *)
Record State : Type := {
  active : bool;
  src : string;
  pending : nat
}.

(** [initLightbox()]: the image starts with an empty [src]. *)
Definition initLightbox : State :=
  {| active := false; src := EmptyString; pending := 0 |}.

(** A click on a placeholder; [img] is the [src] of the image inside it,
    if it has one. *)
Definition click_placeholder (img : option string) (st : State) : State :=
  match img with
  | Some url => {| active := true; src := url; pending := pending st |}
  | None => st
  end.

Definition closeLightbox (st : State) : State :=
  {| active := false; src := src st; pending := S (pending st) |}.

(** Where a click inside the lightbox lands. *)
Inductive Target : Type :=
| Backdrop
| Image
| CloseButton.

(** A click inside the lightbox: the listener of the close button runs
    for a click on it, and the listener of the lightbox closes only when
    the lightbox itself is the target. *)
Definition click_lightbox (target : Target) (st : State) : State :=
  match target with
  | CloseButton => closeLightbox st
  | Backdrop => closeLightbox st
  | Image => st
  end.

(** The [keydown] listener. *)
Definition keydown (key : string) (st : State) : State :=
  if String.eqb key "Escape" && active st then closeLightbox st else st.

(** The oldest pending callback runs: [lightboxImg.src = '']. *)
Definition timeout (st : State) : State :=
  match pending st with
  | O => st
  | S n => {| active := active st; src := EmptyString; pending := n |}
  end.

Inductive Event : Type :=
| ClickPlaceholder (img : option string)
| ClickLightbox (target : Target)
| KeyDown (key : string)
| Timeout.

Definition step (ev : Event) (st : State) : State :=
  match ev with
  | ClickPlaceholder img => click_placeholder img st
  | ClickLightbox target => click_lightbox target st
  | KeyDown key => keydown key st
  | Timeout => timeout st
  end.

Definition run (evs : list Event) (st : State) : State :=
  foldl (fun acc ev => step ev acc) st evs.

End Lightbox.

Module LightboxEvents.

(** The events that neither close the lightbox nor open an image: a
    timer, a click on the image shown, a click on a placeholder without
    an image, a key other than Escape. *)
Definition leaves_open (ev : Lightbox.Event) : Prop :=
  match ev with
  | Lightbox.Timeout => True
  | Lightbox.ClickLightbox Lightbox.Image => True
  | Lightbox.ClickPlaceholder None => True
  | Lightbox.KeyDown key => key <> "Escape"%string
  | _ => False
  end.

End LightboxEvents.

(** ** Doubles *)

Module Double.

Local Open Scope Q_scope.

(** The integer nearest to [x]; half way between two integers, the even
    one. *)
Definition rne (x : Q) : Z :=
  let f := Qfloor x in
  match Qcompare (x - inject_Z f) (1 # 2) with
  | Lt => f
  | Gt => (f + 1)%Z
  | Eq => if Z.even f then f else (f + 1)%Z
  end.

(** For a positive [x], the integer [k] with [2^k <= x < 2^(k+1)]: the
    difference of the bit lengths of numerator and denominator, or one
    less. *)
Definition ilog2 (x : Q) : Z :=
  let k := (Z.log2 (Qnum x) - Z.log2 (Zpos (Qden x)))%Z in
  if Qle_bool (2 ^ k) x then k else (k - 1)%Z.

(** What [rne x] is: the integer within a half of [x], the even one of
    the two when [x] is half way. *)
Definition nearest (x : Q) (z : Z) : Prop :=
  (inject_Z z - (1 # 2) < x /\ x < inject_Z z + (1 # 2)) \/
  ((x == inject_Z z - (1 # 2) \/ x == inject_Z z + (1 # 2)) /\
   Z.even z = true).

(** The exponent of the last binary digit that a double keeps of [x]: 52
    places below the leading digit, and never below -1074, the exponent
    of the smallest subnormal number. *)
Definition exponent (x : Q) : Z := Z.max (ilog2 (Qabs x) - 52) (-1074).

(** The double nearest to [x], ties to even: what IEEE 754 returns for
    an operation whose exact result is [x], as long as it does not
    overflow (the exponent has no upper limit here). *)
Definition round (x : Q) : Q :=
  let e := exponent x in inject_Z (rne (x / 2 ^ e)) * 2 ^ e.

(** Rounding with the last digit kept at the exponent [e]. *)
Definition round_at (e : Z) (x : Q) : Q := inject_Z (rne (x / 2 ^ e)) * 2 ^ e.

(** A decimal literal of the source denotes the double nearest to it. *)
Definition lit (q : Q) : Q := round q.

Definition add (a b : Q) : Q := round (a + b).

Definition sub (a b : Q) : Q := round (a - b).

Definition mul (a b : Q) : Q := round (a * b).

(** The same on values that may be an infinity or NaN. *)
Definition rounded (v : JS.Number) : JS.Number :=
  match v with
  | JS.Fin q => JS.Fin (round q)
  | _ => v
  end.

Definition Nadd (a b : JS.Number) : JS.Number := rounded (JS.add a b).

Definition Nmul (a b : JS.Number) : JS.Number := rounded (JS.mul a b).

Definition Ndiv (a b : JS.Number) : JS.Number := rounded (JS.div a b).

(** The exact value of a double of the kernel, to compare [round] with
    the hardware arithmetic; zero for an infinity or NaN. *)
Definition of_float (f : float) : Q :=
  if PrimFloat.is_nan f || PrimFloat.is_infinity f then 0
  else
    let (m, e) := PrimFloat.frshiftexp f in
    let digits := Uint63.to_Z (PrimFloat.normfr_mantissa m) in
    let v := inject_Z digits * 2 ^ (Uint63.to_Z e - FloatOps.shift - 53) in
    if PrimFloat.ltb f 0 then - v else v.

(** Whether the rounded exact result is what the hardware returns for
    [op] on two doubles. *)
Definition agrees (op : float -> float -> float) (exact : Q -> Q -> Q)
    (a b : float) : bool :=
  Qeq_bool (of_float (op a b)) (round (exact (of_float a) (of_float b))).

End Double.

(** ** The starfield over doubles *)

Module Star64.

Import Double.
Local Open Scope Q_scope.

(** [reset()], each operation rounded.  Of the literals, 2, 0.5, 1.5, -10
    and 1 are doubles; 0.1 and 0.05 are not. *)
Definition reset (width : Q) : JS.Rng Star.t :=
  let* r_x := JS.Math_random in
  let* r_z := JS.Math_random in
  let* r_size := JS.Math_random in
  let* r_opacity := JS.Math_random in
  let* r_twinkle := JS.Math_random in
  JS.ret {| Star.x := mul r_x width;
            Star.y := -10;
            Star.z := add (mul r_z 2) 0.5;
            Star.size := mul r_size 1.5;
            Star.opacity := add (mul r_opacity 0.5) (lit 0.1);
            Star.twinkleSpeed := mul r_twinkle (lit 0.05);
            Star.twinkleDir := 1 |}.

(** [constructor()] *)
Definition constructor (width height : Q) : JS.Rng Star.t :=
  let* s := reset width in
  let* r_y := JS.Math_random in
  JS.ret {| Star.x := Star.x s; Star.y := mul r_y height;
            Star.z := Star.z s; Star.size := Star.size s;
            Star.opacity := Star.opacity s;
            Star.twinkleSpeed := Star.twinkleSpeed s;
            Star.twinkleDir := Star.twinkleDir s |}.

(** [this.y += this.z * 0.2] *)
Definition drift (s : Star.t) : Star.t :=
  {| Star.x := Star.x s;
     Star.y := add (Star.y s) (mul (Star.z s) (lit 0.2));
     Star.z := Star.z s; Star.size := Star.size s;
     Star.opacity := Star.opacity s;
     Star.twinkleSpeed := Star.twinkleSpeed s;
     Star.twinkleDir := Star.twinkleDir s |}.

(** [this.opacity += this.twinkleSpeed * this.twinkleDir], and the test
    that reverses the direction. *)
Definition twinkle (s : Star.t) : Star.t :=
  let opacity' :=
    add (Star.opacity s) (mul (Star.twinkleSpeed s) (Star.twinkleDir s)) in
  {| Star.x := Star.x s; Star.y := Star.y s; Star.z := Star.z s;
     Star.size := Star.size s;
     Star.opacity := opacity';
     Star.twinkleSpeed := Star.twinkleSpeed s;
     Star.twinkleDir :=
       if JS.Qltb (lit 0.8) opacity' || JS.Qltb opacity' (lit 0.1)
       then mul (Star.twinkleDir s) (-1) else Star.twinkleDir s |}.

(** [update()] *)
Definition update (width height : Q) (s : Star.t) : JS.Rng Star.t :=
  let s' := twinkle (drift s) in
  if JS.Qltb height (Star.y s') then reset width else JS.ret s'.

(** [n] calls of [update()] on the same object. *)
Fixpoint updates (n : nat) (width height : Q) (s : Star.t) : JS.Rng Star.t :=
  match n with
  | O => JS.ret s
  | S n' =>
      let* s' := update width height s in
      updates n' width height s'
  end.

End Star64.

Module Starfield64.

Import JS Starfield Double.
Local Open Scope Q_scope.

(** The loop of [initStars]. *)
Fixpoint push_stars (n : nat) (w h : Q) (pool : list Star.t)
  : Rng (list Star.t) :=
  match n with
  | O => ret pool
  | S n' =>
      let* s := Star64.constructor w h in
      push_stars n' w h (pool ++ [s])
  end.

Definition initStars (f : Field) : Rng Field :=
  let* pool := push_stars baseStarCount (width f) (height f) [] in
  ret {| canvas := {| canvas_width := canvas_width (canvas f);
                      canvas_height := canvas_height (canvas f);
                      style_opacity := 1 |};
         width := width f;
         height := height f;
         stars := pool |}.

Definition resize (win : Window) (f : Field) : Rng Field :=
  initStars {| canvas := {| canvas_width := innerWidth win;
                            canvas_height := innerHeight win;
                            style_opacity := style_opacity (canvas f) |};
               width := innerWidth win;
               height := innerHeight win;
               stars := stars f |}.

(** [Math.min(scrollY / maxScroll, 1)] *)
Definition scrollProgress (win : Window) : Number :=
  let maxScroll := sub (scrollHeight win) (innerHeight win) in
  Math_min (Ndiv (Fin (scrollY win)) (Fin maxScroll)) (Fin 1).

(** [count * (0.1 + Math.pow(scrollProgress, 2) * 0.9)].  For the
    exponent 2 [Math.pow] returns the rounded product of the base with
    itself. *)
Definition visibleThreshold (count : nat) (progress : Number) : Number :=
  Nmul (of_nat count)
       (Nadd (Fin (lit 0.1)) (Nmul (Nmul progress progress) (Fin (lit 0.9)))).

(** [star.opacity * (0.5 + scrollProgress * 0.5)] *)
Definition brightness (star : Star.t) (progress : Number) : Number :=
  Nmul (Fin (Star.opacity star)) (Nadd (Fin 0.5) (Nmul progress (Fin 0.5))).

(** [index < visibleThreshold] *)
Definition visible (progress : Number) (index : nat) : bool :=
  lt (of_nat index) (visibleThreshold baseStarCount progress).

Definition draw_star (star : Star.t) (progress : Number) : CanvasOp :=
  FillCircle (Star.x star) (Star.y star) (Star.size star)
             (brightness star progress).

(** The callback that [animate] passes to [stars.forEach]. *)
Definition each_star (w h : Q) (progress : Number)
    (star : Star.t) (index : nat) : Rng (Star.t * list CanvasOp) :=
  let* star' := Star64.update w h star in
  ret (star', if visible progress index
              then [draw_star star' progress] else []).

(** One call of [animate]. *)
Definition animate (win : Window) (f : Field) : Rng (Field * list CanvasOp) :=
  let progress := scrollProgress win in
  let* r := forEach (each_star (width f) (height f) progress) O (stars f) in
  ret ({| canvas := canvas f; width := width f; height := height f;
          stars := fst r |},
       ClearRect 0 0 (width f) (height f) :: snd r).

(** Successive frames, one per snapshot of the window. *)
Fixpoint frames (wins : list Window) (f : Field) : Rng (Field * list CanvasOp) :=
  match wins with
  | [] => ret (f, [])
  | win :: wins' =>
      let* r := animate win f in
      let* rs := frames wins' (fst r) in
      ret (fst rs, snd r ++ snd rs)
  end.

End Starfield64.

(** ** The element behind the starfield *)

Module Dom.

Import JS Starfield.
Local Open Scope Q_scope.

(** What [document.getElementById('space-canvas')] can return besides
    [null]: a canvas element, whose [getContext('2d')] returns a context
    or [null]; or an element of another kind, which has no method
    [getContext]. *)
Inductive Element : Type :=
| CanvasElement (cv : Canvas) (context2d : bool)
| OtherElement.

Record t : Type := {
  window : Window;
  (** [document.getElementById('space-canvas')] *)
  space_canvas : option Element;
  (** the variables of the closure, once [resize] has assigned them *)
  starfield : option Field;
  (** listeners added with [window.addEventListener('resize', resize)] *)
  resize_listeners : nat;
  (** callbacks passed to [requestAnimationFrame] and not yet run *)
  frame_requests : nat;
  (** the drawing commands issued so far *)
  painted : list CanvasOp
}.

(** How the call ends, with the page as it is then. *)
Inductive Outcome : Type :=
| Returned (pg : t) (g : Rand)
| Thrown (e : Error) (pg : t) (g : Rand).

(** [initSpaceBackground()].  On an element that is not a canvas the
    call [canvas.getContext('2d')] throws.  On a canvas without a 2d
    context [ctx] is [null]: the listener is added and [resize] fills the
    pool, then [ctx.clearRect] at the head of [animate] throws. *)
Definition initSpaceBackground (pg : t) (g : Rand) : Outcome :=
  match space_canvas pg with
  | None => Returned pg g
  | Some OtherElement => Thrown TypeError pg g
  | Some (CanvasElement cv context2d) =>
      let f0 := {| canvas := cv; width := 0; height := 0; stars := [] |} in
      let (f1, g1) := Starfield64.resize (window pg) f0 g in
      if context2d then
        let (r, g2) := Starfield64.animate (window pg) f1 g1 in
        Returned {| window := window pg;
                    space_canvas := Some (CanvasElement (canvas (fst r)) true);
                    starfield := Some (fst r);
                    resize_listeners := S (resize_listeners pg);
                    frame_requests := S (frame_requests pg);
                    painted := painted pg ++ snd r |} g2
      else
        Thrown TypeError
               {| window := window pg;
                  space_canvas := Some (CanvasElement (canvas f1) false);
                  starfield := Some f1;
                  resize_listeners := S (resize_listeners pg);
                  frame_requests := frame_requests pg;
                  painted := painted pg |} g1
  end.

End Dom.

(** ** Vocabulary of the statements over doubles *)

Module Spec64.

Import JS Double.
Local Open Scope Q_scope.

(** [q] is a double: rounding leaves it as it is. *)
Definition double (q : Q) : Prop := round q == q.

(** Every draw is a double of the half-open unit interval. *)
Definition double_draws (g : Rand) : Prop :=
  forall n, double (g n) /\ 0 <= g n /\ g n < 1.

(** The twinkle invariant over doubles.  Moving up, the opacity is not
    above 0.8 and the next step brings it to 0.1 at least; moving down, it
    is not below 0.1 and the next step brings it to 0.8 at most. *)
Definition twinkle_inv (s : Star.t) : Prop :=
  let o := Star.opacity s in
  let v := Star.twinkleSpeed s in
  double v /\ 0 <= v /\ v <= lit 0.05 /\
  ((Star.twinkleDir s == 1 /\
    sub (lit 0.1) v <= o /\ o <= lit 0.8 /\ lit 0.1 <= add o v) \/
   (Star.twinkleDir s == -1 /\
    lit 0.1 <= o /\ o <= add (lit 0.8) v /\ sub o v <= lit 0.8)).

(** [400 * (0.1 + p * p * 0.9)] as [animate] computes it over doubles. *)
Definition cutoff (p : Q) : Q :=
  mul 400 (add (lit 0.1) (mul (mul p p) (lit 0.9))).

(** [opacity * (0.5 + p * 0.5)] as [animate] computes it over doubles. *)
Definition alpha (opacity p : Q) : Q :=
  mul opacity (add 0.5 (mul p 0.5)).

End Spec64.

(** ** Vocabulary of the further statements on the starfield *)

Module Shape64.

Import JS Starfield Double.
Local Open Scope Q_scope.

(** The least and the greatest opacity of a star: one step of the
    greatest twinkle speed below 0.1 and above 0.8, as doubles. *)
Definition opacity_min : Q := sub (lit 0.1) (lit 0.05).

Definition opacity_max : Q := add (lit 0.8) (lit 0.05).

(** A star as the pool holds it under a viewport of height [h]: between
    ten pixels above the top edge and the bottom edge, with the ranges
    that [reset] gives to depth, size and twinkle speed, and with the
    twinkle invariant. *)
Definition star_in_band (h : Q) (s : Star.t) : Prop :=
  Spec64.twinkle_inv s /\
  Spec64.double (Star.y s) /\
  (-10 <= Star.y s /\ Star.y s <= h) /\
  (0.5 <= Star.z s /\ Star.z s <= 2.5) /\
  (0 <= Star.size s /\ Star.size s < 1.5) /\
  Star.twinkleSpeed s < lit 0.05.

(** A page that scrolls by a pixel at least, at a scroll offset that is
    not negative. *)
Definition scrollable (win : Window) : Prop :=
  0 <= scrollY win /\ innerHeight win + 1 <= scrollHeight win.

(** A circle with its centre in the band, a radius under 1.5 and an alpha
    between half the least opacity and the greatest opacity. *)
Definition circle_well_formed (h : Q) (op : CanvasOp) : Prop :=
  match op with
  | ClearRect _ _ _ _ => True
  | FillCircle cx cy r alpha =>
      (-10 <= cy /\ cy <= h) /\ (0 <= r /\ r < 1.5) /\
      within (mul opacity_min 0.5) opacity_max alpha
  end.

(** The number of indices below the threshold of a frame. *)
Definition drawn (win : Window) : nat :=
  match Starfield64.scrollProgress win with
  | Fin p => Z.to_nat (Qceiling (Spec64.cutoff p))
  | _ => 0%nat
  end.

End Shape64.

(** * Properties *)

Import Spec.

Import JS.
Local Open Scope Q_scope.

(** ** Comparisons *)

Lemma Qltb_lt (a b : Q) : Qltb a b = true <-> a < b.
Proof.
  unfold Qltb. rewrite negb_true_iff, <- not_true_iff_false, Qle_bool_iff.
  split; [apply Qnot_le_lt | apply Qlt_not_le].
Qed.

Lemma Qltb_ge (a b : Q) : Qltb a b = false <-> b <= a.
Proof.
  unfold Qltb. rewrite negb_false_iff. apply Qle_bool_iff.
Qed.

Lemma Qltb_cases (a b : Q) :
  (Qltb a b = true /\ a < b) \/ (Qltb a b = false /\ b <= a).
Proof.
  destruct (Qltb a b) eqn:E; [left | right]; split; auto.
  - now apply Qltb_lt.
  - now apply Qltb_ge.
Qed.


(** ** Rounding *)

Module DoubleFacts.

Import Double.
Local Open Scope Q_scope.

(** *** Powers of two *)

Lemma two_pos (k : Z) : 0 < 2 ^ k.
Proof. apply Qpower_0_lt. reflexivity. Qed.

Lemma two_add (a b : Z) : 2 ^ (a + b) == 2 ^ a * 2 ^ b.
Proof. apply Qpower_plus. discriminate. Qed.

Lemma two_le (a b : Z) : (a <= b)%Z -> 2 ^ a <= 2 ^ b.
Proof. intros H. apply Qpower_le_compat_l; [exact H | discriminate]. Qed.

Lemma two_lt (a b : Z) : (a < b)%Z -> 2 ^ a < 2 ^ b.
Proof. intros H. apply Qpower_lt_compat_l; [exact H | reflexivity]. Qed.

Lemma two_lt_inv (a b : Z) : 2 ^ a < 2 ^ b -> (a < b)%Z.
Proof. intros H. apply (Qpower_lt_compat_l_inv 2); [exact H | reflexivity]. Qed.

Lemma two_inject (n : Z) : (0 <= n)%Z -> 2 ^ n == inject_Z (2 ^ n).
Proof. intros H. symmetry. apply (Zpower_Qpower 2 n H). Qed.

Lemma two_cancel (x : Q) (e : Z) : x / 2 ^ e * 2 ^ e == x.
Proof. pose proof (two_pos e). field. lra. Qed.

Lemma two_cancel' (x : Q) (e : Z) : x * 2 ^ e / 2 ^ e == x.
Proof. pose proof (two_pos e). field. lra. Qed.

(** *** Rounding to an integer *)

Lemma inject_succ (z : Z) : inject_Z (z + 1) == inject_Z z + 1.
Proof. rewrite inject_Z_plus. reflexivity. Qed.

Lemma inject_lt_succ (a b : Z) : inject_Z a < inject_Z b + 1 -> (a <= b)%Z.
Proof.
  intros H. rewrite <- inject_succ, <- Zlt_Qlt in H. lia.
Qed.

Lemma floor_bounds (x : Q) :
  inject_Z (Qfloor x) <= x /\ x < inject_Z (Qfloor x) + 1.
Proof.
  split; [apply Qfloor_le |].
  pose proof (Qlt_floor x) as H. rewrite inject_succ in H. exact H.
Qed.

Lemma floor_unique (x : Q) (f : Z) :
  inject_Z f <= x -> x < inject_Z f + 1 -> Qfloor x = f.
Proof.
  intros L U. destruct (floor_bounds x) as [L' U'].
  assert (f <= Qfloor x)%Z by (apply inject_lt_succ; lra).
  assert (Qfloor x <= f)%Z by (apply inject_lt_succ; lra).
  lia.
Qed.

Lemma rne_comp (x y : Q) : x == y -> rne x = rne y.
Proof.
  intros E. unfold rne. rewrite (Qfloor_comp x y E).
  rewrite (Qcompare_comp (x - inject_Z (Qfloor y)) (y - inject_Z (Qfloor y))
             ltac:(rewrite E; reflexivity) (1 # 2) (1 # 2) ltac:(reflexivity)).
  reflexivity.
Qed.

Lemma rne_nearest (x : Q) : nearest x (rne x).
Proof.
  unfold rne, nearest. destruct (floor_bounds x) as [L U].
  set (f := Qfloor x) in *.
  destruct (Qcompare_spec (x - inject_Z f) (1 # 2)) as [E | E | E].
  - destruct (Z.even f) eqn:Ev.
    + right. split; [right; lra | exact Ev].
    + right. split.
      * left. rewrite inject_succ. lra.
      * rewrite Z.even_add, Ev. reflexivity.
  - left. lra.
  - left. rewrite inject_succ. lra.
Qed.

Lemma nearest_unique (x : Q) (z1 z2 : Z) :
  nearest x z1 -> nearest x z2 -> z1 = z2.
Proof.
  intros N1 N2.
  pose proof inject_lt_succ as lt1.
  assert (forall a b : Z, inject_Z a == inject_Z b + 1 -> a = (b + 1)%Z) as eq1.
  { intros a b H. rewrite <- inject_succ, inject_Z_injective in H. exact H. }
  destruct N1 as [[A1 B1] | [[E1 | E1] Ev1]], N2 as [[A2 B2] | [[E2 | E2] Ev2]].
  - assert (z1 <= z2)%Z by (apply lt1; lra).
    assert (z2 <= z1)%Z by (apply lt1; lra). lia.
  - assert (z1 <= z2)%Z by (apply lt1; lra).
    assert (z2 <= z1)%Z by (apply lt1; lra). lia.
  - assert (z1 <= z2)%Z by (apply lt1; lra).
    assert (z2 <= z1)%Z by (apply lt1; lra). lia.
  - assert (z1 <= z2)%Z by (apply lt1; lra).
    assert (z2 <= z1)%Z by (apply lt1; lra). lia.
  - assert (z1 <= z2)%Z by (apply lt1; lra).
    assert (z2 <= z1)%Z by (apply lt1; lra). lia.
  - assert (z1 = z2 + 1)%Z as E by (apply eq1; lra).
    rewrite E, Z.even_add, Ev2 in Ev1. discriminate.
  - assert (z1 <= z2)%Z by (apply lt1; lra).
    assert (z2 <= z1)%Z by (apply lt1; lra). lia.
  - assert (z2 = z1 + 1)%Z as E by (apply eq1; lra).
    rewrite E, Z.even_add, Ev1 in Ev2. discriminate.
  - assert (z1 <= z2)%Z by (apply lt1; lra).
    assert (z2 <= z1)%Z by (apply lt1; lra). lia.
Qed.

Lemma rne_unique (x : Q) (z : Z) : nearest x z -> rne x = z.
Proof. intros N. exact (nearest_unique x _ _ (rne_nearest x) N). Qed.

Lemma rne_Z (z : Z) : rne (inject_Z z) = z.
Proof. apply rne_unique. left. lra. Qed.

Lemma rne_opp (x : Q) : rne (- x) = (- rne x)%Z.
Proof.
  apply rne_unique. destruct (rne_nearest x) as [[A B] | [[E | E] Ev]];
    unfold nearest; rewrite inject_Z_opp.
  - left. lra.
  - right. split; [right; lra | rewrite Z.even_opp; exact Ev].
  - right. split; [left; lra | rewrite Z.even_opp; exact Ev].
Qed.

Lemma rne_error (x : Q) :
  inject_Z (rne x) - (1 # 2) <= x /\ x <= inject_Z (rne x) + (1 # 2).
Proof.
  destruct (rne_nearest x) as [[A B] | [[E | E] _]]; lra.
Qed.

Lemma rne_le (x y : Q) : x <= y -> (rne x <= rne y)%Z.
Proof.
  intros L.
  destruct (Z.le_gt_cases (rne x) (rne y)) as [H | H]; [exact H | exfalso].
  (* rne y < rne x, so rne y + 1 <= rne x, and both are within a half *)
  assert (inject_Z (rne y) + 1 <= inject_Z (rne x)) as G.
  { rewrite <- inject_succ, <- Zle_Qle. lia. }
  destruct (rne_nearest x) as [[A B] | [[E | E] Ev]],
           (rne_nearest y) as [[A' B'] | [[E' | E'] Ev']]; try lra.
  (* x = rne x - 1/2 and y = rne y + 1/2: then rne x = rne y + 1, and both
     are even *)
  assert (inject_Z (rne x) == inject_Z (rne y) + 1) as K by lra.
  rewrite <- inject_succ, inject_Z_injective in K.
  rewrite K, Z.even_add, Ev' in Ev. discriminate.
Qed.

Lemma rne_nonneg (x : Q) : 0 <= x -> (0 <= rne x)%Z.
Proof. intros H. rewrite <- (rne_Z 0). apply rne_le. exact H. Qed.

(** *** The binary logarithm *)

Lemma ilog2_spec (x : Q) :
  0 < x -> 2 ^ ilog2 x <= x /\ x < 2 ^ (ilog2 x + 1).
Proof.
  intros P. destruct x as [n d]. unfold ilog2. cbn [Qnum Qden].
  assert (0 < n)%Z as Pn by (unfold Qlt in P; cbn in P; lia).
  set (ln := Z.log2 n). set (ld := Z.log2 (Z.pos d)).
  destruct (Z.log2_spec n Pn) as [Ln Un]. fold ln in Ln, Un.
  destruct (Z.log2_spec (Z.pos d) ltac:(lia)) as [Ld Ud]. fold ld in Ld, Ud.
  assert (0 <= ln)%Z as Nn by apply Z.log2_nonneg.
  assert (0 <= ld)%Z as Nd by apply Z.log2_nonneg.
  rewrite Zle_Qle, <- two_inject in Ln by lia.
  rewrite Zlt_Qlt, <- two_inject in Un by lia.
  rewrite Zle_Qle, <- two_inject in Ld by lia.
  rewrite Zlt_Qlt, <- two_inject in Ud by lia.
  assert ((n # d) * inject_Z (Z.pos d) == inject_Z n) as X.
  { rewrite (Qmake_Qdiv n d). field. discriminate. }
  set (x := n # d) in *. set (qd := inject_Z (Z.pos d)) in *.
  set (qn := inject_Z n) in *.
  pose proof (two_pos ld) as Pld. pose proof (two_pos (Z.succ ld)) as Psd.
  (* x < 2^(ln - ld + 1) *)
  assert (x < 2 ^ (ln - ld + 1)) as Up.
  { apply (Qmult_lt_r _ _ (2 ^ ld) Pld). rewrite <- two_add.
    replace (ln - ld + 1 + ld)%Z with (Z.succ ln) by lia.
    apply Qle_lt_trans with (x * qd); [| lra].
    rewrite !(Qmult_comm x). apply Qmult_le_compat_r; lra. }
  assert (2 ^ (ln - ld - 1) < x) as Lo.
  { apply (Qmult_lt_r _ _ (2 ^ Z.succ ld) Psd). rewrite <- two_add.
    replace (ln - ld - 1 + Z.succ ld)%Z with ln by lia.
    apply Qle_lt_trans with (x * qd); [lra |].
    rewrite !(Qmult_comm x). apply Qmult_lt_compat_r; lra. }
  destruct (Qle_bool (2 ^ (ln - ld)) x) eqn:T.
  - apply Qle_bool_iff in T. split; [exact T | exact Up].
  - split; [lra |].
    replace (ln - ld - 1 + 1)%Z with (ln - ld)%Z by lia.
    apply Qnot_le_lt. intros C. apply Qle_bool_iff in C. congruence.
Qed.

Lemma ilog2_unique (x : Q) (k : Z) :
  2 ^ k <= x -> x < 2 ^ (k + 1) -> ilog2 x = k.
Proof.
  intros L U. pose proof (two_pos k) as P.
  destruct (ilog2_spec x ltac:(lra)) as [L' U'].
  assert (k < ilog2 x + 1)%Z by (apply two_lt_inv; lra).
  assert (ilog2 x < k + 1)%Z by (apply two_lt_inv; lra).
  lia.
Qed.

Lemma ilog2_le (x y : Q) : 0 < x -> x <= y -> (ilog2 x <= ilog2 y)%Z.
Proof.
  intros P L.
  destruct (ilog2_spec x P) as [Lx Ux], (ilog2_spec y ltac:(lra)) as [Ly Uy].
  assert (ilog2 x < ilog2 y + 1)%Z by (apply two_lt_inv; lra).
  lia.
Qed.

Lemma ilog2_comp (x y : Q) : 0 < x -> x == y -> ilog2 x = ilog2 y.
Proof.
  intros P E. destruct (ilog2_spec y ltac:(lra)) as [L U].
  apply ilog2_unique; lra.
Qed.

Lemma ilog2_below (x : Q) (k : Z) : 0 < x -> x < 2 ^ (k + 1) -> (ilog2 x <= k)%Z.
Proof.
  intros P U. destruct (ilog2_spec x P) as [L _].
  assert (ilog2 x < k + 1)%Z by (apply two_lt_inv; lra). lia.
Qed.

(** *** Rounding to a double *)

Lemma Qabs_pos_lt (x : Q) : ~ x == 0 -> 0 < Qabs x.
Proof.
  intros N. apply Qabs_case; intros H.
  - destruct (Qlt_le_dec 0 x) as [G | G]; [exact G | exfalso; apply N; lra].
  - destruct (Qlt_le_dec x 0) as [G | G]; [lra | exfalso; apply N; lra].
Qed.

Lemma exponent_comp (x y : Q) : ~ x == 0 -> x == y -> exponent x = exponent y.
Proof.
  intros N E. unfold exponent.
  rewrite (ilog2_comp (Qabs x) (Qabs y)); [reflexivity | |].
  - apply Qabs_pos_lt, N.
  - rewrite E. reflexivity.
Qed.

Lemma exponent_opp (x : Q) : ~ x == 0 -> exponent (- x) = exponent x.
Proof.
  intros N. unfold exponent.
  rewrite (ilog2_comp (Qabs (- x)) (Qabs x)); [reflexivity | |].
  - apply Qabs_pos_lt. intros C. apply N. lra.
  - apply Qabs_opp.
Qed.

Lemma exponent_min (x : Q) : (-1074 <= exponent x)%Z.
Proof. unfold exponent. lia. Qed.

Lemma exponent_le (x y : Q) : 0 < x -> x <= y -> (exponent x <= exponent y)%Z.
Proof.
  intros P L. unfold exponent.
  assert (ilog2 (Qabs x) <= ilog2 (Qabs y))%Z.
  { rewrite (ilog2_comp (Qabs x) x), (ilog2_comp (Qabs y) y).
    - apply ilog2_le; assumption.
    - rewrite Qabs_pos; lra.
    - apply Qabs_pos. lra.
    - rewrite Qabs_pos; lra.
    - apply Qabs_pos. lra. }
  lia.
Qed.

(** A positive [x] is below [2 ^ (exponent x + 53)], and not below
    [2 ^ (exponent x + 52)] unless it is subnormal. *)
Lemma exponent_upper (x : Q) : 0 < x -> x < 2 ^ (exponent x + 53).
Proof.
  intros P. destruct (ilog2_spec x P) as [_ U].
  apply Qlt_le_trans with (1 := U). apply two_le.
  unfold exponent. rewrite (ilog2_comp (Qabs x) x).
  - lia.
  - rewrite Qabs_pos; lra.
  - apply Qabs_pos. lra.
Qed.

Lemma exponent_lower (x : Q) :
  0 < x -> (-1074 < exponent x)%Z -> 2 ^ (exponent x + 52) <= x.
Proof.
  intros P N. destruct (ilog2_spec x P) as [L _].
  apply Qle_trans with (2 := L). apply two_le.
  revert N. unfold exponent. rewrite (ilog2_comp (Qabs x) x).
  - lia.
  - rewrite Qabs_pos; lra.
  - apply Qabs_pos. lra.
Qed.

Lemma exponent_below (x : Q) (k : Z) :
  0 < x -> x < 2 ^ (k + 1) -> (-1074 <= k - 52)%Z -> (exponent x <= k - 52)%Z.
Proof.
  intros P U N. unfold exponent.
  rewrite (ilog2_comp (Qabs x) x).
  - pose proof (ilog2_below x k P U). lia.
  - rewrite Qabs_pos; lra.
  - apply Qabs_pos. lra.
Qed.

Lemma round_round_at (x : Q) : round x = round_at (exponent x) x.
Proof. reflexivity. Qed.

Lemma round_at_comp (e : Z) (x y : Q) : x == y -> round_at e x == round_at e y.
Proof.
  intros E. unfold round_at. rewrite (rne_comp (x / 2 ^ e) (y / 2 ^ e)).
  - reflexivity.
  - rewrite E. reflexivity.
Qed.

Lemma round_at_le (e : Z) (x y : Q) : x <= y -> round_at e x <= round_at e y.
Proof.
  intros L. unfold round_at. pose proof (two_pos e) as P.
  apply Qmult_le_compat_r; [| lra].
  rewrite <- Zle_Qle. apply rne_le.
  unfold Qdiv. apply Qmult_le_compat_r; [exact L |].
  apply Qlt_le_weak, Qinv_lt_0_compat, P.
Qed.

Lemma round_at_grid (e : Z) (m : Z) :
  round_at e (inject_Z m * 2 ^ e) == inject_Z m * 2 ^ e.
Proof.
  unfold round_at.
  rewrite (rne_comp (inject_Z m * 2 ^ e / 2 ^ e) (inject_Z m)).
  - rewrite rne_Z. reflexivity.
  - apply two_cancel'.
Qed.

Lemma round_at_two (e a : Z) : (e <= a)%Z -> round_at e (2 ^ a) == 2 ^ a.
Proof.
  intros L.
  assert (2 ^ a == inject_Z (2 ^ (a - e)) * 2 ^ e) as E.
  { rewrite <- two_inject by lia. rewrite <- two_add.
    replace (a - e + e)%Z with a by lia. reflexivity. }
  rewrite (round_at_comp e _ _ E), round_at_grid. symmetry. exact E.
Qed.

Lemma round_at_opp (e : Z) (x : Q) : round_at e (- x) == - round_at e x.
Proof.
  unfold round_at.
  rewrite (rne_comp (- x / 2 ^ e) (- (x / 2 ^ e))).
  - rewrite rne_opp, inject_Z_opp. ring.
  - pose proof (two_pos e). field. lra.
Qed.

Lemma round_at_error (e : Z) (x : Q) :
  x - 2 ^ e * (1 # 2) <= round_at e x /\ round_at e x <= x + 2 ^ e * (1 # 2).
Proof.
  unfold round_at. pose proof (two_pos e) as P.
  destruct (rne_error (x / 2 ^ e)) as [A B].
  pose proof (two_cancel x e) as C.
  set (t := x / 2 ^ e) in *. set (m := inject_Z (rne t)) in *.
  split.
  - assert ((t - (1 # 2)) * 2 ^ e <= m * 2 ^ e) as G
      by (apply Qmult_le_compat_r; lra).
    lra.
  - assert (m * 2 ^ e <= (t + (1 # 2)) * 2 ^ e) as G
      by (apply Qmult_le_compat_r; lra).
    lra.
Qed.

Lemma round_zero (x : Q) : x == 0 -> round x == 0.
Proof.
  intros E. unfold round. generalize (exponent x). intros e.
  rewrite (rne_comp (x / 2 ^ e) (inject_Z 0)).
  - rewrite rne_Z. ring.
  - rewrite E. unfold Qdiv. ring.
Qed.

Lemma round_comp (x y : Q) : x == y -> round x == round y.
Proof.
  intros E. destruct (Qeq_dec x 0) as [Z | N].
  - rewrite (round_zero x Z), (round_zero y); [reflexivity | lra].
  - rewrite !round_round_at, (exponent_comp x y N E).
    apply round_at_comp, E.
Qed.

#[global] Instance round_Proper : Proper (Qeq ==> Qeq) round.
Proof. intros x y E. apply round_comp, E. Qed.

Lemma round_opp (x : Q) : round (- x) == - round x.
Proof.
  destruct (Qeq_dec x 0) as [Z | N].
  - rewrite (round_zero x Z), (round_zero (- x)); lra.
  - rewrite !round_round_at, (exponent_opp x N). apply round_at_opp.
Qed.

Lemma round_nonneg (x : Q) : 0 <= x -> 0 <= round x.
Proof.
  intros P. unfold round. pose proof (two_pos (exponent x)) as T.
  apply Qmult_le_0_compat; [| lra].
  change 0 with (inject_Z 0). rewrite <- Zle_Qle. apply rne_nonneg.
  apply Qle_shift_div_l; lra.
Qed.

Lemma round_nonpos (x : Q) : x <= 0 -> round x <= 0.
Proof.
  intros P. pose proof (round_nonneg (- x) ltac:(lra)) as H.
  rewrite round_opp in H. lra.
Qed.

Lemma round_le_pos (x y : Q) : 0 < x -> x <= y -> round x <= round y.
Proof.
  intros P L. rewrite !round_round_at.
  pose proof (exponent_le x y P L) as E.
  destruct (Z.eq_dec (exponent x) (exponent y)) as [Eq | Ne].
  - rewrite Eq. apply round_at_le, L.
  - assert (exponent x < exponent y)%Z as Lt by lia.
    pose proof (exponent_min x) as Mx.
    pose proof (exponent_upper x P) as Ux.
    pose proof (exponent_lower y ltac:(lra) ltac:(lia)) as Ly.
    assert (2 ^ (exponent x + 53) <= 2 ^ (exponent y + 52)) as B
      by (apply two_le; lia).
    apply Qle_trans with (2 ^ (exponent y + 52)).
    + rewrite <- (round_at_two (exponent x) (exponent y + 52)) by lia.
      apply round_at_le. lra.
    + rewrite <- (round_at_two (exponent y) (exponent y + 52)) at 1 by lia.
      apply round_at_le, Ly.
Qed.

(** Rounding is monotone. *)
Lemma round_le (x y : Q) : x <= y -> round x <= round y.
Proof.
  intros L. destruct (Qlt_le_dec 0 x) as [P | N].
  - apply round_le_pos; assumption.
  - destruct (Qlt_le_dec y 0) as [Ny | Py].
    + pose proof (round_le_pos (- y) (- x) ltac:(lra) ltac:(lra)) as H.
      rewrite !round_opp in H. lra.
    + apply Qle_trans with 0; [apply round_nonpos, N | apply round_nonneg, Py].
Qed.

Lemma round_error (x : Q) :
  x - 2 ^ exponent x * (1 # 2) <= round x /\
  round x <= x + 2 ^ exponent x * (1 # 2).
Proof. rewrite round_round_at. apply round_at_error. Qed.

(** A multiple of a power of two that is not below the exponent of the
    number is a double. *)
Lemma round_grid (v : Q) (m e : Z) :
  v == inject_Z m * 2 ^ e -> (exponent v <= e)%Z -> round v == v.
Proof.
  intros E L. rewrite round_round_at.
  assert (v == inject_Z (m * 2 ^ (e - exponent v)) * 2 ^ exponent v) as G.
  { rewrite inject_Z_mult, <- two_inject by lia.
    rewrite <- Qmult_assoc, <- two_add.
    replace (e - exponent v + exponent v)%Z with e by lia. exact E. }
  rewrite (round_at_comp _ _ _ G), round_at_grid. symmetry. exact G.
Qed.

Lemma round_idem_pos (x : Q) : 0 < x -> round (round x) == round x.
Proof.
  intros P. set (e := exponent x).
  pose proof (exponent_min x) as Me. fold e in Me.
  pose proof (exponent_upper x P) as U. fold e in U.
  pose proof (two_pos e) as Pe.
  set (m := rne (x / 2 ^ e)).
  assert (round x = inject_Z m * 2 ^ e) as R by reflexivity.
  assert (0 <= m <= 2 ^ 53)%Z as [M0 M1].
  { split.
    - apply rne_nonneg. apply Qle_shift_div_l; lra.
    - apply Z.le_trans with (rne (inject_Z (2 ^ 53)));
        [| rewrite rne_Z; lia].
      apply rne_le. rewrite <- two_inject by lia.
      apply Qle_shift_div_r; [exact Pe |].
      rewrite <- two_add. replace (53 + e)%Z with (e + 53)%Z by lia. lra. }
  rewrite R.
  destruct (Z.eq_dec m 0%Z) as [Z0 | N0].
  { rewrite Z0. rewrite (round_zero (inject_Z 0 * 2 ^ e)); ring. }
  assert (0 < inject_Z m * 2 ^ e) as Pv.
  { apply Qmult_lt_0_compat; [| exact Pe].
    change 0 with (inject_Z 0). rewrite <- Zlt_Qlt. lia. }
  destruct (Z.eq_dec m (2 ^ 53)%Z) as [Top | Low].
  - apply (round_grid _ (2 ^ 52)%Z (e + 1)%Z).
    + rewrite Top, <- !two_inject, <- !two_add by lia.
      replace (53 + e)%Z with (52 + (e + 1))%Z by lia. reflexivity.
    + replace (e + 1)%Z with (e + 53 - 52)%Z by lia.
      apply exponent_below; [exact Pv | | lia].
      rewrite Top, <- two_inject, <- two_add by lia.
      apply two_lt. lia.
  - apply (round_grid _ m e); [reflexivity |].
    replace e with (e + 52 - 52)%Z at 2 by lia.
    apply exponent_below; [exact Pv | | lia].
    replace (e + 52 + 1)%Z with (53 + e)%Z by lia.
    rewrite two_add. apply Qmult_lt_compat_r; [exact Pe |].
    rewrite two_inject, <- Zlt_Qlt by lia. lia.
Qed.

(** The result of rounding is a double: rounding it again changes
    nothing. *)
Lemma round_idem (x : Q) : round (round x) == round x.
Proof.
  destruct (Qlt_le_dec 0 x) as [P | N].
  - apply round_idem_pos, P.
  - destruct (Qeq_dec x 0) as [Z | NZ].
    + rewrite (round_zero x Z). apply round_zero. reflexivity.
    + pose proof (round_idem_pos (- x) ltac:(lra)) as H.
      rewrite !round_opp in H. lra.
Qed.

End DoubleFacts.

(** ** One star *)

(** What [reset] does with the oracle: five draws, in source order. *)
Lemma reset_run (w : Q) (g : Rand) :
  Star.reset w g =
  ({| Star.x := g 0%nat * w; Star.y := -10; Star.z := g 1%nat * 2 + 0.5;
      Star.size := g 2%nat * 1.5; Star.opacity := g 3%nat * 0.5 + 0.1;
      Star.twinkleSpeed := g 4%nat * 0.05; Star.twinkleDir := 1 |},
   fun n => g (S (S (S (S (S n)))))).
Proof. reflexivity. Qed.

(** What the constructor does with the oracle: a sixth draw for [y]. *)
Lemma constructor_run (w h : Q) (g : Rand) :
  Star.constructor w h g =
  ({| Star.x := g 0%nat * w; Star.y := g 5%nat * h;
      Star.z := g 1%nat * 2 + 0.5;
      Star.size := g 2%nat * 1.5; Star.opacity := g 3%nat * 0.5 + 0.1;
      Star.twinkleSpeed := g 4%nat * 0.05; Star.twinkleDir := 1 |},
   fun n => g (S (S (S (S (S (S n))))))).
Proof. reflexivity. Qed.

Lemma unit_draws_tail (g : Rand) (k : nat) :
  unit_draws g -> unit_draws (fun n => g (k + n)%nat).
Proof. intros H n. apply H. Qed.

(** The two ways [update] can go. *)
Lemma update_recycle (w h : Q) (s : Star.t) (g : Rand) :
  h < Star.y s + Star.z s * 0.2 ->
  Star.update w h s g = Star.reset w g.
Proof.
  intros H. unfold Star.update.
  replace (Star.y (Star.twinkle (Star.drift s)))
    with (Star.y s + Star.z s * 0.2) by reflexivity.
  now rewrite (proj2 (Qltb_lt _ _) H).
Qed.




(** ** The pool *)

Import Starfield.

Lemma push_stars_app (n : nat) (w h : Q) (pool : list Star.t) (g : Rand) :
  fst (push_stars n w h pool g) = pool ++ fst (push_stars n w h [] g).
Proof.
  revert pool g. induction n as [| n IH]; intros pool g.
  - cbn. now rewrite app_nil_r.
  - cbn [push_stars]. unfold bind. rewrite constructor_run.
    rewrite (IH (pool ++ _)), (IH ([] ++ _)). now rewrite <- app_assoc.
Qed.

Lemma push_stars_length (n : nat) (w h : Q) (pool : list Star.t) (g : Rand) :
  length (fst (push_stars n w h pool g)) = (length pool + n)%nat.
Proof.
  revert pool g. induction n as [| n IH]; intros pool g.
  - cbn. lia.
  - cbn [push_stars]. unfold bind. rewrite constructor_run.
    rewrite IH, length_app. cbn. lia.
Qed.

Lemma forEach_length (cb : Star.t -> nat -> Rng (Star.t * list CanvasOp))
    (k : nat) (pool : list Star.t) (g : Rand) :
  length (fst (fst (forEach cb k pool g))) = length pool.
Proof.
  revert k g. induction pool as [| s pool IH]; intros k g; [reflexivity |].
  cbn [forEach]. unfold bind. destruct (cb s k g) as [r g1].
  specialize (IH (S k) g1). destruct (forEach cb (S k) pool g1) as [rs g2].
  cbn in *. now rewrite IH.
Qed.

(** The commands that [forEach] issues: one circle for each updated
    object whose index passes the test, in pool order. *)
Lemma forEach_ops (w h : Q) (p : Number) (pool : list Star.t)
    (k : nat) (g : Rand) :
  snd (fst (forEach (each_star w h p) k pool g)) =
  map (fun e => draw_star (snd e) p)
      (List.filter (fun e => visible p (fst e))
         (indexed_from k (fst (fst (forEach (each_star w h p) k pool g))))).
Proof.
  revert k g. induction pool as [| s0 pool IH]; intros k g; [reflexivity |].
  cbn [forEach]. unfold bind, each_star at 1 3. unfold bind.
  destruct (Star.update w h s0 g) as [s0' g1]. unfold ret at 1 3.
  specialize (IH (S k) g1).
  destruct (forEach _ (S k) pool g1) as [rs g2].
  cbn [fst snd ret indexed_from List.filter] in *.
  destruct (visible p k); cbn [app map]; now rewrite IH.
Qed.

Lemma animate_length (win : Window) (f : Field) (g : Rand) :
  length (stars (fst (fst (animate win f g)))) = length (stars f).
Proof.
  unfold animate, bind.
  pose proof (forEach_length
    (each_star (width f) (height f) (scrollProgress win)) 0 (stars f) g) as L.
  destruct (forEach _ 0 (stars f) g) as [r g1]. exact L.
Qed.

Lemma frames_length (wins : list Window) (f : Field) (g : Rand) :
  length (stars (fst (fst (frames wins f g)))) = length (stars f).
Proof.
  revert f g. induction wins as [| win wins IH]; intros f g; [reflexivity |].
  cbn [frames]. unfold bind.
  pose proof (animate_length win f g) as L.
  destruct (animate win f g) as [r g1].
  specialize (IH (fst r) g1). destruct (frames wins (fst r) g1) as [rs g2].
  cbn in *. congruence.
Qed.

Lemma resize_length (win : Window) (f : Field) (g : Rand) :
  length (stars (fst (resize win f g))) = baseStarCount.
Proof.
  unfold resize, initStars, bind. cbn [width height].
  pose proof (push_stars_length baseStarCount (innerWidth win)
                (innerHeight win) [] g) as L.
  destruct (push_stars _ _ _ [] g) as [pool g1]. exact L.
Qed.

(** C5. Frames never change the length of the pool, whatever its length
    and however many frames are run, and a resize replaces the pool,
    whatever it held, by one of exactly 400 stars. *)
Theorem C5_pool_length (wins : list Window) (win : Window) (f : Field)
    (g : Rand) :
  length (stars (fst (fst (frames wins f g)))) = length (stars f) /\
  length (stars (fst (resize win f g))) = 400%nat.
Proof.
  split; [apply frames_length | apply resize_length].
Qed.

(** ** Visibility *)

Lemma Qltb_equiv (a c c' : Q) : c == c' -> Qltb a c = Qltb a c'.
Proof. intros E. unfold Qltb. now rewrite E. Qed.

Lemma Qltb_inject (k m : nat) :
  Qltb (inject_Z (Z.of_nat k)) (inject_Z (Z.of_nat m)) = (k <? m)%nat.
Proof.
  destruct (Nat.ltb_spec k m) as [L | L].
  - apply Qltb_lt. rewrite <- Zlt_Qlt. lia.
  - apply Qltb_ge. rewrite <- Zle_Qle. lia.
Qed.

Lemma below_equiv (c c' : Q) (pool : list Star.t) :
  c == c' -> below c pool = below c' pool.
Proof.
  intros E. unfold below. f_equal. apply List.filter_ext.
  intros e. now apply Qltb_equiv.
Qed.

Lemma below_from (k m : nat) (pool : list Star.t) :
  map snd
    (List.filter (fun e => Qltb (inject_Z (Z.of_nat (fst e)))
                                (inject_Z (Z.of_nat m)))
       (indexed_from k pool)) = take (m - k) pool.
Proof.
  revert k. induction pool as [| s pool IH]; intros k.
  - now rewrite take_nil.
  - cbn [indexed_from List.filter fst]. rewrite Qltb_inject.
    destruct (Nat.ltb_spec k m) as [L | L].
    + cbn [map snd]. rewrite IH.
      replace (m - k)%nat with (S (m - S k)) by lia. reflexivity.
    + rewrite IH. replace (m - S k)%nat with 0%nat by lia.
      replace (m - k)%nat with 0%nat by lia. reflexivity.
Qed.

(** Below a whole cutoff [m] are the first [m] elements. *)
Lemma below_take (m : nat) (pool : list Star.t) :
  below (inject_Z (Z.of_nat m)) pool = take m pool.
Proof. unfold below. rewrite below_from. now rewrite Nat.sub_0_r. Qed.

(** C7. For every count [N], the threshold [N * (0.1 + p^2 * 0.9)] does
    not decrease when the scroll progress grows within [0, 1]. *)
Theorem C7_threshold_monotone (N : nat) (p1 p2 : Q) :
  0 <= p1 -> p1 <= p2 -> p2 <= 1 ->
  num_le (visibleThreshold N (Fin p1)) (visibleThreshold N (Fin p2)).
Proof.
  intros H0 H12 H1.
  unfold visibleThreshold, Math_pow, mul, add, of_nat, num_le.
  assert (HN : 0 <= inject_Z (Z.of_nat N)).
  { change 0 with (inject_Z 0). rewrite <- Zle_Qle. lia. }
  set (n := inject_Z (Z.of_nat N)) in *.
  assert (Hsq : p1 * (p1 * 1) <= p2 * (p2 * 1)).
  { rewrite !Qmult_1_r. apply Qmult_le_compat_nonneg; split; lra. }
  rewrite !(Qmult_comm n). apply Qmult_le_compat_r; [lra | exact HN].
Qed.

Lemma C7_threshold_monotone_witness :
  0 <= 0.25 /\ 0.25 <= 0.5 /\ 0.5 <= 1 /\
  num_le (visibleThreshold 400 (Fin 0.25)) (visibleThreshold 400 (Fin 0.5)).
Proof.
  assert (H0 : 0 <= 0.25) by lra.
  assert (H1 : 0.25 <= 0.5) by lra.
  assert (H2 : 0.5 <= 1) by lra.
  split; [exact H0 |]. split; [exact H1 |]. split; [exact H2 |].
  exact (C7_threshold_monotone 400 0.25 0.5 H0 H1 H2).
Defined.

(** ** Scroll progress *)

(** On a page that scrolls, with a scroll offset that is not negative, the
    progress is the quotient clamped to [0, 1]. *)
Lemma scrollProgress_scrollable (win : Window) :
  0 <= scrollY win ->
  innerHeight win < scrollHeight win ->
  exists p : Q,
    scrollProgress win = Fin p /\
    p == clamp (scrollY win / (scrollHeight win - innerHeight win)) 0 1 /\
    0 <= p <= 1.
Proof.
  intros Hy Hh. unfold scrollProgress, div.
  set (m := scrollHeight win - innerHeight win).
  assert (Hm : 0 < m) by (subst m; lra).
  assert (Hq : 0 <= scrollY win / m).
  { apply Qle_shift_div_l; [exact Hm | lra]. }
  destruct (Qeq_bool m 0) eqn:E.
  { apply Qeq_bool_iff in E. lra. }
  unfold Math_min, lt, clamp.
  rewrite (proj2 (Qltb_ge (scrollY win / m) 0) Hq).
  destruct (Qltb_cases 1 (scrollY win / m)) as [[-> A] | [-> A]].
  - exists 1. repeat split; try reflexivity; lra.
  - exists (scrollY win / m). repeat split; try reflexivity; lra.
Qed.

(** C2. On a page exactly as tall as the viewport, at the top, the
    progress that [animate] computes is [Math.min(0 / 0, 1)], which is
    NaN: it is not a number of [0, 1], and with it no index passes the
    visibility test, so no star is drawn.  The claim, and the comment on
    the line, promise a value from 0 to 1. *)
Theorem C2_progress_on_fitting_page :
  let win := {| innerWidth := 800; innerHeight := 600; scrollY := 0;
                scrollHeight := 600 |} in
  scrollProgress win = NaN /\
  ~ within 0 1 (scrollProgress win) /\
  forall index : nat, visible (scrollProgress win) index = false.
Proof.
  intros win. assert (E : scrollProgress win = NaN) by reflexivity.
  rewrite E. split; [reflexivity |]. split; [intros [] |].
  intros index. reflexivity.
Qed.

(** A second input of the same kind: a body shorter than the viewport
    under a positive scroll offset gives a negative progress, since
    [Math.min] bounds the quotient from above only. *)
Example scrollProgress_negative :
  let win := {| innerWidth := 800; innerHeight := 600; scrollY := 100;
                scrollHeight := 550 |} in
  exists p : Q, scrollProgress win = Fin p /\ p == -2 /\
                ~ within 0 1 (scrollProgress win).
Proof.
  intros win. exists (100 / (550 - 600)).
  assert (E : scrollProgress win = Fin (100 / (550 - 600)))
    by (vm_compute; reflexivity).
  rewrite E. split; [reflexivity |]. split; [reflexivity |].
  cbn [within]. intros [H _]. vm_compute in H. now apply H.
Qed.

(** The same inputs over doubles.  At the top of a page that scrolls the
    threshold is the double 40 and the indices that pass the test are
    those below 40; at the bottom it is 400 and all 400 indices pass; an
    opacity of 0.75 is drawn as 0.375 at the top and as 0.75 at the
    bottom.  On a
    page as tall as the viewport the progress is NaN and no index passes;
    under a body shorter than the viewport the quotient is not bounded
    from below. *)
Example binary64_scenarios :
  Binary64.scrollProgress 0 3000 600 = 0%float /\
  Binary64.visibleThreshold 400 0 = 40%float /\
  forallb (fun i => Bool.eqb (Binary64.visible 0 i) (i <? 40)%nat)
          (seq 0 400) = true /\
  Binary64.scrollProgress 2400 3000 600 = 1%float /\
  Binary64.visibleThreshold 400 1 = 400%float /\
  forallb (Binary64.visible 1) (seq 0 400) = true /\
  Binary64.visibleThreshold 400 0.5 = 130%float /\
  Binary64.brightness 0.75 0 = 0.375%float /\
  Binary64.brightness 0.75 1 = 0.75%float /\
  Binary64.scrollProgress 0 600 600 = nan /\
  forallb (fun i => negb (Binary64.visible nan i)) (seq 0 400) = true /\
  Binary64.scrollProgress 100 550 600 = (-2)%float.
Proof. vm_compute. repeat split. Qed.

(** ** The starfield over doubles *)

Module Rounded.

Import Double DoubleFacts Spec64.
Local Open Scope Q_scope.

(** Closed comparisons of rationals, by evaluation. *)
Ltac qle := apply Qle_bool_imp_le; vm_compute; reflexivity.
Ltac qlt := apply Qltb_lt; vm_compute; reflexivity.
Ltac qeq := apply Qeq_bool_eq; vm_compute; reflexivity.

#[global] Instance add_Proper : Proper (Qeq ==> Qeq ==> Qeq) add.
Proof. intros a a' Ea b b' Eb. unfold add. now rewrite Ea, Eb. Qed.

#[global] Instance sub_Proper : Proper (Qeq ==> Qeq ==> Qeq) sub.
Proof. intros a a' Ea b b' Eb. unfold sub. now rewrite Ea, Eb. Qed.

#[global] Instance mul_Proper : Proper (Qeq ==> Qeq ==> Qeq) mul.
Proof. intros a a' Ea b b' Eb. unfold mul. now rewrite Ea, Eb. Qed.

Lemma lit_double (q : Q) : double (lit q).
Proof. apply round_idem. Qed.

Lemma add_double (a b : Q) : double (add a b).
Proof. apply round_idem. Qed.

Lemma mul_double (a b : Q) : double (mul a b).
Proof. apply round_idem. Qed.

Lemma add_le (a a' b b' : Q) : a <= a' -> b <= b' -> add a b <= add a' b'.
Proof. intros A B. apply round_le. lra. Qed.

Lemma sub_le (a a' b b' : Q) : a <= a' -> b' <= b -> sub a b <= sub a' b'.
Proof. intros A B. apply round_le. lra. Qed.

Lemma mul_le (a a' b b' : Q) :
  0 <= a -> a <= a' -> 0 <= b -> b <= b' -> mul a b <= mul a' b'.
Proof.
  intros A0 A B0 B. apply round_le.
  apply Qmult_le_compat_nonneg; split; assumption.
Qed.

Lemma mul_nonneg (a b : Q) : 0 <= a -> 0 <= b -> 0 <= mul a b.
Proof. intros A B. apply round_nonneg. now apply Qmult_le_0_compat. Qed.

(** Rounding does not cross a double. *)
Lemma round_ge (lo x : Q) : double lo -> lo <= x -> lo <= round x.
Proof. intros D L. unfold double in D. rewrite <- D. apply round_le, L. Qed.

Lemma round_le_hi (hi x : Q) : double hi -> x <= hi -> round x <= hi.
Proof. intros D L. unfold double in D. rewrite <- D. apply round_le, L. Qed.

Lemma exponent_unique (x : Q) (k : Z) :
  2 ^ k <= x -> x < 2 ^ (k + 1) -> (-1074 <= k - 52)%Z ->
  exponent x = (k - 52)%Z.
Proof.
  intros L U N. pose proof (two_pos k) as P. unfold exponent.
  rewrite (ilog2_comp (Qabs x) x).
  - rewrite (ilog2_unique x k L U). lia.
  - rewrite Qabs_pos; lra.
  - apply Qabs_pos. lra.
Qed.

(** The largest double below 1 is [1 - 2^-53]. *)
Lemma unit_draw_max (r : Q) : double r -> r < 1 -> r <= 1 - 2 ^ (-53).
Proof.
  intros D U. destruct (Qlt_le_dec r (1 # 2)) as [S | B].
  { apply Qle_trans with (1 # 2); [lra | qle]. }
  assert (exponent r = (-53)%Z) as E.
  { apply (exponent_unique r (-1)); [exact B | exact U | lia]. }
  unfold double, round in D. rewrite E in D.
  set (m := rne (r / 2 ^ (-53))) in D.
  assert (m < 2 ^ 53)%Z as M.
  { rewrite Zlt_Qlt.
    apply Qmult_lt_r with (z := 2 ^ (-53)); [apply two_pos |].
    rewrite D. apply Qlt_le_trans with (1 := U). qle. }
  rewrite <- D.
  apply Qle_trans with (inject_Z (2 ^ 53 - 1) * 2 ^ (-53)); [| qle].
  apply Qmult_le_compat_r; [| apply Qlt_le_weak, two_pos].
  rewrite <- Zle_Qle. lia.
Qed.

(** *** One star *)

Lemma reset_run64 (w : Q) (g : JS.Rand) :
  Star64.reset w g =
  ({| Star.x := mul (g 0%nat) w; Star.y := -10;
      Star.z := add (mul (g 1%nat) 2) 0.5;
      Star.size := mul (g 2%nat) 1.5;
      Star.opacity := add (mul (g 3%nat) 0.5) (lit 0.1);
      Star.twinkleSpeed := mul (g 4%nat) (lit 0.05);
      Star.twinkleDir := 1 |},
   fun n => g (S (S (S (S (S n)))))).
Proof. reflexivity. Qed.

Lemma constructor_run64 (w h : Q) (g : JS.Rand) :
  Star64.constructor w h g =
  ({| Star.x := mul (g 0%nat) w; Star.y := mul (g 5%nat) h;
      Star.z := add (mul (g 1%nat) 2) 0.5;
      Star.size := mul (g 2%nat) 1.5;
      Star.opacity := add (mul (g 3%nat) 0.5) (lit 0.1);
      Star.twinkleSpeed := mul (g 4%nat) (lit 0.05);
      Star.twinkleDir := 1 |},
   fun n => g (S (S (S (S (S (S n))))))).
Proof. reflexivity. Qed.

Lemma draws_tail (g : JS.Rand) (k : nat) :
  double_draws g -> double_draws (fun n => g (k + n)%nat).
Proof. intros H n. apply H. Qed.

Lemma reset_draws64 (w : Q) (g : JS.Rand) :
  double_draws g -> double_draws (snd (Star64.reset w g)).
Proof. intros H. rewrite reset_run64. exact (draws_tail g 5 H). Qed.

Lemma constructor_draws64 (w h : Q) (g : JS.Rand) :
  double_draws g -> double_draws (snd (Star64.constructor w h g)).
Proof. intros H. rewrite constructor_run64. exact (draws_tail g 6 H). Qed.

(** The two ways [update] can go, by the test of the code on the rounded
    sum. *)
Lemma update_recycle64 (w h : Q) (s : Star.t) (g : JS.Rand) :
  h < add (Star.y s) (mul (Star.z s) (lit 0.2)) ->
  Star64.update w h s g = Star64.reset w g.
Proof.
  intros H. unfold Star64.update.
  replace (Star.y (Star64.twinkle (Star64.drift s)))
    with (add (Star.y s) (mul (Star.z s) (lit 0.2))) by reflexivity.
  now rewrite (proj2 (Qltb_lt _ _) H).
Qed.

Lemma update_keep64 (w h : Q) (s : Star.t) (g : JS.Rand) :
  add (Star.y s) (mul (Star.z s) (lit 0.2)) <= h ->
  Star64.update w h s g = (Star64.twinkle (Star64.drift s), g).
Proof.
  intros H. unfold Star64.update.
  replace (Star.y (Star64.twinkle (Star64.drift s)))
    with (add (Star.y s) (mul (Star.z s) (lit 0.2))) by reflexivity.
  now rewrite (proj2 (Qltb_ge _ _) H).
Qed.

Lemma update_draws64 (w h : Q) (s : Star.t) (g : JS.Rand) :
  double_draws g -> double_draws (snd (Star64.update w h s g)).
Proof.
  intros H.
  destruct (Qlt_le_dec h (add (Star.y s) (mul (Star.z s) (lit 0.2))))
    as [L | L].
  - rewrite update_recycle64 by exact L. now apply reset_draws64.
  - rewrite update_keep64 by exact L. exact H.
Qed.

Lemma twinkle_inv_bounds64 (s : Star.t) :
  twinkle_inv s ->
  sub (lit 0.1) (Star.twinkleSpeed s) <= Star.opacity s /\
  Star.opacity s <= add (lit 0.8) (Star.twinkleSpeed s).
Proof.
  intros (D & V0 & V1 & [(_ & A & B & _) | (_ & A & B & _)]).
  - split; [exact A |]. apply Qle_trans with (1 := B).
    apply round_ge; [apply lit_double | lra].
  - split; [| exact B]. apply Qle_trans with (2 := A).
    apply round_le_hi; [apply lit_double | lra].
Qed.

Lemma reset_inv64 (w : Q) (g : JS.Rand) :
  double_draws g -> twinkle_inv (fst (Star64.reset w g)).
Proof.
  intros H. rewrite reset_run64. unfold twinkle_inv.
  cbn [fst Star.twinkleSpeed Star.twinkleDir Star.opacity].
  destruct (H 3%nat) as (_ & A0 & A1), (H 4%nat) as (_ & B0 & B1).
  set (o := add (mul (g 3%nat) 0.5) (lit 0.1)).
  set (v := mul (g 4%nat) (lit 0.05)).
  assert (0 <= lit 0.05) as L5 by qle.
  assert (0 <= lit 0.1) as L1 by qle.
  assert (0 <= v) as V0 by (apply mul_nonneg; lra).
  assert (v <= lit 0.05) as V1.
  { apply round_le_hi; [apply lit_double |].
    rewrite <- (Qmult_1_l (lit 0.05)) at 2.
    apply Qmult_le_compat_r; lra. }
  assert (0 <= mul (g 3%nat) 0.5) as M0 by (apply mul_nonneg; lra).
  assert (lit 0.1 <= o) as O0
    by (apply round_ge; [apply lit_double | lra]).
  assert (o <= lit 0.8) as O1.
  { apply Qle_trans with (add (mul 1 0.5) (lit 0.1)); [| qle].
    apply add_le; [| lra]. apply mul_le; lra. }
  split; [apply mul_double |]. split; [exact V0 |]. split; [exact V1 |].
  left. split; [reflexivity |]. split; [| split; [exact O1 |]].
  - apply Qle_trans with (2 := O0).
    apply round_le_hi; [apply lit_double | lra].
  - apply round_ge; [apply lit_double | lra].
Qed.

Lemma constructor_inv64 (w h : Q) (g : JS.Rand) :
  double_draws g -> twinkle_inv (fst (Star64.constructor w h g)).
Proof. intros H. exact (reset_inv64 w g H). Qed.

(** One step up from at most 0.8, then one step down: at most 0.8. *)
Lemma bounce_top (o v : Q) :
  0 < o -> o <= lit 0.8 -> 0 <= v -> v <= lit 0.05 ->
  sub (add o v) v <= lit 0.8.
Proof.
  intros O0 O1 V0 V1. unfold sub, add.
  assert (lit 0.8 + lit 0.05 < 1) as C by qlt.
  assert (exponent (o + v) <= -53)%Z as E.
  { apply (exponent_below (o + v) (-1)); [lra | | lia].
    apply Qlt_le_trans with 1; [lra | qle]. }
  destruct (round_error (o + v)) as [_ U].
  pose proof (two_le _ _ E) as T.
  assert (2 ^ (-53) * (1 # 2) == 2 ^ (-54)) as H by qeq.
  apply Qle_trans with (round (lit 0.8 + 2 ^ (-54))); [| qle].
  apply round_le. lra.
Qed.

(** One step down from at least 0.1 to below 0.1, then one step up: at
    least 0.1. *)
Lemma bounce_bottom (o v : Q) :
  lit 0.1 <= o -> 0 <= v -> v <= lit 0.05 -> sub o v < lit 0.1 ->
  lit 0.1 <= add (sub o v) v.
Proof.
  intros O0 V0 V1 B. unfold sub, add in *.
  assert (0 < lit 0.1 - lit 0.05) as C by qlt.
  assert (o - v < 2 ^ (-3)) as S.
  { apply Qnot_le_lt. intros G. apply round_le in G.
    assert (lit 0.1 < round (2 ^ (-3))) as K by qlt. lra. }
  assert (exponent (o - v) <= -56)%Z as E.
  { apply (exponent_below (o - v) (-4)); [lra | exact S | lia]. }
  destruct (round_error (o - v)) as [L _].
  pose proof (two_le _ _ E) as T.
  assert (2 ^ (-56) * (1 # 2) == 2 ^ (-57)) as H by qeq.
  apply Qle_trans with (round (lit 0.1 - 2 ^ (-57))); [qle |].
  apply round_le. lra.
Qed.

Lemma step_up (o v d : Q) :
  double v -> d == 1 -> add o (mul v d) == add o v.
Proof.
  intros D E. unfold double in D. unfold add, mul. apply round_comp.
  rewrite E, Qmult_1_r, D. reflexivity.
Qed.

Lemma step_down (o v d : Q) :
  double v -> d == -1 -> add o (mul v d) == sub o v.
Proof.
  intros D E. unfold double in D. unfold add, sub, mul. apply round_comp.
  assert (v * d == - v) as F by (rewrite E; ring).
  rewrite F, round_opp, D. ring.
Qed.

Lemma turn_down (d : Q) : d == 1 -> mul d (-1) == -1.
Proof. intros E. rewrite E. qeq. Qed.

Lemma turn_up (d : Q) : d == -1 -> mul d (-1) == 1.
Proof. intros E. rewrite E. qeq. Qed.

Lemma twinkle_drift_inv64 (s : Star.t) :
  twinkle_inv s -> twinkle_inv (Star64.twinkle (Star64.drift s)).
Proof.
  intros (D & V0 & V1 & Hd). unfold twinkle_inv, Star64.twinkle, Star64.drift.
  cbn [Star.twinkleSpeed Star.twinkleDir Star.opacity].
  split; [exact D |]. split; [exact V0 |]. split; [exact V1 |].
  set (o := Star.opacity s) in *. set (v := Star.twinkleSpeed s) in *.
  set (d := Star.twinkleDir s) in *.
  assert (lit 0.1 <= lit 0.8) as C18 by qle.
  assert (0 < sub (lit 0.1) (lit 0.05)) as C15 by qlt.
  pose proof (lit_double 0.1) as D1. pose proof (lit_double 0.8) as D8.
  destruct Hd as [(Hd & Hlo & Hhi & Hn) | (Hd & Hlo & Hhi & Hn)].
  - pose proof (step_up o v d D Hd) as E.
    assert (0 < o) as O0.
    { apply Qlt_le_trans with (1 := C15). apply Qle_trans with (2 := Hlo).
      apply sub_le; lra. }
    destruct (Qltb_cases (lit 0.8) (add o (mul v d))) as [[-> A] | [-> A]];
      [| destruct (Qltb_cases (add o (mul v d)) (lit 0.1)) as [[-> B] | [-> B]]];
      cbn [orb]; rewrite E in *.
    + right. split; [now apply turn_down |]. split; [lra |].
      split; [apply add_le; lra | now apply bounce_top].
    + lra.
    + left. split; [exact Hd |]. split; [| split; [exact A |]].
      * apply Qle_trans with (2 := B).
        apply round_le_hi; [exact D1 | lra].
      * apply round_ge; [exact D1 | lra].
  - pose proof (step_down o v d D Hd) as E.
    destruct (Qltb_cases (lit 0.8) (add o (mul v d))) as [[-> A] | [-> A]];
      [| destruct (Qltb_cases (add o (mul v d)) (lit 0.1)) as [[-> B] | [-> B]]];
      cbn [orb]; rewrite E in *.
    + lra.
    + left. split; [now apply turn_up |]. split; [apply sub_le; lra |].
      split; [lra | now apply bounce_bottom].
    + right. split; [exact Hd |]. split; [exact B |]. split.
      * apply Qle_trans with (1 := A).
        apply round_ge; [exact D8 | lra].
      * apply round_le_hi; [exact D8 | lra].
Qed.

Lemma update_inv64 (w h : Q) (s : Star.t) (g : JS.Rand) :
  double_draws g -> twinkle_inv s ->
  twinkle_inv (fst (Star64.update w h s g)).
Proof.
  intros Hg Hs.
  destruct (Qlt_le_dec h (add (Star.y s) (mul (Star.z s) (lit 0.2))))
    as [L | L].
  - rewrite update_recycle64 by exact L. now apply reset_inv64.
  - rewrite update_keep64 by exact L. now apply twinkle_drift_inv64.
Qed.

Lemma updates_inv64 (n : nat) (w h : Q) (s : Star.t) (g : JS.Rand) :
  double_draws g -> twinkle_inv s ->
  twinkle_inv (fst (Star64.updates n w h s g)) /\
  double_draws (snd (Star64.updates n w h s g)).
Proof.
  revert s g. induction n as [| n IH]; intros s g Hg Hs; [now split |].
  cbn [Star64.updates]. unfold JS.bind.
  pose proof (update_inv64 w h s g Hg Hs) as Hs'.
  pose proof (update_draws64 w h s g Hg) as Hg'.
  destruct (Star64.update w h s g) as [s' g']. now apply IH.
Qed.

(** *** The pool *)

Lemma push_stars_app64 (n : nat) (w h : Q) (pool : list Star.t) (g : Rand) :
  fst (Starfield64.push_stars n w h pool g) =
  pool ++ fst (Starfield64.push_stars n w h [] g).
Proof.
  revert pool g. induction n as [| n IH]; intros pool g.
  - cbn. now rewrite app_nil_r.
  - cbn [Starfield64.push_stars]. unfold bind. rewrite constructor_run64.
    rewrite (IH (pool ++ _)), (IH ([] ++ _)). now rewrite <- app_assoc.
Qed.

Lemma push_stars_length64 (n : nat) (w h : Q) (pool : list Star.t)
    (g : Rand) :
  length (fst (Starfield64.push_stars n w h pool g)) = (length pool + n)%nat.
Proof.
  revert pool g. induction n as [| n IH]; intros pool g.
  - cbn. lia.
  - cbn [Starfield64.push_stars]. unfold bind. rewrite constructor_run64.
    rewrite IH, length_app. cbn. lia.
Qed.

(** The star pushed in round [i] is built from the six draws that start
    at position [6 * i]. *)
Lemma push_stars_lookup64 (n : nat) (w h : Q) (g : Rand) (i : nat) :
  (i < n)%nat ->
  fst (Starfield64.push_stars n w h [] g) !! i =
  Some (fst (Star64.constructor w h (fun k => g (6 * i + k)%nat))).
Proof.
  revert g i. induction n as [| n IH]; intros g i Hi; [lia |].
  cbn [Starfield64.push_stars]. unfold bind. rewrite constructor_run64.
  rewrite push_stars_app64. destruct i as [| i].
  - reflexivity.
  - cbn [app lookup list_lookup]. rewrite IH by lia.
    rewrite !constructor_run64. cbn [fst].
    replace (6 * S i)%nat with (6 + 6 * i)%nat by lia. reflexivity.
Qed.

Lemma push_stars_draws64 (n : nat) (w h : Q) (pool : list Star.t)
    (g : Rand) :
  double_draws g -> double_draws (snd (Starfield64.push_stars n w h pool g)).
Proof.
  revert pool g. induction n as [| n IH]; intros pool g U; [exact U |].
  cbn [Starfield64.push_stars]. unfold bind. rewrite constructor_run64.
  apply IH. exact (draws_tail g 6 U).
Qed.

Lemma resize_length64 (win : Window) (f : Field) (g : Rand) :
  length (stars (fst (Starfield64.resize win f g))) = baseStarCount.
Proof.
  unfold Starfield64.resize, Starfield64.initStars, bind. cbn [width height].
  pose proof (push_stars_length64 baseStarCount (innerWidth win)
                (innerHeight win) [] g) as L.
  destruct (Starfield64.push_stars _ _ _ [] g) as [pool g1]. exact L.
Qed.

Lemma resize_lookup64 (win : Window) (f : Field) (g : Rand) (i : nat) :
  (i < baseStarCount)%nat ->
  stars (fst (Starfield64.resize win f g)) !! i =
  Some (fst (Star64.constructor (innerWidth win) (innerHeight win)
               (fun k => g (6 * i + k)%nat))).
Proof.
  intros Hi.
  pose proof (push_stars_lookup64 baseStarCount (innerWidth win)
                (innerHeight win) g i Hi) as L.
  unfold Starfield64.resize, Starfield64.initStars, bind. cbn [width height].
  destruct (Starfield64.push_stars _ _ _ [] g) as [pool g1]. exact L.
Qed.

(** *** A frame *)

(** The object in slot [i] after [forEach] is what the callback made of
    the object in slot [i], run on the oracle that the slots before it
    have left. *)
Lemma forEach_at (cb : Star.t -> nat -> Rng (Star.t * list CanvasOp))
    (pool : list Star.t) (k : nat) (g : Rand) (i : nat) (s : Star.t) :
  pool !! i = Some s ->
  fst (fst (forEach cb k pool g)) !! i =
  Some (fst (fst (cb s (k + i)%nat (snd (forEach cb k (take i pool) g))))).
Proof.
  revert k g i. induction pool as [| s0 pool IH]; intros k g i Hi;
    [discriminate |].
  destruct i as [| i].
  - injection Hi as ->. cbn [firstn take forEach]. unfold bind, ret at 2.
    cbn [snd]. rewrite Nat.add_0_r.
    destruct (cb s k g) as [r g1].
    destruct (forEach cb (S k) pool g1) as [rs g2]. reflexivity.
  - cbn in Hi. cbn [firstn take forEach]. unfold bind.
    destruct (cb s0 k g) as [r g1].
    specialize (IH (S k) g1 i Hi).
    replace (k + S i)%nat with (S k + i)%nat by lia.
    destruct (forEach cb (S k) pool g1) as [rs g2].
    destruct (forEach cb (S k) (take i pool) g1) as [rs' g2'].
    exact IH.
Qed.

(** The oracle left by the slots up to [i] is what the callback on slot
    [i] has left. *)
Lemma forEach_next (cb : Star.t -> nat -> Rng (Star.t * list CanvasOp))
    (pool : list Star.t) (k : nat) (g : Rand) (i : nat) (s : Star.t) :
  pool !! i = Some s ->
  snd (forEach cb k (take (S i) pool) g) =
  snd (cb s (k + i)%nat (snd (forEach cb k (take i pool) g))).
Proof.
  revert k g i. induction pool as [| s0 pool IH]; intros k g i Hi;
    [discriminate |].
  destruct i as [| i].
  - injection Hi as ->. rewrite Nat.add_0_r, (take_0 (s :: pool)).
    change (take 1 (s :: pool)) with (s :: take 0 pool). rewrite take_0.
    cbn [forEach]. unfold bind, ret. cbn [snd].
    destruct (cb s k g) as [r g1]. reflexivity.
  - cbn in Hi. cbn [firstn take forEach]. unfold bind.
    destruct (cb s0 k g) as [r g1].
    specialize (IH (S k) g1 i Hi).
    replace (k + S i)%nat with (S k + i)%nat by lia.
    destruct (forEach cb (S k) (take (S i) pool) g1) as [rs g2].
    destruct (forEach cb (S k) (take i pool) g1) as [rs' g2'].
    exact IH.
Qed.

Lemma each_star_update (w h : Q) (p : Number) (s : Star.t) (k : nat)
    (g : Rand) :
  fst (fst (Starfield64.each_star w h p s k g)) = fst (Star64.update w h s g)
  /\ snd (Starfield64.each_star w h p s k g) = snd (Star64.update w h s g).
Proof.
  unfold Starfield64.each_star, bind.
  destruct (Star64.update w h s g) as [s' g1]. split; reflexivity.
Qed.

(** The commands that [forEach] issues: one circle for each updated
    object whose index passes the test, in pool order. *)
Lemma forEach_ops64 (w h : Q) (p : Number) (pool : list Star.t)
    (k : nat) (g : Rand) :
  snd (fst (forEach (Starfield64.each_star w h p) k pool g)) =
  map (fun e => Starfield64.draw_star (snd e) p)
      (List.filter (fun e => Starfield64.visible p (fst e))
         (indexed_from k
            (fst (fst (forEach (Starfield64.each_star w h p) k pool g))))).
Proof.
  revert k g. induction pool as [| s0 pool IH]; intros k g; [reflexivity |].
  cbn [forEach]. unfold bind, Starfield64.each_star at 1 3. unfold bind.
  destruct (Star64.update w h s0 g) as [s0' g1]. unfold ret at 1 3.
  specialize (IH (S k) g1).
  destruct (forEach _ (S k) pool g1) as [rs g2].
  cbn [fst snd ret indexed_from List.filter] in *.
  destruct (Starfield64.visible p k); cbn [app map]; now rewrite IH.
Qed.

Lemma animate_length64 (win : Window) (f : Field) (g : Rand) :
  length (stars (fst (fst (Starfield64.animate win f g)))) = length (stars f).
Proof.
  unfold Starfield64.animate, bind.
  pose proof (forEach_length
    (Starfield64.each_star (width f) (height f)
       (Starfield64.scrollProgress win)) 0 (stars f) g) as L.
  destruct (forEach _ 0 (stars f) g) as [r g1]. exact L.
Qed.

(** The star in slot [i] after a frame is the update of the star that
    was there, with the oracle as the earlier slots of the frame have
    left it. *)
Lemma animate_at64 (win : Window) (f : Field) (g : Rand) (i : nat)
    (s : Star.t) :
  stars f !! i = Some s ->
  stars (fst (fst (Starfield64.animate win f g))) !! i =
  Some (fst (Star64.update (width f) (height f) s
               (snd (forEach (Starfield64.each_star (width f) (height f)
                               (Starfield64.scrollProgress win))
                             0 (take i (stars f)) g)))).
Proof.
  intros Hi. unfold Starfield64.animate, bind.
  pose proof (forEach_at (Starfield64.each_star (width f) (height f)
                (Starfield64.scrollProgress win)) (stars f) 0 g i s Hi) as L.
  rewrite (proj1 (each_star_update _ _ _ _ _ _)) in L.
  destruct (forEach _ 0 (stars f) g) as [r g1]. exact L.
Qed.

(** [index < visibleThreshold] for a finite progress. *)
Lemma visible_fin64 (p : Q) (i : nat) :
  Starfield64.visible (Fin p) i = Qltb (inject_Z (Z.of_nat i)) (cutoff p).
Proof. reflexivity. Qed.

(** The commands of a frame, when the scroll progress is finite. *)
Lemma animate_ops64 (win : Window) (f : Field) (g : Rand) (p : Q) :
  Starfield64.scrollProgress win = Fin p ->
  snd (fst (Starfield64.animate win f g)) =
  ClearRect 0 0 (width f) (height f)
  :: map (fun s => Starfield64.draw_star s (Fin p))
       (below (cutoff p) (stars (fst (fst (Starfield64.animate win f g))))).
Proof.
  intros Hp. unfold Starfield64.animate, bind. rewrite Hp.
  pose proof (forEach_ops64 (width f) (height f) (Fin p) (stars f) 0 g) as O.
  destruct (forEach _ 0 (stars f) g) as [r g1]. cbn [fst snd ret] in *.
  rewrite O. f_equal. unfold below. rewrite map_map. f_equal.
Qed.

Lemma cutoff_comp (p q : Q) : p == q -> cutoff p == cutoff q.
Proof. intros E. unfold cutoff. now rewrite E. Qed.

Lemma alpha_comp (o p q : Q) : p == q -> alpha o p == alpha o q.
Proof. intros E. unfold alpha. now rewrite E. Qed.

(** *** What the rounding leaves as it is *)

(** The frame of an update: over doubles, too, a star that stays on the
    screen moves down by one rounded step, twinkles, and keeps [x], [z],
    [size] and [twinkleSpeed]; no random number is drawn. *)
Lemma update_frame64 (w h : Q) (s : Star.t) (g : Rand) :
  add (Star.y s) (mul (Star.z s) (lit 0.2)) <= h ->
  let s' := fst (Star64.update w h s g) in
  Star.y s' = add (Star.y s) (mul (Star.z s) (lit 0.2)) /\
  Star.opacity s' =
    add (Star.opacity s) (mul (Star.twinkleSpeed s) (Star.twinkleDir s)) /\
  Star.x s' = Star.x s /\
  Star.z s' = Star.z s /\
  Star.size s' = Star.size s /\
  Star.twinkleSpeed s' = Star.twinkleSpeed s /\
  snd (Star64.update w h s g) = g.
Proof.
  intros H s'. subst s'. rewrite update_keep64 by exact H.
  repeat split; reflexivity.
Qed.

(** The length of the pool: frames keep it, a resize makes it 400. *)
Lemma frames_length64 (wins : list Window) (f : Field) (g : Rand) :
  length (stars (fst (fst (Starfield64.frames wins f g)))) = length (stars f).
Proof.
  revert f g. induction wins as [| win wins IH]; intros f g; [reflexivity |].
  cbn [Starfield64.frames]. unfold bind.
  pose proof (animate_length64 win f g) as L.
  destruct (Starfield64.animate win f g) as [r g1].
  specialize (IH (fst r) g1).
  destruct (Starfield64.frames wins (fst r) g1) as [rs g2].
  cbn in *. congruence.
Qed.

(** The threshold does not decrease with the progress, for any count. *)
Lemma threshold_monotone64 (N : nat) (p1 p2 : Q) :
  0 <= p1 -> p1 <= p2 ->
  num_le (Starfield64.visibleThreshold N (Fin p1))
         (Starfield64.visibleThreshold N (Fin p2)).
Proof.
  intros P L. cbn.
  assert (0 <= inject_Z (Z.of_nat N)) as HN.
  { change 0 with (inject_Z 0). rewrite <- Zle_Qle. lia. }
  assert (0 <= lit 0.1) as L1 by qle. assert (0 <= lit 0.9) as L9 by qle.
  assert (0 <= round (p1 * p1)) as M
    by (apply round_nonneg, Qmult_le_0_compat; lra).
  assert (round (p1 * p1) <= round (p2 * p2)) as MM.
  { apply round_le. apply Qmult_le_compat_nonneg; split; lra. }
  assert (0 <= round (round (p1 * p1) * lit 0.9)) as K
    by (apply round_nonneg, Qmult_le_0_compat; lra).
  assert (round (round (p1 * p1) * lit 0.9)
          <= round (round (p2 * p2) * lit 0.9)) as KK.
  { apply round_le. apply Qmult_le_compat_nonneg; split; lra. }
  apply round_le. apply Qmult_le_compat_nonneg; split; try lra.
  - apply round_nonneg. lra.
  - apply round_le. lra.
Qed.

(** The progress on a page as tall as the viewport is NaN over doubles,
    too, and under a body shorter than the viewport it is negative. *)
Lemma scrollProgress_degenerate64 :
  Starfield64.scrollProgress
    {| innerWidth := 800; innerHeight := 600; scrollY := 0;
       scrollHeight := 600 |} = NaN /\
  (forall index, Starfield64.visible NaN index = false) /\
  equiv (Starfield64.scrollProgress
           {| innerWidth := 800; innerHeight := 600; scrollY := 100;
              scrollHeight := 550 |}) (Fin (-2)).
Proof.
  split; [vm_compute; reflexivity |]. split; [reflexivity |].
  vm_compute. reflexivity.
Qed.

End Rounded.

Import DoubleFacts Rounded.

(** The rounding agrees with the arithmetic of the hardware on these
    operations of the code: the literals, a sum that is not exact, a
    product, a quotient, a tie, a subnormal result, and the cutoff at the
    scroll offset 2000 of a page 3000 high in a viewport 600 high, which is
    above 290. *)
Example round_agrees_with_hardware :
  Double.lit 0.1 == Double.of_float 0x1.999999999999ap-4 /\
  Double.lit 0.8 == Double.of_float 0x1.999999999999ap-1 /\
  Double.lit 0.05 == Double.of_float 0x1.999999999999ap-5 /\
  Double.add (Double.lit 0.1) (Double.lit 0.2) ==
    Double.of_float (0x1.999999999999ap-4 + 0x1.999999999999ap-3) /\
  Double.mul (Double.lit 0.1) (Double.lit 0.3) ==
    Double.of_float (0x1.999999999999ap-4 * 0x1.3333333333333p-2) /\
  Double.round (2000 / 2400) == Double.of_float (2000 / 2400) /\
  Double.round (1 + 2 ^ (-53)) == Double.of_float (1 + 0x1p-53) /\
  Double.round (3 * 2 ^ (-1075)) == Double.of_float (0x3p-1074 * 0.5) /\
  Spec64.cutoff (Double.round (2000 / 2400)) ==
    Double.of_float
      (400 * (0x1.999999999999ap-4
              + (2000 / 2400) * (2000 / 2400) * 0x1.ccccccccccccdp-1)) /\
  290 < Spec64.cutoff (Double.round (2000 / 2400)).
Proof. repeat split; try qeq; qlt. Qed.

(** The operations on pairs of these doubles: draws, among them the
    largest below 1 and the smallest above 0, sizes of a window, literals
    of the code, the greatest opacity, a negative number and a subnormal
    one.  The quotients are taken by the normal ones, where they do not
    overflow. *)
Example round_agrees_on_samples :
  let normal : list float :=
    [0x1.fffffffffffffp-1; 0x1.cccccccccccc9p-1; 0x1p-53;
     0x1.3c0ca428c59f8p-1; 1366; 0x1.2bccccccccccdp+9;
     0x1.999999999999ap-4; 0x1.999999999999ap-5; 0x1.b333333333334p-1;
     -10]%float in
  let samples : list float := normal ++ [0x1.8p-1060]%float in
  forallb (fun ab =>
             Double.agrees PrimFloat.add Qplus (fst ab) (snd ab)
             && Double.agrees PrimFloat.sub Qminus (fst ab) (snd ab)
             && Double.agrees PrimFloat.mul Qmult (fst ab) (snd ab))
          (list_prod samples samples) = true /\
  forallb (fun ab => Double.agrees PrimFloat.div Qdiv (fst ab) (snd ab))
          (list_prod samples normal) = true.
Proof. vm_compute. split; reflexivity. Qed.

(** C3. A star that the constructor has made from draws that are doubles
    of [0, 1), after any number of calls of [update], has its opacity
    within one twinkle step of the interval from 0.1 to 0.8, in the
    arithmetic of the code: not below [0.1 - twinkleSpeed] and not above
    [0.8 + twinkleSpeed].  The direction is 1 or -1.  The mechanism is a
    bounce and not a clamp: a call of [update] that keeps the star on the
    screen sets the opacity to the sum of the opacity and speed times
    direction, whatever the sum, and reverses the direction exactly when
    the new opacity is above 0.8 or below 0.1. *)
Theorem C3_opacity_within_one_rounded_step (w h : Q) (g : Rand) (n : nat) :
  Spec64.double_draws g ->
  let born := Star64.constructor w h g in
  let run := Star64.updates n w h (fst born) (snd born) in
  let s := fst run in
  let s' := fst (Star64.update w h s (snd run)) in
  (Double.sub (Double.lit 0.1) (Star.twinkleSpeed s) <= Star.opacity s /\
   Star.opacity s <= Double.add (Double.lit 0.8) (Star.twinkleSpeed s)) /\
  (Star.twinkleDir s == 1 \/ Star.twinkleDir s == -1) /\
  Double.mul (Star.twinkleDir s) (-1) == - Star.twinkleDir s /\
  (Double.add (Star.y s) (Double.mul (Star.z s) (Double.lit 0.2)) <= h ->
   Star.opacity s' =
     Double.add (Star.opacity s)
                (Double.mul (Star.twinkleSpeed s) (Star.twinkleDir s)) /\
   (Double.lit 0.8 < Star.opacity s' \/ Star.opacity s' < Double.lit 0.1 ->
    Star.twinkleDir s' = Double.mul (Star.twinkleDir s) (-1)) /\
   (Double.lit 0.1 <= Star.opacity s' /\ Star.opacity s' <= Double.lit 0.8 ->
    Star.twinkleDir s' = Star.twinkleDir s)).
Proof.
  intros Hg born run s s'.
  assert (Hs : Spec64.twinkle_inv s).
  { apply updates_inv64.
    - now apply constructor_draws64.
    - now apply constructor_inv64. }
  split; [now apply twinkle_inv_bounds64 |].
  assert (Hd : Star.twinkleDir s == 1 \/ Star.twinkleDir s == -1).
  { destruct Hs as (_ & _ & _ & [(D & _) | (D & _)]); auto. }
  split; [exact Hd |]. split.
  { destruct Hd as [D | D].
    - rewrite (turn_down _ D), D. reflexivity.
    - rewrite (turn_up _ D), D. reflexivity. }
  intros K. subst s'. rewrite update_keep64 by exact K. cbn [fst].
  unfold Star64.twinkle, Star64.drift.
  cbn [Star.twinkleSpeed Star.twinkleDir Star.opacity].
  set (o := Double.add (Star.opacity s) _).
  split; [reflexivity |].
  destruct (Qltb_cases (Double.lit 0.8) o) as [[-> A] | [-> A]];
    destruct (Qltb_cases o (Double.lit 0.1)) as [[-> B] | [-> B]];
    cbn [orb]; split; intros; try reflexivity; lra.
Qed.

Lemma C3_opacity_within_one_rounded_step_witness :
  Spec64.double_draws (fun _ => 0.5) /\
  let born := Star64.constructor 800 600 (fun _ => 0.5) in
  let s := fst (Star64.updates 25 800 600 (fst born) (snd born)) in
  Double.sub (Double.lit 0.1) (Star.twinkleSpeed s) <= Star.opacity s /\
  Star.opacity s <= Double.add (Double.lit 0.8) (Star.twinkleSpeed s).
Proof.
  assert (H : Spec64.double_draws (fun _ => 0.5)).
  { intros n. split; [unfold Spec64.double; qeq | split; [qle | qlt]]. }
  split; [exact H |].
  exact (proj1 (C3_opacity_within_one_rounded_step 800 600 (fun _ => 0.5)
                  25 H)).
Defined.

(** The step is taken in the arithmetic of the code.  With the draw 0.5
    throughout, the opacity starts at 0.35 and the speed is 0.025; the
    eighteenth sum is above 0.8 and the direction turns at that update. *)
Example bounce_at_update_18 :
  let born := Star64.constructor 800 600 (fun _ => 0.5) in
  let after n := fst (Star64.updates n 800 600 (fst born) (snd born)) in
  Star.twinkleDir (after 17%nat) == 1 /\
  Double.lit 0.8 < Star.opacity (after 18%nat) /\
  Star.twinkleDir (after 18%nat) == -1.
Proof. intros born after. split; [qeq | split; [qlt | qeq]]. Qed.

(** The upper end of the range is reached: with the draws
    0x1.cccccccccccc9p-1 for the opacity and [1 - 2^-53] for the speed, the
    opacity after six updates is [0.8 + twinkleSpeed]. *)
Example upper_end_reached :
  let g : Rand := fun n =>
    match n with
    | 3%nat => 8106479329266889 # 9007199254740992
    | 4%nat => 1 - 2 ^ (-53)
    | _ => 0.5
    end in
  let born := Star64.constructor 800 600 g in
  let s := fst (Star64.updates 6 800 600 (fst born) (snd born)) in
  Spec64.double_draws g /\
  Star.opacity s == Double.add (Double.lit 0.8) (Star.twinkleSpeed s) /\
  Star.twinkleDir s == -1.
Proof.
  intros g born s. split; [| split; qeq].
  intros [| [| [| [| [| n]]]]];
    (split; [unfold Spec64.double; qeq | split; [qle | qlt]]).
Qed.

(** C4. In a frame, a star whose advanced vertical position, as the code
    computes it, is beyond the height of the viewport is replaced in its
    own slot by the outcome of [reset] on the oracle as the earlier slots
    of the frame have left it: [x], [z], [size], [opacity] and
    [twinkleSpeed] come from the next five draws by the expressions of
    pool initialization, [twinkleDir] is 1 and [y] is -10, above the top
    edge; the five draws are consumed.  The pool keeps its length and
    every slot holds the update of the star it held before. *)
Theorem C4_recycled_in_its_slot (win : Window) (f : Field) (g : Rand)
    (i : nat) (s : Star.t) :
  stars f !! i = Some s ->
  height f < Double.add (Star.y s) (Double.mul (Star.z s) (Double.lit 0.2)) ->
  let callback :=
    Starfield64.each_star (width f) (height f)
                          (Starfield64.scrollProgress win) in
  let oracle_at j := snd (forEach callback 0 (take j (stars f)) g) in
  let f' := fst (fst (Starfield64.animate win f g)) in
  let gi := oracle_at i in
  length (stars f') = length (stars f) /\
  (forall j sj, stars f !! j = Some sj ->
     stars f' !! j =
       Some (fst (Star64.update (width f) (height f) sj (oracle_at j)))) /\
  oracle_at (S i) = (fun n => gi (5 + n)%nat) /\
  exists s' : Star.t,
    stars f' !! i = Some s' /\
    Star.x s' = Double.mul (gi 0%nat) (width f) /\
    Star.y s' = -10 /\ Star.y s' < 0 /\
    Star.z s' = Double.add (Double.mul (gi 1%nat) 2) 0.5 /\
    Star.size s' = Double.mul (gi 2%nat) 1.5 /\
    Star.opacity s' = Double.add (Double.mul (gi 3%nat) 0.5) (Double.lit 0.1) /\
    Star.twinkleSpeed s' = Double.mul (gi 4%nat) (Double.lit 0.05) /\
    Star.twinkleDir s' = 1 /\
    let made := fst (Star64.constructor (width f) (height f) gi) in
    Star.x s' = Star.x made /\
    Star.z s' = Star.z made /\
    Star.size s' = Star.size made /\
    Star.opacity s' = Star.opacity made /\
    Star.twinkleSpeed s' = Star.twinkleSpeed made /\
    Star.twinkleDir s' = Star.twinkleDir made.
Proof.
  intros Hi Hout callback oracle_at f' gi.
  split; [apply animate_length64 |]. split; [| split].
  - intros j sj Hj. exact (animate_at64 win f g j sj Hj).
  - unfold oracle_at. rewrite (forEach_next callback (stars f) 0 g i s Hi).
    unfold callback. rewrite (proj2 (each_star_update _ _ _ _ _ _)).
    rewrite update_recycle64 by exact Hout. reflexivity.
  - pose proof (animate_at64 win f g i s Hi) as L.
    rewrite update_recycle64 in L by exact Hout.
    eexists. split; [exact L |].
    rewrite reset_run64, constructor_run64.
    cbn [fst Star.x Star.y Star.z Star.size Star.opacity Star.twinkleSpeed
         Star.twinkleDir].
    repeat split; reflexivity.
Qed.

Lemma C4_recycled_in_its_slot_witness :
  let s := {| Star.x := 5; Star.y := 600; Star.z := 1; Star.size := 1;
              Star.opacity := 0.25; Star.twinkleSpeed := 0.03125;
              Star.twinkleDir := 1 |} in
  let f := {| canvas := {| canvas_width := 800; canvas_height := 600;
                           style_opacity := 1 |};
              width := 800; height := 600; stars := [s] |} in
  let win := {| innerWidth := 800; innerHeight := 600; scrollY := 0;
                scrollHeight := 3000 |} in
  stars f !! 0%nat = Some s /\
  height f < Double.add (Star.y s) (Double.mul (Star.z s) (Double.lit 0.2)) /\
  length (stars (fst (fst (Starfield64.animate win f (fun _ => 0.5))))) = 1%nat.
Proof.
  intros s f win.
  assert (H1 : stars f !! 0%nat = Some s) by reflexivity.
  assert (H2 : height f <
               Double.add (Star.y s) (Double.mul (Star.z s) (Double.lit 0.2)))
    by qlt.
  split; [exact H1 |]. split; [exact H2 |].
  exact (proj1 (C4_recycled_in_its_slot win f (fun _ => 0.5) 0 s H1 H2)).
Defined.

(** The test is the one of the code: a star at the double 599.6 with
    depth 2 under a height of 600 advances to 600, not beyond, and is
    kept; no random number is drawn. *)
Example kept_at_the_edge :
  let s := {| Star.x := 5; Star.y := Double.lit 599.6; Star.z := 2;
              Star.size := 1; Star.opacity := 0.25;
              Star.twinkleSpeed := 0.03125; Star.twinkleDir := 1 |} in
  let r := Star64.update 800 600 s (fun n => inject_Z (Z.of_nat n)) in
  Double.add (Star.y s) (Double.mul (Star.z s) (Double.lit 0.2)) == 600 /\
  Star.y (fst r) == 600 /\ Star.x (fst r) = 5 /\ snd r 0%nat = 0.
Proof.
  intros s r. split; [qeq | split; [qeq |]].
  split; vm_compute; reflexivity.
Qed.

(** C6, as stated, against the code.  The upper ends of the ranges of
    depth and opacity are reached: with the largest double below 1 as the
    draw, the depth is 2.5 and the opacity is the double nearest to 0.6. *)
Lemma C6_upper_ends_reached :
  let win := {| innerWidth := 800; innerHeight := 600; scrollY := 0;
                scrollHeight := 3000 |} in
  let f := {| canvas := {| canvas_width := 0; canvas_height := 0;
                           style_opacity := 0 |};
              width := 0; height := 0; stars := [] |} in
  let g : Rand := fun _ => 1 - 2 ^ (-53) in
  Spec64.double_draws g /\
  exists s : Star.t,
    stars (fst (Starfield64.resize win f g)) !! 0%nat = Some s /\
    Star.z s == 2.5 /\ ~ Star.z s < 2.5 /\
    Star.opacity s == Double.lit 0.6 /\ ~ Star.opacity s < Double.lit 0.6.
Proof.
  intros win f g. split.
  { intros n. split; [unfold Spec64.double; qeq | split; [qle | qlt]]. }
  eexists. split; [apply resize_lookup64; unfold baseStarCount; lia |].
  rewrite constructor_run64. cbn [fst Star.z Star.opacity].
  assert (Z : Double.add (Double.mul (g 1%nat) 2) 0.5 == 2.5) by qeq.
  assert (O : Double.add (Double.mul (g 3%nat) 0.5) (Double.lit 0.1)
              == Double.lit 0.6) by qeq.
  replace (6 * 0 + 1)%nat with 1%nat by lia.
  replace (6 * 0 + 3)%nat with 3%nat by lia.
  split; [exact Z |]. split; [rewrite Z; apply Qlt_irrefl |].
  split; [exact O |]. rewrite O. apply Qlt_irrefl.
Qed.

(** C6. After a resize, every slot of the pool holds a star made from six
    fresh draws of the oracle, each used once: [x] is a draw times the
    width of the viewport and [y] a draw times its height, both on the
    screen; [z] is in [0.5, 2.5], the upper end included; [size] is in
    [0, 1.5); [opacity] is between the doubles nearest to 0.1 and to 0.6,
    both included; [twinkleSpeed] is in [0, 0.05), and [twinkleDir] is
    1. *)
Theorem C6_initial_particles_closed (win : Window) (f : Field) (g : Rand)
    (i : nat) :
  Spec64.double_draws g ->
  (i < baseStarCount)%nat ->
  exists s : Star.t,
    stars (fst (Starfield64.resize win f g)) !! i = Some s /\
    Star.x s = Double.mul (g (6 * i)%nat) (innerWidth win) /\
    Star.y s = Double.mul (g (6 * i + 5)%nat) (innerHeight win) /\
    Star.z s = Double.add (Double.mul (g (6 * i + 1)%nat) 2) 0.5 /\
    Star.size s = Double.mul (g (6 * i + 2)%nat) 1.5 /\
    Star.opacity s =
      Double.add (Double.mul (g (6 * i + 3)%nat) 0.5) (Double.lit 0.1) /\
    Star.twinkleSpeed s = Double.mul (g (6 * i + 4)%nat) (Double.lit 0.05) /\
    (Spec64.double (innerWidth win) -> 0 <= innerWidth win ->
     0 <= Star.x s /\ Star.x s <= innerWidth win) /\
    (Spec64.double (innerHeight win) -> 0 <= innerHeight win ->
     0 <= Star.y s /\ Star.y s <= innerHeight win) /\
    (0.5 <= Star.z s /\ Star.z s <= 2.5) /\
    (0 <= Star.size s /\ Star.size s < 1.5) /\
    (Double.lit 0.1 <= Star.opacity s /\ Star.opacity s <= Double.lit 0.6) /\
    (0 <= Star.twinkleSpeed s /\ Star.twinkleSpeed s < Double.lit 0.05) /\
    Star.twinkleDir s = 1.
Proof.
  intros Hg Hi. eexists. split; [now apply resize_lookup64 |].
  rewrite constructor_run64.
  cbn [fst Star.x Star.y Star.z Star.size Star.opacity Star.twinkleSpeed
       Star.twinkleDir].
  rewrite !Nat.add_0_r.
  destruct (Hg (6 * i)%nat) as (_ & X0 & X1),
    (Hg (6 * i + 1)%nat) as (_ & Z0 & Z1),
    (Hg (6 * i + 2)%nat) as (D2 & S0 & S1),
    (Hg (6 * i + 3)%nat) as (_ & O0 & O1),
    (Hg (6 * i + 4)%nat) as (D4 & V0 & V1),
    (Hg (6 * i + 5)%nat) as (_ & Y0 & Y1).
  pose proof (unit_draw_max _ D2 S1) as S2.
  pose proof (unit_draw_max _ D4 V1) as V2.
  assert (L5 : 0 <= Double.lit 0.05) by qle.
  do 6 (split; [reflexivity |]).
  split; [| split; [| split; [| split; [| split; [| split]]]]].
  - intros Dw W. split; [apply mul_nonneg; lra |].
    apply round_le_hi; [exact Dw |].
    rewrite <- (Qmult_1_l (innerWidth win)) at 2.
    apply Qmult_le_compat_r; lra.
  - intros Dh H. split; [apply mul_nonneg; lra |].
    apply round_le_hi; [exact Dh |].
    rewrite <- (Qmult_1_l (innerHeight win)) at 2.
    apply Qmult_le_compat_r; lra.
  - assert (M0 : 0 <= Double.mul (g (6 * i + 1)%nat) 2)
      by (apply mul_nonneg; lra).
    assert (M1 : Double.mul (g (6 * i + 1)%nat) 2 <= 2).
    { apply round_le_hi; [unfold Spec64.double; qeq | lra]. }
    split.
    + apply round_ge; [unfold Spec64.double; qeq | lra].
    + apply round_le_hi; [unfold Spec64.double; qeq | lra].
  - split; [apply mul_nonneg; lra |].
    apply Qle_lt_trans with (Double.mul (1 - 2 ^ (-53)) 1.5); [| qlt].
    apply mul_le; lra.
  - assert (M0 : 0 <= Double.mul (g (6 * i + 3)%nat) 0.5)
      by (apply mul_nonneg; lra).
    assert (M1 : Double.mul (g (6 * i + 3)%nat) 0.5 <= 0.5).
    { apply round_le_hi; [unfold Spec64.double; qeq | lra]. }
    split.
    + apply round_ge; [apply lit_double | lra].
    + apply Qle_trans with (Double.add 0.5 (Double.lit 0.1)); [| qle].
      apply add_le; lra.
  - split; [apply mul_nonneg; lra |].
    apply Qle_lt_trans
      with (Double.mul (1 - 2 ^ (-53)) (Double.lit 0.05)); [| qlt].
    apply mul_le; lra.
  - reflexivity.
Qed.

Lemma C6_initial_particles_closed_witness :
  let win := {| innerWidth := 800; innerHeight := 600; scrollY := 0;
                scrollHeight := 3000 |} in
  let f := {| canvas := {| canvas_width := 0; canvas_height := 0;
                           style_opacity := 0 |};
              width := 0; height := 0; stars := [] |} in
  Spec64.double_draws (fun _ => 0.5) /\ (7 < baseStarCount)%nat /\
  exists s : Star.t,
    stars (fst (Starfield64.resize win f (fun _ => 0.5))) !! 7%nat = Some s /\
    Star.z s <= 2.5.
Proof.
  intros win f.
  assert (H1 : Spec64.double_draws (fun _ => 0.5)).
  { intros n. split; [unfold Spec64.double; qeq | split; [qle | qlt]]. }
  assert (H2 : (7 < baseStarCount)%nat) by (unfold baseStarCount; lia).
  split; [exact H1 |]. split; [exact H2 |].
  destruct (C6_initial_particles_closed win f (fun _ => 0.5) 7 H1 H2)
    as [s [L R]].
  exists s. split; [exact L |]. apply R.
Defined.

(** C1. In a frame over a pool of 400 stars with scroll progress [p]
    between 0 and 1, the cutoff is [400 * (0.1 + p * p * 0.9)] as the code
    computes it over doubles; after the clearing of the canvas the
    commands are one circle for each star whose index is strictly below
    the cutoff, in pool order, and no other; the alpha of a circle is the
    opacity of its star times [0.5 + p * 0.5], again as computed.  At
    [p = 0] the cutoff is 40 and the stars drawn are the first 40, at
    their opacity times 0.5; at [p = 1] the cutoff is 400 and all 400 are
    drawn at their opacity times 1. *)
Theorem C1_visible_below_cutoff (win : Window) (f : Field) (g : Rand)
    (p : Q) :
  length (stars f) = 400%nat ->
  Starfield64.scrollProgress win = Fin p ->
  0 <= p <= 1 ->
  let r := fst (Starfield64.animate win f g) in
  let pool := stars (fst r) in
  let cutoff :=
    Double.mul 400
      (Double.add (Double.lit 0.1)
                  (Double.mul (Double.mul p p) (Double.lit 0.9))) in
  let alpha (s : Star.t) :=
    Double.mul (Star.opacity s) (Double.add 0.5 (Double.mul p 0.5)) in
  Starfield64.visibleThreshold 400 (Fin p) = Fin cutoff /\
  snd r = ClearRect 0 0 (width f) (height f)
          :: map (fun s => FillCircle (Star.x s) (Star.y s) (Star.size s)
                                      (Fin (alpha s)))
                 (below cutoff pool) /\
  (p == 0 ->
   cutoff == 40 /\
   below cutoff pool = take 40 pool /\ length (take 40 pool) = 40%nat /\
   forall s, alpha s == Double.mul (Star.opacity s) 0.5) /\
  (p == 1 ->
   cutoff == 400 /\
   below cutoff pool = pool /\ length pool = 400%nat /\
   forall s, alpha s == Double.mul (Star.opacity s) 1).
Proof.
  intros Hlen Hp Hrange r pool cutoff alpha.
  assert (Hpool : length pool = 400%nat).
  { subst pool r. now rewrite animate_length64. }
  split; [reflexivity |].
  split; [exact (animate_ops64 win f g p Hp) |].
  split; intros E.
  - assert (C : cutoff == 40).
    { subst cutoff. rewrite (cutoff_comp p 0 E : _ == Spec64.cutoff 0). qeq. }
    split; [exact C |]. split; [| split].
    + rewrite (below_equiv cutoff (inject_Z (Z.of_nat 40)) pool C).
      apply below_take.
    + rewrite length_take. lia.
    + intros s. subst alpha. cbv beta.
      rewrite (alpha_comp (Star.opacity s) p 0 E : _ == Spec64.alpha _ 0).
      unfold Spec64.alpha. apply round_comp.
      assert (K : Double.add 0.5 (Double.mul 0 0.5) == 0.5) by qeq.
      now rewrite K.
  - assert (C : cutoff == 400).
    { subst cutoff. rewrite (cutoff_comp p 1 E : _ == Spec64.cutoff 1). qeq. }
    split; [exact C |]. split; [| split].
    + rewrite (below_equiv cutoff (inject_Z (Z.of_nat 400)) pool C).
      rewrite below_take. apply take_ge. lia.
    + exact Hpool.
    + intros s. subst alpha. cbv beta.
      rewrite (alpha_comp (Star.opacity s) p 1 E : _ == Spec64.alpha _ 1).
      unfold Spec64.alpha. apply round_comp.
      assert (K : Double.add 0.5 (Double.mul 1 0.5) == 1) by qeq.
      now rewrite K.
Qed.

Lemma C1_visible_below_cutoff_witness :
  let win := {| innerWidth := 800; innerHeight := 600; scrollY := 0;
                scrollHeight := 3000 |} in
  let s := {| Star.x := 5; Star.y := 20; Star.z := 1; Star.size := 1;
              Star.opacity := 0.25; Star.twinkleSpeed := 0.03125;
              Star.twinkleDir := 1 |} in
  let f := {| canvas := {| canvas_width := 800; canvas_height := 600;
                           style_opacity := 1 |};
              width := 800; height := 600; stars := List.repeat s 400 |} in
  let p := Double.round (0 / Double.sub 3000 600) in
  length (stars f) = 400%nat /\
  Starfield64.scrollProgress win = Fin p /\
  0 <= p <= 1 /\
  length (take 40 (stars (fst (fst (Starfield64.animate win f
                                      (fun _ => 0.5)))))) = 40%nat.
Proof.
  intros win s f p.
  assert (H1 : length (stars f) = 400%nat) by (vm_compute; reflexivity).
  assert (H2 : Starfield64.scrollProgress win = Fin p)
    by (vm_compute; reflexivity).
  assert (H3 : 0 <= p <= 1) by (split; qle).
  assert (H4 : p == 0) by qeq.
  split; [exact H1 |]. split; [exact H2 |]. split; [exact H3 |].
  pose proof (C1_visible_below_cutoff win f (fun _ => 0.5) p H1 H2 H3) as T.
  exact (proj1 (proj2 (proj2 (proj1 (proj2 (proj2 T)) H4)))).
Defined.

(** The cutoff is a double, and an index is compared with that double: at
    the scroll offset 2000 of a page 3000 high in a viewport 600 high the
    cutoff is above 290 and 291 stars are drawn; half way, it is 130. *)
Example cutoff_is_rounded :
  let win := {| innerWidth := 800; innerHeight := 600; scrollY := 2000;
                scrollHeight := 3000 |} in
  let p := Starfield64.scrollProgress win in
  length (List.filter (Starfield64.visible p) (seq 0 400)) = 291%nat /\
  Starfield64.visible p 290 = true /\
  equiv (Starfield64.visibleThreshold 400 (Fin 0.5)) (Fin 130).
Proof. vm_compute. repeat split. Qed.

(** ** Starting the starfield *)

Import Page.

(** C9, as stated, against the code.  The missing element is not the
    only way to fail: when the element with the id [space-canvas] is not a
    canvas, [initSpaceBackground] throws a TypeError at [getContext], and
    when it is a canvas that gives no 2d context, it throws at the first
    [clearRect], after the listener is added and the pool is filled. *)
Lemma C9_other_failure_modes :
  let win := {| innerWidth := 800; innerHeight := 600; scrollY := 0;
                scrollHeight := 3000 |} in
  let cv := {| canvas_width := 300; canvas_height := 150;
               style_opacity := 0 |} in
  let page el := {| Dom.window := win; Dom.space_canvas := Some el;
                    Dom.starfield := None; Dom.resize_listeners := 0;
                    Dom.frame_requests := 0; Dom.painted := [] |} in
  let g : Rand := fun _ => 0.5 in
  Dom.initSpaceBackground (page Dom.OtherElement) g =
    Dom.Thrown TypeError (page Dom.OtherElement) g /\
  exists (pg' : Dom.t) (g' : Rand),
    Dom.initSpaceBackground (page (Dom.CanvasElement cv false)) g =
      Dom.Thrown TypeError pg' g' /\
    Dom.resize_listeners pg' = 1%nat /\ Dom.frame_requests pg' = 0%nat.
Proof.
  intros win cv page g. split; [reflexivity |].
  unfold Dom.initSpaceBackground, page. cbn [Dom.space_canvas Dom.window].
  destruct (Starfield64.resize win _ g) as [f1 g1].
  eexists _, g1. split; [reflexivity |]. split; reflexivity.
Qed.

(** C9. Without the canvas element [initSpaceBackground] returns at once
    and changes nothing: no pool, no listener, no frame request, no
    command to a canvas, no random draw, and nothing is thrown.  With a
    canvas that gives a 2d context it ends normally, with a pool of 400
    stars, one resize listener more and one frame requested.  In the two
    other cases it throws a TypeError: at once and with nothing changed
    when the element is not a canvas; when the canvas gives no 2d context,
    with the listener added and the pool of 400 stars filled, nothing
    painted and no frame requested. *)
Theorem C9_no_op_start_or_throw (pg : Dom.t) (g : Rand) :
  match Dom.space_canvas pg with
  | None => Dom.initSpaceBackground pg g = Dom.Returned pg g
  | Some Dom.OtherElement =>
      Dom.initSpaceBackground pg g = Dom.Thrown TypeError pg g
  | Some (Dom.CanvasElement cv true) =>
      exists (pg' : Dom.t) (g' : Rand) (f : Field),
        Dom.initSpaceBackground pg g = Dom.Returned pg' g' /\
        Dom.starfield pg' = Some f /\
        length (stars f) = 400%nat /\
        Dom.resize_listeners pg' = S (Dom.resize_listeners pg) /\
        Dom.frame_requests pg' = S (Dom.frame_requests pg)
  | Some (Dom.CanvasElement cv false) =>
      exists (pg' : Dom.t) (g' : Rand) (f : Field),
        Dom.initSpaceBackground pg g = Dom.Thrown TypeError pg' g' /\
        Dom.starfield pg' = Some f /\
        length (stars f) = 400%nat /\
        Dom.resize_listeners pg' = S (Dom.resize_listeners pg) /\
        Dom.frame_requests pg' = Dom.frame_requests pg /\
        Dom.painted pg' = Dom.painted pg
  end.
Proof.
  unfold Dom.initSpaceBackground.
  destruct (Dom.space_canvas pg) as [[cv [|] |] |]; try reflexivity.
  - set (f0 := {| canvas := cv; width := 0; height := 0; stars := [] |}).
    pose proof (resize_length64 (Dom.window pg) f0 g) as L.
    destruct (Starfield64.resize (Dom.window pg) f0 g) as [f1 g1].
    cbn [fst] in L.
    pose proof (animate_length64 (Dom.window pg) f1 g1) as A.
    destruct (Starfield64.animate (Dom.window pg) f1 g1) as [r g2].
    cbn [fst] in A.
    eexists _, g2, (fst r). split; [reflexivity |].
    cbn. repeat split. unfold baseStarCount in L. congruence.
  - set (f0 := {| canvas := cv; width := 0; height := 0; stars := [] |}).
    pose proof (resize_length64 (Dom.window pg) f0 g) as L.
    destruct (Starfield64.resize (Dom.window pg) f0 g) as [f1 g1].
    cbn [fst] in L.
    eexists _, g1, f1. split; [reflexivity |].
    cbn. repeat split. exact L.
Qed.

(** ** Stopping the glyph rain *)

Import MatrixRain.

Lemma quiet_without_timers (evs : list Event) (d : Doc) :
  intervals d = ∅ ->
  forallb (fun ev => negb (is_toggle ev)) evs = true ->
  run evs d = d.
Proof.
  intros Hd. induction evs as [| ev evs IH]; intros Hevs; [reflexivity |].
  cbn [forallb] in Hevs. apply andb_true_iff in Hevs as [Hev Hevs].
  destruct ev as [| handle |]; [discriminate | |]; cbn [run step].
  - unfold tick. rewrite Hd, lookup_empty. now apply IH.
  - now apply IH.
Qed.

Lemma rain_stopped_intro (d : Doc) :
  intervals d = ∅ -> overlays d = [] -> rain_stopped d.
Proof.
  intros Hi Ho. split; [exact Hi |]. split; [exact Ho |].
  intros evs Hevs. now rewrite quiet_without_timers.
Qed.

(** [stopMatrixRain] where there is nothing to stop. *)
Lemma stop_at_rest (d : Doc) :
  intervals d = ∅ -> overlays d = [] ->
  exists d', stopMatrixRain d = Normal d' /\
             matrix_mode d' = matrix_mode d /\ rain_stopped d'.
Proof.
  intros Hi Ho. unfold stopMatrixRain, getElementById_matrix_rain.
  assert (E : overlays (clearInterval (matrixInterval d) d) = [])
    by (destruct (matrixInterval d); exact Ho).
  rewrite E. cbn [head truthy]. eexists. split; [reflexivity |].
  destruct (matrixInterval d) as [h |]; cbn [clearInterval].
  - split; [reflexivity |]. apply rain_stopped_intro; cbn.
    + rewrite Hi. apply delete_empty.
    + exact Ho.
  - split; [reflexivity |]. now apply rain_stopped_intro.
Qed.

(** [stopMatrixRain] on a running rain. *)
Lemma stop_running (d : Doc) :
  rain_running d ->
  exists d', stopMatrixRain d = Normal d' /\
             matrix_mode d' = matrix_mode d /\ rain_stopped d'.
Proof.
  intros (handle & node & Hm & Hi & Ho).
  unfold stopMatrixRain, getElementById_matrix_rain. rewrite Hm.
  cbn [clearInterval overlays]. rewrite Ho. cbn [head truthy member].
  eexists. split; [reflexivity |]. split; [reflexivity |].
  apply rain_stopped_intro; cbn.
  - rewrite Hi. apply delete_singleton_eq.
  - rewrite decide_False by auto. reflexivity.
Qed.

Lemma start_runs (d : Doc) :
  intervals d = ∅ -> overlays d = [] -> rain_running (startMatrixRain d).
Proof.
  intros Hi Ho. exists (next_interval d), (created d). cbn.
  rewrite Hi, Ho. split; [reflexivity |]. split; [| reflexivity].
  apply insert_empty.
Qed.

(** Apply a lemma about [stopMatrixRain] to the state it is called on in
    the goal. *)
Ltac at_stop lem :=
  match goal with
  | |- context [stopMatrixRain ?d1] =>
      let d' := fresh "d'" in
      let E := fresh "E" in
      let M := fresh "M" in
      let S := fresh "S" in
      destruct (lem d1) as (d' & E & M & S); [assumption .. |]
  end.

Lemma step_settled (ev : Event) (d : Doc) :
  rain_settled d ->
  exists d', step ev d = Normal d' /\ rain_settled d'.
Proof.
  intros Hd. destruct ev as [| handle |]; cbn [step].
  - unfold toggleMatrixMode. cbn [matrix_mode matrixInterval intervals
      next_interval overlays created resize_listeners rain_frames alerts].
    destruct Hd as [[Hi Ho] | [Hmode Hrun]].
    + destruct (matrix_mode d); cbn [negb].
      * at_stop stop_at_rest. exists d'. split; [exact E |].
        left. split; apply S.
      * eexists. split; [reflexivity |]. right. split; [reflexivity |].
        now apply start_runs.
    + rewrite Hmode. cbn [negb].
      at_stop stop_running. exists d'. split; [exact E |].
      left. split; apply S.
  - eexists. split; [reflexivity |]. unfold tick.
    destruct (intervals d !! handle); exact Hd.
  - eexists. split; [reflexivity |]. exact Hd.
Qed.

Lemma run_settled (evs : list Event) (d : Doc) :
  rain_settled d -> rain_settled (run evs d).
Proof.
  revert d. induction evs as [| ev evs IH]; intros d Hd; [exact Hd |].
  cbn [run]. destruct (step_settled ev d Hd) as (d' & E & Hd').
  rewrite E. now apply IH.
Qed.

Lemma reachable_settled (d : Doc) : reachable d -> rain_settled d.
Proof.
  intros (mode & evs & ->). apply run_settled. left. now split.
Qed.

(** C10. In every state the page can reach, [stopMatrixRain] ends
    normally and leaves the rain at rest: no timer is active, no overlay
    is in the document, and [draw] is not called again until a new
    toggle.  So does the toggle that leaves the matrix mode, which is the
    caller of [stopMatrixRain].  The removal is guarded: in any state
    without an overlay the call ends normally as well. *)
Theorem C10_stop_matrix_rain (d : Doc) :
  reachable d ->
  (exists d', stopMatrixRain d = Normal d' /\ rain_stopped d') /\
  (matrix_mode d = true ->
   exists d', toggleMatrixMode d = Normal d' /\
              matrix_mode d' = false /\ rain_stopped d') /\
  (forall d0 : Doc, overlays d0 = [] ->
   exists d1, stopMatrixRain d0 = Normal d1 /\ overlays d1 = []).
Proof.
  intros Hd. apply reachable_settled in Hd. split; [| split].
  - destruct Hd as [[Hi Ho] | [_ Hrun]].
    + destruct (stop_at_rest d Hi Ho) as (d' & E & _ & S). now exists d'.
    + destruct (stop_running d Hrun) as (d' & E & _ & S). now exists d'.
  - intros Hmode. unfold toggleMatrixMode.
    cbn [matrix_mode matrixInterval intervals next_interval overlays created
         resize_listeners rain_frames alerts].
    rewrite Hmode. cbn [negb].
    destruct Hd as [[Hi Ho] | [_ Hrun]].
    + at_stop stop_at_rest. now exists d'.
    + at_stop stop_running. now exists d'.
  - intros d0 Ho. unfold stopMatrixRain, getElementById_matrix_rain.
    assert (E : overlays (clearInterval (matrixInterval d0) d0) = [])
      by (destruct (matrixInterval d0); exact Ho).
    rewrite E. cbn [head truthy]. eexists. split; [reflexivity | exact E].
Qed.

Lemma C10_stop_matrix_rain_witness :
  let d := run [Konami; Tick 1; Tick 1; Resize] (loaded false) in
  reachable d /\
  exists d', stopMatrixRain d = Normal d' /\ rain_stopped d'.
Proof.
  intros d.
  assert (H : reachable d)
    by (exists false, [Konami; Tick 1; Tick 1; Resize]; reflexivity).
  split; [exact H |].
  exact (proj1 (C10_stop_matrix_rain d H)).
Defined.

(** The state of that run before the stop: the timer has fired twice on
    the one overlay. *)
Example rain_before_stop :
  let d := run [Konami; Tick 1; Tick 1; Resize] (loaded false) in
  overlays d = [0%nat] /\ rain_frames d = [0%nat; 0%nat] /\
  matrixInterval d = Some 1%nat /\ intervals d !! 1%nat = Some 0%nat.
Proof. vm_compute. repeat split. Qed.

(** * Further properties *)

(** ** The key sequence *)

Lemma toggle_returns (d : Doc) : exists d', toggleMatrixMode d = Normal d'.
Proof.
  unfold toggleMatrixMode. cbn [matrix_mode]. destruct (negb (matrix_mode d)).
  - eexists. reflexivity.
  - unfold stopMatrixRain.
    destruct (getElementById_matrix_rain _); cbn [truthy member];
      eexists; reflexivity.
Qed.

Lemma keydown_returns (key : string) (st : Konami.State) :
  exists st', Konami.keydown key st = Normal st'.
Proof.
  unfold Konami.keydown. destruct (Konami.key_matches key (Konami.index st)).
  - destruct (S (Konami.index st) =? length Konami.code)%nat.
    + destruct (toggle_returns (Konami.doc st)) as [d' ->]. eexists.
      reflexivity.
    + eexists. reflexivity.
  - eexists. reflexivity.
Qed.

Lemma key_matches_bound (key : string) (i : nat) :
  Konami.key_matches key i = true -> (i < length Konami.code)%nat.
Proof.
  unfold Konami.key_matches. intros H.
  destruct (Konami.code !! i) eqn:E; [| discriminate].
  now apply lookup_lt_Some in E.
Qed.

Lemma keydown_index (key : string) (st st' : Konami.State) :
  Konami.keydown key st = Normal st' ->
  (Konami.index st' < length Konami.code)%nat.
Proof.
  unfold Konami.keydown.
  destruct (Konami.key_matches key (Konami.index st)) eqn:M.
  - apply key_matches_bound in M.
    destruct (Nat.eqb_spec (S (Konami.index st)) (length Konami.code)).
    + destruct (toggleMatrixMode _); intros [= <-]; cbn. lia.
    + intros [= <-]. cbn [Konami.index]. lia.
  - intros [= <-]. cbn. lia.
Qed.

(** X1. Whatever keys are pressed, [index] stays below the length of the
    code, so that [code[index]] is always one of the ten keys. *)
Theorem konami_index_in_bounds (ks : list string) (d : Doc) :
  let st := Konami.keys ks (Konami.initKonamiCode d) in
  (Konami.index st < length Konami.code)%nat /\
  exists expected, Konami.code !! Konami.index st = Some expected.
Proof.
  assert (G : forall ks st, (Konami.index st < length Konami.code)%nat ->
            (Konami.index (Konami.keys ks st) < length Konami.code)%nat).
  { clear. induction ks as [| k ks IH]; intros st Hst; [exact Hst |].
    cbn [Konami.keys]. destruct (keydown_returns k st) as [st' E].
    rewrite E. apply IH. now apply keydown_index in E. }
  intros st. assert (B : (Konami.index st < length Konami.code)%nat).
  { apply G. cbn. lia. }
  split; [exact B |]. now apply lookup_lt_is_Some_2.
Qed.

Lemma keydown_accept (key : string) (st : Konami.State) :
  Konami.key_matches key (Konami.index st) = true ->
  S (Konami.index st) <> length Konami.code ->
  Konami.keydown key st =
  Normal {| Konami.index := S (Konami.index st);
            Konami.console :=
              Konami.console st ++
              [Konami.KeyAccepted key (S (Konami.index st))
                                  (length Konami.code)];
            Konami.doc := Konami.doc st |}.
Proof.
  intros M N. unfold Konami.keydown. rewrite M.
  now rewrite (proj2 (Nat.eqb_neq _ _) N).
Qed.

Lemma keydown_complete (key : string) (st : Konami.State) (d' : Doc) :
  Konami.key_matches key (Konami.index st) = true ->
  S (Konami.index st) = length Konami.code ->
  toggleMatrixMode (Konami.doc st) = Normal d' ->
  Konami.keydown key st =
  Normal {| Konami.index := 0;
            Konami.console :=
              (Konami.console st ++
               [Konami.KeyAccepted key (S (Konami.index st))
                                   (length Konami.code)]) ++
              [Konami.AccessGranted];
            Konami.doc := d' |}.
Proof.
  intros M N T. unfold Konami.keydown. rewrite M.
  now rewrite (proj2 (Nat.eqb_eq _ _) N), T.
Qed.

Lemma keydown_reject (key : string) (st : Konami.State) :
  Konami.key_matches key (Konami.index st) = false ->
  Konami.keydown key st =
  Normal {| Konami.index := 0;
            Konami.console :=
              if (0 <? Konami.index st)%nat
              then Konami.console st ++ [Konami.AccessDenied]
              else Konami.console st;
            Konami.doc := Konami.doc st |}.
Proof. intros M. unfold Konami.keydown. now rewrite M. Qed.

Lemma granted_snoc (c : list Konami.Message) (m : Konami.Message) :
  length (List.filter Konami.is_granted (c ++ [m])) =
  (length (List.filter Konami.is_granted c) +
   (if Konami.is_granted m then 1 else 0))%nat.
Proof.
  rewrite List.filter_app, length_app. cbn [List.filter].
  now destruct (Konami.is_granted m).
Qed.

Lemma key_matches_code (i : nat) (key : string) :
  Konami.code !! i = Some key -> Konami.key_matches key i = true.
Proof.
  intros E. unfold Konami.key_matches. rewrite E. apply String.eqb_refl.
Qed.

(** From any position, the rest of the code completes the sequence. *)
Lemma rest_of_code_toggles (n : nat) (st : Konami.State) :
  (Konami.index st + S n = length Konami.code)%nat ->
  exists d',
    toggleMatrixMode (Konami.doc st) = Normal d' /\
    let st' := Konami.keys (drop (Konami.index st) Konami.code) st in
    Konami.doc st' = d' /\ Konami.index st' = 0%nat /\
    Konami.granted st' = S (Konami.granted st).
Proof.
  revert st. induction n as [| n IH]; intros st Hi.
  - destruct (toggle_returns (Konami.doc st)) as [d' T]. exists d'.
    split; [exact T |].
    assert (E : Konami.index st = 9%nat) by (cbn in Hi; lia).
    rewrite E. cbn [drop Konami.code Konami.keys].
    rewrite (keydown_complete _ st d'); [| rewrite E; reflexivity
      | rewrite E; reflexivity | exact T].
    cbn [Konami.doc Konami.index]. split; [reflexivity |].
    split; [reflexivity |]. unfold Konami.granted. cbn [Konami.console].
    rewrite !granted_snoc. cbn. lia.
  - assert (B : (Konami.index st < length Konami.code)%nat) by lia.
    destruct (lookup_lt_is_Some_2 _ _ B) as [key K].
    rewrite (drop_S _ _ _ K). cbn [Konami.keys].
    rewrite keydown_accept; [| now apply key_matches_code | lia].
    match goal with |- context [Konami.keys _ ?s1] => set (st1 := s1) end.
    destruct (IH st1) as (d' & T & D & I & G).
    { subst st1. cbn [Konami.index]. lia. }
    exists d'. split; [exact T |].
    subst st1. cbn [Konami.index Konami.doc] in *.
    split; [exact D |]. split; [exact I |]. rewrite G.
    unfold Konami.granted. cbn [Konami.console]. rewrite granted_snoc.
    cbn. lia.
Qed.

(** X2. The ten keys, typed when [index] is 0, call [toggleMatrixMode]
    exactly once and leave [index] at 0; and so do the ten keys typed
    after any key that was not the expected one, wherever the sequence
    stood. *)
Theorem konami_code_toggles_once (st : Konami.State) (key : string) :
  let toggled st' :=
    Normal (Konami.doc st') = toggleMatrixMode (Konami.doc st) /\
    Konami.index st' = 0%nat /\
    Konami.granted st' = S (Konami.granted st) in
  (Konami.index st = 0%nat -> toggled (Konami.keys Konami.code st)) /\
  (Konami.key_matches key (Konami.index st) = false ->
   toggled (Konami.keys (key :: Konami.code) st)).
Proof.
  intros toggled. split.
  - intros H0. destruct (rest_of_code_toggles 9 st) as (d' & T & R).
    { rewrite H0. reflexivity. }
    cbv zeta in R. rewrite H0, drop_0 in R. destruct R as (D & I & G).
    subst toggled. cbv beta. rewrite T, D. auto.
  - intros M. cbn [Konami.keys]. rewrite keydown_reject by exact M.
    match goal with |- context [Konami.keys _ ?s1] => set (st1 := s1) end.
    destruct (rest_of_code_toggles 9 st1) as (d' & T & R);
      [reflexivity |].
    cbv zeta in R. subst st1. cbn [Konami.index Konami.doc] in *.
    rewrite drop_0 in R. destruct R as (D & I & G).
    subst toggled. cbv beta. rewrite T, D. split; [reflexivity |].
    split; [exact I |]. rewrite G. f_equal.
    unfold Konami.granted. cbn [Konami.console].
    destruct (0 <? Konami.index st)%nat; [| reflexivity].
    rewrite granted_snoc. cbn. lia.
Qed.

Lemma keys_app (ks1 ks2 : list string) (st : Konami.State) :
  Konami.keys (ks1 ++ ks2) st = Konami.keys ks2 (Konami.keys ks1 st).
Proof.
  revert st. induction ks1 as [| k ks1 IH]; intros st; [reflexivity |].
  cbn [app Konami.keys]. destruct (Konami.keydown k st); apply IH.
Qed.

(** Presses of ArrowUp from the start of the sequence: the third one is
    not the expected key, and it sets [index] back to 0 without being
    counted as a first key. *)
Lemma arrow_ups (n : nat) (st : Konami.State) :
  Konami.index st = 0%nat ->
  let st' := Konami.keys (repeat "ArrowUp"%string n) st in
  Konami.index st' = (n mod 3)%nat /\
  Konami.doc st' = Konami.doc st /\
  Konami.granted st' = Konami.granted st.
Proof.
  revert st. induction n as [n IH] using lt_wf_ind. intros st H0.
  destruct n as [| [| [| n]]].
  - cbn. auto.
  - cbn [repeat Konami.keys]. rewrite keydown_accept;
      [| rewrite H0; reflexivity | rewrite H0; discriminate].
    cbn [Konami.index Konami.doc]. rewrite H0. repeat split.
    unfold Konami.granted. cbn [Konami.console]. rewrite granted_snoc.
    cbn. lia.
  - cbn [repeat Konami.keys]. rewrite keydown_accept;
      [| rewrite H0; reflexivity | rewrite H0; discriminate].
    rewrite keydown_accept;
      [| cbn [Konami.index]; rewrite H0; reflexivity
       | cbn [Konami.index]; rewrite H0; discriminate].
    cbn [Konami.index Konami.doc]. rewrite H0. repeat split.
    unfold Konami.granted. cbn [Konami.console]. rewrite !granted_snoc.
    cbn. lia.
  - change (repeat "ArrowUp"%string (S (S (S n))))
      with (["ArrowUp"; "ArrowUp"; "ArrowUp"]%string
            ++ repeat "ArrowUp"%string n).
    rewrite keys_app. cbn [Konami.keys].
    rewrite keydown_accept;
      [| rewrite H0; reflexivity | rewrite H0; discriminate].
    rewrite keydown_accept;
      [| cbn [Konami.index]; rewrite H0; reflexivity
       | cbn [Konami.index]; rewrite H0; discriminate].
    rewrite keydown_reject
      by (cbn [Konami.index]; rewrite H0; reflexivity).
    match goal with |- context [Konami.keys _ ?s1] => set (st1 := s1) end.
    destruct (IH n ltac:(lia) st1 eq_refl) as (I & D & G).
    cbv zeta. rewrite I, D, G. subst st1.
    cbn [Konami.index Konami.doc]. rewrite H0.
    split; [| split; [reflexivity |]].
    + replace (S (S (S n))) with (n + 1 * 3)%nat by lia.
      now rewrite Nat.Div0.mod_add.
    + unfold Konami.granted. cbn [Konami.console Nat.ltb Nat.leb].
      rewrite !granted_snoc. cbn. lia.
Qed.

(** The last eight keys of the code, typed when fewer than two ArrowUp
    stand, get nowhere. *)
Lemma tail_of_code_rejected (st : Konami.State) :
  (Konami.index st < 2)%nat ->
  let st' := Konami.keys (drop 2 Konami.code) st in
  Konami.doc st' = Konami.doc st /\ Konami.granted st' = Konami.granted st.
Proof.
  intros H. destruct st as [i c d]. cbn [Konami.index] in H.
  destruct i as [| [| i]]; [| | lia].
  - cbn. auto.
  - cbn. split; [reflexivity |]. unfold Konami.granted.
    cbn [Konami.console]. rewrite granted_snoc. cbn. lia.
Qed.

(** X3. A press too many is not forgiven: [n] presses of ArrowUp followed
    by the other eight keys of the code toggle the matrix mode if [n] is
    2, 5, 8, ... and do nothing otherwise, because the key that breaks the
    sequence is not tried again as its first key. *)
Theorem konami_extra_arrow_ups (n : nat) (d : Doc) :
  let st := Konami.keys (repeat "ArrowUp"%string n ++ drop 2 Konami.code)
                        (Konami.initKonamiCode d) in
  if (n mod 3 =? 2)%nat
  then Normal (Konami.doc st) = toggleMatrixMode d /\
       Konami.granted st = 1%nat
  else Konami.doc st = d /\ Konami.granted st = 0%nat.
Proof.
  intros st. subst st. rewrite keys_app.
  destruct (arrow_ups n (Konami.initKonamiCode d) eq_refl) as (I & D & G).
  set (st1 := Konami.keys (repeat "ArrowUp"%string n)
                          (Konami.initKonamiCode d)) in *.
  cbv zeta in I, D, G. cbn [Konami.initKonamiCode Konami.doc] in D.
  change (Konami.granted (Konami.initKonamiCode d)) with 0%nat in G.
  destruct (Nat.eqb_spec (n mod 3) 2) as [E | E].
  - destruct (rest_of_code_toggles 7 st1) as (d' & T & D' & _ & G').
    { rewrite I, E. reflexivity. }
    rewrite I, E in D', G'. cbv zeta in D', G'.
    rewrite D', G', G, <- T, D. auto.
  - destruct (tail_of_code_rejected st1) as (D' & G').
    { rewrite I. pose proof (Nat.mod_upper_bound n 3). lia. }
    cbv zeta in D', G'. rewrite D', G', D, G. auto.
Qed.

Lemma keydown_cost (key : string) (st st' : Konami.State) :
  Konami.keydown key st = Normal st' ->
  (10 * Konami.granted st' + Konami.index st'
   <= 10 * Konami.granted st + Konami.index st + 1)%nat.
Proof.
  unfold Konami.keydown, Konami.granted.
  destruct (Konami.key_matches key (Konami.index st)).
  - destruct (Nat.eqb_spec (S (Konami.index st)) (length Konami.code))
      as [E | E].
    + destruct (toggleMatrixMode _); intros [= <-].
      cbn [Konami.index Konami.console]. rewrite !granted_snoc.
      cbn in *. lia.
    + intros [= <-]. cbn [Konami.index Konami.console].
      rewrite granted_snoc. cbn. lia.
  - intros [= <-]. cbn [Konami.index Konami.console].
    destruct (0 <? Konami.index st)%nat; [rewrite granted_snoc |]; cbn; lia.
Qed.

(** X4. Every toggle is paid for with ten keys of its own: after any
    keys, ten times the number of toggles plus the length of the sequence
    in progress is at most the number of keys pressed. *)
Theorem konami_ten_keys_per_toggle (ks : list string) (d : Doc) :
  let st := Konami.keys ks (Konami.initKonamiCode d) in
  (10 * Konami.granted st + Konami.index st <= length ks)%nat.
Proof.
  assert (G : forall ks st,
    (10 * Konami.granted (Konami.keys ks st) + Konami.index (Konami.keys ks st)
     <= 10 * Konami.granted st + Konami.index st + length ks)%nat).
  { clear. induction ks as [| k ks IH]; intros st; [cbn; lia |].
    cbn [Konami.keys length]. destruct (keydown_returns k st) as [st' E].
    rewrite E. apply keydown_cost in E. specialize (IH st'). lia. }
  intros st. subst st. specialize (G ks (Konami.initKonamiCode d)).
  change (Konami.granted (Konami.initKonamiCode d)) with 0%nat in G.
  cbn [Konami.initKonamiCode Konami.index] in G. lia.
Qed.

(** X5. Typed from the start of the sequence on a page whose rain is
    settled, the code switches the matrix mode: from off to a running
    rain with its one timer and one overlay, from on to a rain at rest. *)
Theorem konami_switches_rain (st : Konami.State) :
  Konami.index st = 0%nat ->
  rain_settled (Konami.doc st) ->
  let st' := Konami.keys Konami.code st in
  matrix_mode (Konami.doc st') = negb (matrix_mode (Konami.doc st)) /\
  (matrix_mode (Konami.doc st) = false -> rain_running (Konami.doc st')) /\
  (matrix_mode (Konami.doc st) = true -> rain_stopped (Konami.doc st')).
Proof.
  intros H0 Hd st'.
  destruct (rest_of_code_toggles 9 st) as (d' & T & R).
  { rewrite H0. reflexivity. }
  cbv zeta in R. rewrite H0, drop_0 in R. destruct R as (D & _).
  fold st' in D. rewrite D. clear D st'. unfold toggleMatrixMode in T.
  cbn [matrix_mode matrixInterval intervals next_interval overlays created
       resize_listeners rain_frames alerts] in T.
  destruct (matrix_mode (Konami.doc st)) eqn:Hmode; cbn [negb] in T.
  - assert (R : exists d1, stopMatrixRain
      {| matrix_mode := false;
         matrixInterval := matrixInterval (Konami.doc st);
         intervals := intervals (Konami.doc st);
         next_interval := next_interval (Konami.doc st);
         overlays := overlays (Konami.doc st);
         created := created (Konami.doc st);
         resize_listeners := MatrixRain.resize_listeners (Konami.doc st);
         rain_frames := rain_frames (Konami.doc st);
         alerts := alerts (Konami.doc st) |} = Normal d1 /\
        matrix_mode d1 = false /\ rain_stopped d1).
    { destruct Hd as [[Hi Ho] | [_ Hrun]].
      - now apply stop_at_rest.
      - now apply stop_running. }
    destruct R as (d1 & E & M & R). rewrite E in T.
    assert (d1 = d') as -> by congruence.
    split; [exact M |]. split; [discriminate | auto].
  - destruct Hd as [[Hi Ho] | [Habs _]]; [| congruence].
    match type of T with Normal ?d1 = _ =>
      assert (d1 = d') as <- by congruence
    end.
    split; [reflexivity |].
    split; [| discriminate]. intros _. now apply start_runs.
Qed.

Lemma konami_switches_rain_witness :
  let st := Konami.initKonamiCode (loaded false) in
  Konami.index st = 0%nat /\ rain_settled (Konami.doc st) /\
  matrix_mode (Konami.doc (Konami.keys Konami.code st)) = true.
Proof.
  intros st.
  assert (H0 : Konami.index st = 0%nat) by reflexivity.
  assert (H1 : rain_settled (Konami.doc st)) by (left; split; reflexivity).
  split; [exact H0 |]. split; [exact H1 |].
  exact (proj1 (konami_switches_rain st H0 H1)).
Defined.

(** ** More on the glyph rain *)

Lemma step_follows_mode (ev : Event) (d : Doc) :
  (if matrix_mode d then rain_running d
   else intervals d = ∅ /\ overlays d = []) ->
  exists d', step ev d = Normal d' /\
    if matrix_mode d' then rain_running d'
    else intervals d' = ∅ /\ overlays d' = [].
Proof.
  intros Hd. destruct ev as [| handle |]; cbn [step].
  - unfold toggleMatrixMode. cbn [matrix_mode matrixInterval intervals
      next_interval overlays created resize_listeners rain_frames alerts].
    destruct (matrix_mode d); cbn [negb].
    + at_stop stop_running. exists d'. split; [exact E |].
      rewrite M. cbn [matrix_mode]. split; apply S.
    + destruct Hd as [Hi Ho]. eexists. split; [reflexivity |].
      cbn [startMatrixRain matrix_mode]. now apply start_runs.
  - eexists. split; [reflexivity |]. unfold tick.
    destruct (intervals d !! handle); exact Hd.
  - eexists. split; [reflexivity |]. exact Hd.
Qed.

Lemma run_follows_mode (evs : list Event) (d : Doc) :
  (if matrix_mode d then rain_running d
   else intervals d = ∅ /\ overlays d = []) ->
  if matrix_mode (run evs d) then rain_running (run evs d)
  else intervals (run evs d) = ∅ /\ overlays (run evs d) = [].
Proof.
  revert d. induction evs as [| ev evs IH]; intros d Hd; [exact Hd |].
  cbn [run]. destruct (step_follows_mode ev d Hd) as (d' & E & Hd').
  rewrite E. now apply IH.
Qed.

(** X6. In every state the page can reach there is at most one overlay
    and at most one active timer, and there is an overlay exactly when
    there is a timer; on a page loaded without the class, both exist
    exactly while the matrix mode is on. *)
Theorem rain_is_exclusive (mode : bool) (evs : list Event) :
  let d := run evs (loaded mode) in
  (length (overlays d) <= 1)%nat /\
  (size (intervals d) <= 1)%nat /\
  (overlays d = [] <-> intervals d = ∅) /\
  (mode = false -> (matrix_mode d = true <-> overlays d <> [])).
Proof.
  intros d.
  assert (S : rain_settled d).
  { apply reachable_settled. now exists mode, evs. }
  assert (F : mode = false ->
              if matrix_mode d then rain_running d
              else intervals d = ∅ /\ overlays d = []).
  { intros ->. apply run_follows_mode. now split. }
  split; [| split; [| split]].
  - destruct S as [[_ ->] | [_ (h & c & _ & _ & ->)]]; cbn; lia.
  - destruct S as [[-> _] | [_ (h & c & _ & -> & _)]].
    + rewrite map_size_empty. lia.
    + rewrite map_size_singleton. lia.
  - destruct S as [[Hi Ho] | [_ (h & c & _ & Hi & Ho)]];
      rewrite Hi, Ho; split; try reflexivity; try discriminate;
      intros E; now apply map_non_empty_singleton in E.
  - intros Hmode. specialize (F Hmode).
    destruct (matrix_mode d).
    + destruct F as (h & c & _ & _ & ->). split; [discriminate | reflexivity].
    + destruct F as [_ ->]. split; [discriminate | intros N; now destruct N].
Qed.

Lemma rain_is_exclusive_witness :
  let d := run [Konami; Tick 1; Konami; Konami] (loaded false) in
  false = false /\ (matrix_mode d = true <-> overlays d <> []).
Proof.
  intros d. split; [reflexivity |].
  exact (proj2 (proj2 (proj2
    (rain_is_exclusive false [Konami; Tick 1; Konami; Konami]))) eq_refl).
Defined.

Lemma stop_keeps (d d' : Doc) :
  stopMatrixRain d = Normal d' ->
  matrix_mode d' = matrix_mode d /\
  created d' = created d /\
  MatrixRain.resize_listeners d' = MatrixRain.resize_listeners d /\
  alerts d' = alerts d.
Proof.
  unfold stopMatrixRain.
  destruct (getElementById_matrix_rain _); cbn [truthy member];
    intros [= <-]; destruct (matrixInterval d); cbn; auto.
Qed.

Lemma step_counts (ev : Event) (d d' : Doc) :
  step ev d = Normal d' ->
  (MatrixRain.resize_listeners d = seq 0 (created d) ->
   MatrixRain.resize_listeners d' = seq 0 (created d')) /\
  (alerts d = created d -> alerts d' = created d') /\
  (2 * created d' + (if matrix_mode d then 1 else 0) =
   2 * created d + (if is_toggle ev then 1 else 0)
   + (if matrix_mode d' then 1 else 0))%nat.
Proof.
  destruct ev as [| handle |]; cbn [step is_toggle].
  - unfold toggleMatrixMode. cbn [matrix_mode matrixInterval intervals
      next_interval overlays created resize_listeners rain_frames alerts].
    destruct (matrix_mode d); cbn [negb].
    + intros E. apply stop_keeps in E as (M & C & L & A).
      cbn in M, C, L, A. rewrite M, C, L, A. repeat split; auto; lia.
    + intros [= <-]. unfold startMatrixRain.
      cbn [matrix_mode created MatrixRain.resize_listeners alerts].
      repeat split.
      * intros ->. now rewrite seq_S.
      * intros ->. reflexivity.
      * lia.
  - intros [= <-]. unfold tick. destruct (intervals d !! handle); cbn;
      repeat split; auto; lia.
  - intros [= <-]. repeat split; auto; lia.
Qed.

(** X7. [stopMatrixRain] takes no resize listener away: in every state
    the page can reach, each canvas that [startMatrixRain] ever created
    still has its listener on the window, and [alert] was called once for
    each, while at most one of these canvases is in the document.  After
    [k] toggles on a page loaded without the class that makes [k / 2]
    listeners, rounded up. *)
Theorem rain_listeners_accumulate (mode : bool) (evs : list Event) :
  let d := run evs (loaded mode) in
  let toggles := length (List.filter is_toggle evs) in
  MatrixRain.resize_listeners d = seq 0 (created d) /\
  alerts d = created d /\
  (length (overlays d) <= 1)%nat /\
  (2 * length (MatrixRain.resize_listeners d) + (if mode then 1 else 0) =
   toggles + (if matrix_mode d then 1 else 0))%nat.
Proof.
  intros d toggles.
  assert (G : forall evs d0,
    rain_settled d0 ->
    (MatrixRain.resize_listeners d0 = seq 0 (created d0) ->
     MatrixRain.resize_listeners (run evs d0) = seq 0 (created (run evs d0)))
    /\ (alerts d0 = created d0 -> alerts (run evs d0) = created (run evs d0))
    /\ (2 * created (run evs d0) + (if matrix_mode d0 then 1 else 0) =
        2 * created d0 + length (List.filter is_toggle evs)
        + (if matrix_mode (run evs d0) then 1 else 0))%nat).
  { clear. induction evs as [| ev evs IH]; intros d0 S0.
    - cbn. repeat split; auto; lia.
    - cbn [run]. destruct (step_settled ev d0 S0) as (d1 & E & S1).
      rewrite E. destruct (step_counts ev d0 d1 E) as (L & A & C).
      destruct (IH d1 S1) as (L' & A' & C').
      repeat split; auto. cbn [List.filter].
      destruct (is_toggle ev); cbn [length]; lia. }
  assert (S0 : rain_settled (loaded mode)) by (left; split; reflexivity).
  destruct (G evs (loaded mode) S0) as (L & A & C).
  fold d in L, A, C. specialize (L eq_refl). specialize (A eq_refl).
  split; [exact L |]. split; [exact A |]. split.
  - destruct (run_settled evs _ S0) as [[_ O] | [_ (h & c & _ & _ & O)]];
      fold d in O; rewrite O; cbn; lia.
  - rewrite L, length_seq. cbn [loaded matrix_mode created] in C.
    subst toggles. lia.
Qed.

(** ** The drawing of the glyph rain *)

Lemma below_columns (x : nat) (c : Q) :
  Qltb (inject_Z (Z.of_nat x)) c = (x <? Z.to_nat (Qceiling c))%nat.
Proof.
  destruct (Nat.ltb_spec x (Z.to_nat (Qceiling c))) as [L | L].
  - apply Qltb_lt. apply Qle_lt_trans with (inject_Z (Qceiling c - 1)).
    + rewrite <- Zle_Qle. lia.
    + apply Qceiling_lt.
  - apply Qltb_ge. apply Qle_trans with (inject_Z (Qceiling c)).
    + apply Qle_ceiling.
    + rewrite <- Zle_Qle. lia.
Qed.

Lemma fill_columns_run (columns : Q) (fuel x : nat) (drops : list nat) :
  let n := Z.to_nat (Qceiling columns) in
  (n - x < fuel)%nat ->
  Rain.fill_columns fuel x columns drops =
  Some (drops ++ replicate (n - x) 1%nat).
Proof.
  intros n. revert x drops. induction fuel as [| fuel IH]; intros x drops H;
    [lia |].
  cbn [Rain.fill_columns]. rewrite below_columns. fold n.
  destruct (Nat.ltb_spec x n) as [L | L].
  - rewrite IH by lia. replace (n - x)%nat with (S (n - S x)) by lia.
    cbn [replicate]. now rewrite <- app_assoc.
  - replace (n - x)%nat with 0%nat by lia. cbn. now rewrite app_nil_r.
Qed.

(** X8. [startMatrixRain] gives the rain one column for each started 16
    pixels of the width of the window, every drop at row 1, and none for
    a width of 0; the loop ends by its own test, for every width. *)
Theorem rain_columns (innerWidth innerHeight : Q) :
  Rain.start innerWidth innerHeight =
  Some {| Rain.canvas_width := innerWidth;
          Rain.canvas_height := innerHeight;
          Rain.rainDrops :=
            replicate (Z.to_nat (Qceiling (innerWidth / 16))) 1%nat |}.
Proof.
  unfold Rain.start, Rain.fontSize. rewrite fill_columns_run by lia.
  now rewrite Nat.sub_0_r.
Qed.

(** The widths of common windows. *)
Example rain_columns_of_widths :
  (forall c, Rain.start 1920 1080 = Some c ->
             length (Rain.rainDrops c) = 120%nat) /\
  (forall c, Rain.start 1366 768 = Some c ->
             length (Rain.rainDrops c) = 86%nat) /\
  (forall c, Rain.start 0 0 = Some c -> Rain.rainDrops c = []).
Proof.
  repeat split; intros c; rewrite rain_columns; intros [= <-];
    vm_compute; reflexivity.
Qed.

(** The alphabet has 130 units; the digits and Z are in it twice, at the
    end of the first string and in the other two. *)
Example rain_alphabet :
  length Rain.alphabet = 130%nat /\
  Rain.charAt Rain.alphabet 0 = Some 12450%N /\
  Rain.charAt Rain.alphabet 129 = Some 57%N /\
  Rain.charAt Rain.alphabet 130 = None /\
  length (List.filter (N.eqb 90) Rain.alphabet) = 2%nat.
Proof. vm_compute. repeat split. Qed.

Lemma draw_column_run (h : Q) (i drop : nat) (g : Rand) :
  let r := Rain.draw_column h i drop g in
  (fst (fst r) = S drop \/
   (fst (fst r) = 1%nat /\ h < inject_Z (Z.of_nat drop) * 16)) /\
  snd (fst r) =
    Rain.FillText
      (Rain.charAt Rain.alphabet
         (Qfloor (g 0%nat * inject_Z (Z.of_nat (length Rain.alphabet)))))
      (inject_Z (Z.of_nat i) * 16) (inject_Z (Z.of_nat drop) * 16) /\
  (unit_draws g -> unit_draws (snd r)).
Proof.
  unfold Rain.draw_column, bind, Math_random, Rain.fontSize, ret.
  destruct (Qltb_cases h (inject_Z (Z.of_nat drop) * 16)) as [[-> A] | [-> A]].
  - cbn [fst snd]. split; [| split; [reflexivity |]].
    + destruct (Qltb 0.975 (g 1%nat)); auto.
    + intros U. exact (unit_draws_tail g 2 U).
  - cbn [fst snd]. split; [auto | split; [reflexivity |]].
    intros U. exact (unit_draws_tail g 1 U).
Qed.

Lemma draw_columns_run (h : Q) (drops : list nat) (i : nat) (g : Rand) :
  let r := Rain.draw_columns h i drops g in
  length (fst (fst r)) = length drops /\
  length (snd (fst r)) = length drops /\
  (forall k d, drops !! k = Some d ->
     exists d' t,
       fst (fst r) !! k = Some d' /\
       (d' = S d \/ (d' = 1%nat /\ h < inject_Z (Z.of_nat d) * 16)) /\
       snd (fst r) !! k =
         Some (Rain.FillText t (inject_Z (Z.of_nat (i + k)) * 16)
                             (inject_Z (Z.of_nat d) * 16)) /\
       (unit_draws g -> exists u, t = Some u /\ u ∈ Rain.alphabet)) /\
  (unit_draws g -> unit_draws (snd r)).
Proof.
  revert i g. induction drops as [| drop rest IH]; intros i g.
  - cbn [Rain.draw_columns]. unfold ret. cbn [fst snd length].
    split; [reflexivity |]. split; [reflexivity |]. split; [| auto].
    intros k d E. now rewrite lookup_nil in E.
  - cbn [Rain.draw_columns]. unfold bind.
    destruct (draw_column_run h i drop g) as (C & O & U).
    destruct (Rain.draw_column h i drop g) as [r1 g1]. cbn [fst snd] in C, O, U.
    destruct (IH (S i) g1) as (L1 & L2 & K & U').
    destruct (Rain.draw_columns h (S i) rest g1) as [rs g2].
    cbn [fst snd ret length] in *.
    split; [congruence |]. split; [congruence |]. split; [| auto].
    intros [| k] d E.
    + injection E as ->. eexists _, _. split; [reflexivity |].
      split; [exact C |]. rewrite O, Nat.add_0_r. split; [reflexivity |].
      intros Ug. destruct (Ug 0%nat) as [G0 G1].
      unfold Rain.charAt.
      set (q := g 0%nat * inject_Z (Z.of_nat (length Rain.alphabet))).
      assert (Q0 : 0 <= q).
      { subst q. apply Qmult_le_0_compat; [exact G0 |].
        change 0 with (inject_Z 0). rewrite <- Zle_Qle. lia. }
      assert (Q1 : q < inject_Z (Z.of_nat (length Rain.alphabet))).
      { subst q. rewrite <- (Qmult_1_l (inject_Z _)) at 2.
        apply Qmult_lt_compat_r; [| exact G1].
        change 0 with (inject_Z 0). rewrite <- Zlt_Qlt. cbn. lia. }
      assert (F0 : (0 <= Qfloor q)%Z).
      { rewrite <- (Qfloor_Z 0). now apply Qfloor_resp_le. }
      assert (F1 : (Qfloor q < Z.of_nat (length Rain.alphabet))%Z).
      { rewrite Zlt_Qlt. apply Qle_lt_trans with q; [apply Qfloor_le | exact Q1]. }
      destruct (Z.ltb_spec (Qfloor q) 0) as [N | _]; [lia |].
      destruct (lookup_lt_is_Some_2 Rain.alphabet (Z.to_nat (Qfloor q)))
        as [u Eu]; [lia |].
      exists u. split; [exact Eu |]. now apply list_elem_of_lookup_2 in Eu.
    + cbn in E. destruct (K k d E) as (d' & t & E1 & E2 & E3 & E4).
      exists d', t. cbn [lookup list_lookup]. split; [exact E1 |].
      split; [exact E2 |]. split.
      * replace (i + S k)%nat with (S i + k)%nat by lia. exact E3.
      * intros Ug. apply E4. now apply U.
Qed.

(** X9. One call of [draw] paints the translucent rectangle over the
    canvas and then one glyph for each column, at 16 times the column and
    16 times the row of its drop.  The array keeps its length, and every
    drop moves on by one row or, only if it was below the canvas, starts
    again at row 1; the size of the canvas is not touched. *)
Theorem rain_draw_step (c : Rain.Closure) (g : Rand) :
  let r := fst (Rain.draw c g) in
  let c' := fst r in
  let ops := snd r in
  Rain.canvas_width c' = Rain.canvas_width c /\
  Rain.canvas_height c' = Rain.canvas_height c /\
  length (Rain.rainDrops c') = length (Rain.rainDrops c) /\
  length ops = S (length (Rain.rainDrops c)) /\
  ops !! 0%nat =
    Some (Rain.FillRect 0 0 (Rain.canvas_width c) (Rain.canvas_height c)) /\
  forall k d, Rain.rainDrops c !! k = Some d ->
    exists d' t,
      Rain.rainDrops c' !! k = Some d' /\
      (d' = S d \/
       (d' = 1%nat /\ Rain.canvas_height c < inject_Z (Z.of_nat d) * 16)) /\
      ops !! S k =
        Some (Rain.FillText t (inject_Z (Z.of_nat k) * 16)
                            (inject_Z (Z.of_nat d) * 16)).
Proof.
  unfold Rain.draw, bind.
  destruct (draw_columns_run (Rain.canvas_height c) (Rain.rainDrops c) 0 g)
    as (L1 & L2 & K & _).
  destruct (Rain.draw_columns _ 0 (Rain.rainDrops c) g) as [rs g1].
  cbn [fst snd ret Rain.canvas_width Rain.canvas_height Rain.rainDrops
       length] in *.
  repeat split; auto.
  intros k d E. destruct (K k d E) as (d' & t & E1 & E2 & E3 & _).
  exists d', t. auto.
Qed.

(** X10. Every glyph that [draw] paints is a character of the alphabet:
    the index that [Math.floor(Math.random() * alphabet.length)] computes
    is within the string, so [charAt] never returns the empty string. *)
Theorem rain_glyphs_from_alphabet (c : Rain.Closure) (g : Rand)
    (k : nat) (t : option N) (left top : Q) :
  unit_draws g ->
  snd (fst (Rain.draw c g)) !! k = Some (Rain.FillText t left top) ->
  exists u : N, t = Some u /\ u ∈ Rain.alphabet.
Proof.
  intros U. unfold Rain.draw, bind.
  destruct (draw_columns_run (Rain.canvas_height c) (Rain.rainDrops c) 0 g)
    as (L1 & L2 & K & _).
  destruct (Rain.draw_columns _ 0 (Rain.rainDrops c) g) as [rs g1].
  cbn [fst snd ret] in *. destruct k as [| k]; [discriminate |].
  intros E. change (rs.2 !! k = Some (Rain.FillText t left top)) in E.
  assert (B : (k < length (Rain.rainDrops c))%nat).
  { rewrite <- L2. now apply lookup_lt_Some in E. }
  destruct (lookup_lt_is_Some_2 _ _ B) as [d Ed].
  destruct (K k d Ed) as (d' & t' & _ & _ & E3 & E4).
  rewrite E3 in E. injection E as -> _ _. now apply E4.
Qed.

Lemma rain_glyphs_from_alphabet_witness :
  let c := {| Rain.canvas_width := 32; Rain.canvas_height := 100;
              Rain.rainDrops := [1%nat; 1%nat] |} in
  unit_draws (fun _ => 0.5) /\
  snd (fst (Rain.draw c (fun _ => 0.5))) !! 1%nat =
    Some (Rain.FillText (Some 12467%N) 0 16) /\
  exists u : N, Some 12467%N = Some u /\ u ∈ Rain.alphabet.
Proof.
  intros c.
  assert (H1 : unit_draws (fun _ => 0.5)) by (intros n; split; lra).
  assert (H2 : snd (fst (Rain.draw c (fun _ => 0.5))) !! 1%nat =
               Some (Rain.FillText (Some 12467%N) 0 16))
    by (vm_compute; reflexivity).
  split; [exact H1 |]. split; [exact H2 |].
  exact (rain_glyphs_from_alphabet c (fun _ => 0.5) 1 _ _ _ H1 H2).
Defined.

Lemma rain_run_inv (evs : list Rain.Event) (c : Rain.Closure) (g : Rand) :
  let c' := fst (fst (Rain.run evs c g)) in
  length (Rain.rainDrops c') = length (Rain.rainDrops c) /\
  (Forall (fun d => 1 <= d)%nat (Rain.rainDrops c) ->
   Forall (fun d => 1 <= d)%nat (Rain.rainDrops c')).
Proof.
  revert c g. induction evs as [| ev evs IH]; intros c g; [now split |].
  destruct ev as [| w h]; cbn [Rain.run].
  - unfold bind.
    pose proof (rain_draw_step_aux := draw_columns_run
      (Rain.canvas_height c) (Rain.rainDrops c) 0 g).
    unfold Rain.draw, bind.
    destruct (Rain.draw_columns _ 0 (Rain.rainDrops c) g) as [rs g1].
    cbn [fst snd ret] in *.
    destruct rain_draw_step_aux as (L1 & _ & K & _).
    match goal with |- context [Rain.run evs ?c1 g1] =>
      destruct (IH c1 g1) as (L & F);
      destruct (Rain.run evs c1 g1) as [r2 g2]
    end.
    unfold ret. cbn [fst snd Rain.rainDrops] in *. split; [congruence |].
    intros _. apply F. apply Forall_lookup. intros k d' E.
    assert (B : (k < length (Rain.rainDrops c))%nat).
    { rewrite <- L1. now apply lookup_lt_Some in E. }
    destruct (lookup_lt_is_Some_2 _ _ B) as [d Ed].
    destruct (K k d Ed) as (d'' & t & E1 & E2 & _).
    rewrite E1 in E. injection E as <-. destruct E2 as [-> | [-> _]]; lia.
  - apply (IH (Rain.on_resize w h c) g).
Qed.

(** X11. The number of columns is fixed when the rain starts: whatever
    draws and resizes follow, the array has one drop for each started 16
    pixels of the width the window had at the start, however wide the
    canvas has become, and no drop is above row 1. *)
Theorem rain_columns_fixed (innerWidth innerHeight : Q)
    (evs : list Rain.Event) (g : Rand) :
  exists c : Rain.Closure,
    Rain.start innerWidth innerHeight = Some c /\
    let c' := fst (fst (Rain.run evs c g)) in
    length (Rain.rainDrops c') = Z.to_nat (Qceiling (innerWidth / 16)) /\
    Forall (fun d => 1 <= d)%nat (Rain.rainDrops c').
Proof.
  eexists. split; [apply rain_columns |].
  match goal with |- context [Rain.run evs ?c0 g] =>
    destruct (rain_run_inv evs c0 g) as (L & F)
  end.
  cbn [Rain.rainDrops] in L, F. cbv zeta. split.
  - rewrite L. apply length_replicate.
  - apply F. apply Forall_replicate. lia.
Qed.

(** After a resize to twice the width the rain still has the columns of
    the first width. *)
Example rain_after_widening :
  forall c, Rain.start 320 200 = Some c ->
  let c' := fst (fst (Rain.run [Rain.Draw; Rain.Resized 640 200; Rain.Draw]
                               c (fun _ => 0.5))) in
  Rain.canvas_width c' = 640 /\ length (Rain.rainDrops c') = 20%nat.
Proof.
  intros c. rewrite rain_columns. intros [= <-]. vm_compute.
  split; reflexivity.
Qed.

(** ** More on the starfield *)

Module RoundedBand.

Import Double DoubleFacts Rounded Spec64 Shape64.
Local Open Scope Q_scope.

Lemma opacity_in_band (s : Star.t) :
  twinkle_inv s ->
  opacity_min <= Star.opacity s /\ Star.opacity s <= opacity_max.
Proof.
  intros T. destruct (twinkle_inv_bounds64 s T) as [A B].
  destruct T as (_ & V0 & V1 & _). unfold opacity_min, opacity_max. split.
  - apply Qle_trans with (2 := A). apply sub_le; lra.
  - apply Qle_trans with (1 := B). apply add_le; lra.
Qed.

(** The ranges that [reset] gives to depth, size and twinkle speed. *)
Lemma reset_ranges (g : Rand) :
  double_draws g ->
  let z := add (mul (g 1%nat) 2) 0.5 in
  let size := mul (g 2%nat) 1.5 in
  let speed := mul (g 4%nat) (lit 0.05) in
  (0.5 <= z /\ z <= 2.5) /\ (0 <= size /\ size < 1.5) /\ speed < lit 0.05.
Proof.
  intros Hg z size speed.
  destruct (Hg 1%nat) as (_ & Z0 & Z1), (Hg 2%nat) as (D2 & S0 & S1),
    (Hg 4%nat) as (D4 & V0 & V1).
  pose proof (unit_draw_max _ D2 S1) as S2.
  pose proof (unit_draw_max _ D4 V1) as V2.
  assert (L5 : 0 <= lit 0.05) by qle.
  split; [| split].
  - assert (M0 : 0 <= mul (g 1%nat) 2) by (apply mul_nonneg; lra).
    assert (M1 : mul (g 1%nat) 2 <= 2).
    { apply round_le_hi; [unfold double; qeq | lra]. }
    split.
    + apply round_ge; [unfold double; qeq | lra].
    + apply round_le_hi; [unfold double; qeq | lra].
  - split; [apply mul_nonneg; lra |].
    apply Qle_lt_trans with (mul (1 - 2 ^ (-53)) 1.5); [| qlt].
    apply mul_le; lra.
  - apply Qle_lt_trans with (mul (1 - 2 ^ (-53)) (lit 0.05)); [| qlt].
    apply mul_le; lra.
Qed.

Lemma reset_in_band64 (w h : Q) (g : Rand) :
  double_draws g -> 0 <= h -> star_in_band h (fst (Star64.reset w g)).
Proof.
  intros U H. split; [now apply reset_inv64 |].
  destruct (reset_ranges g U) as (Z & S & V).
  rewrite reset_run64.
  cbn [fst Star.y Star.z Star.size Star.twinkleSpeed].
  split; [unfold double; qeq |]. split; [split; lra |].
  split; [exact Z |]. split; [exact S | exact V].
Qed.

Lemma constructor_in_band64 (w h : Q) (g : Rand) :
  double_draws g -> double h -> 0 <= h ->
  star_in_band h (fst (Star64.constructor w h g)).
Proof.
  intros U D H. split; [now apply constructor_inv64 |].
  destruct (reset_ranges g U) as (Z & S & V).
  destruct (U 5%nat) as (_ & Y0 & Y1).
  rewrite constructor_run64.
  cbn [fst Star.y Star.z Star.size Star.twinkleSpeed].
  assert (0 <= mul (g 5%nat) h) as A by (apply mul_nonneg; lra).
  assert (mul (g 5%nat) h <= h) as B.
  { apply round_le_hi; [exact D |].
    rewrite <- (Qmult_1_l h) at 2. apply Qmult_le_compat_r; lra. }
  split; [apply mul_double |]. split; [split; lra |].
  split; [exact Z |]. split; [exact S | exact V].
Qed.

Lemma update_in_band64 (w h : Q) (s : Star.t) (g : Rand) :
  double_draws g -> 0 <= h -> star_in_band h s ->
  star_in_band h (fst (Star64.update w h s g)).
Proof.
  intros U H (T & D & Y & Z & R & V).
  destruct (Qlt_le_dec h (add (Star.y s) (mul (Star.z s) (lit 0.2))))
    as [L | L].
  - rewrite update_recycle64 by exact L. now apply reset_in_band64.
  - rewrite update_keep64 by exact L. cbn [fst].
    split; [now apply twinkle_drift_inv64 |].
    unfold Star64.twinkle, Star64.drift.
    cbn [Star.y Star.z Star.size Star.twinkleSpeed].
    assert (0 <= lit 0.2) as L2 by qle.
    assert (0 <= mul (Star.z s) (lit 0.2)) as M by (apply mul_nonneg; lra).
    split; [apply add_double |]. split; [split; [| exact L] |].
    + apply Qle_trans with (Star.y s); [lra |].
      apply round_ge; [exact D | lra].
    + split; [exact Z |]. split; [exact R | exact V].
Qed.

Lemma push_stars_in_band64 (n : nat) (w h : Q) (g : Rand) :
  double_draws g -> double h -> 0 <= h ->
  Forall (star_in_band h) (fst (Starfield64.push_stars n w h [] g)).
Proof.
  intros U D H. apply Forall_lookup. intros i s E.
  assert (B : (i < n)%nat).
  { apply lookup_lt_Some in E. rewrite push_stars_length64 in E.
    cbn in E. lia. }
  rewrite push_stars_lookup64 in E by exact B.
  pose proof (constructor_in_band64 w h (fun k => g (6 * i + k)%nat)
                (draws_tail g (6 * i) U) D H) as C.
  injection E as <-. exact C.
Qed.

Lemma resize_in_band64 (win : Window) (f : Field) (g : Rand) :
  double_draws g -> double (innerHeight win) -> 0 <= innerHeight win ->
  let f' := fst (Starfield64.resize win f g) in
  height f' = innerHeight win /\
  Forall (star_in_band (height f')) (stars f') /\
  double_draws (snd (Starfield64.resize win f g)).
Proof.
  intros U D H. unfold Starfield64.resize, Starfield64.initStars, bind.
  cbn [width height].
  pose proof (push_stars_in_band64 baseStarCount (innerWidth win)
                (innerHeight win) g U D H) as B.
  pose proof (push_stars_draws64 baseStarCount (innerWidth win)
                (innerHeight win) [] g U) as G.
  destruct (Starfield64.push_stars _ _ _ [] g) as [pool g1].
  cbn [fst snd ret height stars] in *. auto.
Qed.

Lemma forEach_in_band64 (w h : Q) (p : Number) (pool : list Star.t)
    (k : nat) (g : Rand) :
  double_draws g -> 0 <= h ->
  Forall (star_in_band h) pool ->
  Forall (star_in_band h)
         (fst (fst (forEach (Starfield64.each_star w h p) k pool g))) /\
  double_draws (snd (forEach (Starfield64.each_star w h p) k pool g)).
Proof.
  intros U H. revert k g U. induction pool as [| s pool IH]; intros k g U F;
    [now split |].
  apply Forall_cons in F as [Fs F]. cbn [forEach].
  unfold bind, Starfield64.each_star at 1 3. unfold bind.
  pose proof (update_in_band64 w h s g U H Fs) as Bs.
  pose proof (update_draws64 w h s g U) as Us.
  destruct (Star64.update w h s g) as [s' g1]. unfold ret at 1 3.
  destruct (IH (S k) g1 Us F) as (B & U').
  destruct (forEach _ (S k) pool g1) as [rs g2].
  cbn [fst snd ret] in *. split; [now constructor | exact U'].
Qed.

Lemma animate_in_band64 (win : Window) (f : Field) (g : Rand) :
  double_draws g -> 0 <= height f ->
  Forall (star_in_band (height f)) (stars f) ->
  let f' := fst (fst (Starfield64.animate win f g)) in
  height f' = height f /\
  Forall (star_in_band (height f)) (stars f') /\
  double_draws (snd (Starfield64.animate win f g)).
Proof.
  intros U H F. unfold Starfield64.animate, bind.
  destruct (forEach_in_band64 (width f) (height f)
              (Starfield64.scrollProgress win) (stars f) 0 g U H F)
    as (B & U1).
  destruct (forEach _ 0 (stars f) g) as [r g1]. unfold ret.
  cbn [fst snd height stars] in *. auto.
Qed.

Lemma frames_in_band64 (wins : list Window) (f : Field) (g : Rand) :
  double_draws g -> 0 <= height f ->
  Forall (star_in_band (height f)) (stars f) ->
  let f' := fst (fst (Starfield64.frames wins f g)) in
  height f' = height f /\
  Forall (star_in_band (height f)) (stars f') /\
  double_draws (snd (Starfield64.frames wins f g)).
Proof.
  intros U H. revert f g U H.
  induction wins as [| win wins IH]; intros f g U H F;
    [cbn; split; [reflexivity | split; assumption] |].
  cbn [Starfield64.frames]. unfold bind.
  destruct (animate_in_band64 win f g U H F) as (Eh & B & U1).
  destruct (Starfield64.animate win f g) as [r g1]. cbn [fst snd] in *.
  rewrite <- Eh in B, H.
  destruct (IH (fst r) g1 U1 H B) as (E & B' & U').
  destruct (Starfield64.frames wins (fst r) g1) as [rs g2]. unfold ret.
  cbn [fst snd] in *. rewrite Eh in *. auto.
Qed.

(** *** The threshold *)

(** The threshold does not decrease with the progress. *)
Lemma cutoff_le (p q : Q) : 0 <= p -> p <= q -> cutoff p <= cutoff q.
Proof.
  intros P L. unfold cutoff.
  assert (0 <= lit 0.1) as L1 by qle. assert (0 <= lit 0.9) as L9 by qle.
  assert (0 <= mul p p) as M by (apply mul_nonneg; lra).
  assert (mul p p <= mul q q) as MM by (apply mul_le; lra).
  assert (0 <= mul (mul p p) (lit 0.9)) as N by (apply mul_nonneg; lra).
  assert (mul (mul p p) (lit 0.9) <= mul (mul q q) (lit 0.9)) as NN
    by (apply mul_le; lra).
  assert (0 <= add (lit 0.1) (mul (mul p p) (lit 0.9))) as A
    by (apply round_nonneg; lra).
  apply mul_le; [lra | lra | exact A |]. apply add_le; lra.
Qed.

Lemma cutoff_range64 (p : Q) :
  0 <= p <= 1 -> (40 <= Z.to_nat (Qceiling (cutoff p)) <= 400)%nat.
Proof.
  intros [P0 P1].
  assert (40 <= cutoff p) as A.
  { apply Qle_trans with (cutoff 0); [qle | apply cutoff_le; lra]. }
  assert (cutoff p <= 400) as B.
  { apply Qle_trans with (cutoff 1); [apply cutoff_le; lra | qle]. }
  assert (C0 : (40 <= Qceiling (cutoff p))%Z).
  { rewrite <- (Qceiling_Z 40). now apply Qceiling_resp_le. }
  assert (C1 : (Qceiling (cutoff p) <= 400)%Z).
  { rewrite <- (Qceiling_Z 400). now apply Qceiling_resp_le. }
  lia.
Qed.

(** The stars below a cutoff are the first stars of the pool, as many as
    the cutoff rounded up. *)
Lemma below_ceiling (c : Q) (pool : list Star.t) :
  below c pool = take (Z.to_nat (Qceiling c)) pool.
Proof.
  rewrite <- below_take. unfold below. f_equal. apply List.filter_ext.
  intros e. now rewrite below_columns, Qltb_inject.
Qed.

(** On a page that scrolls the progress is a double of [0, 1]: 0 at the
    top, 1 from the scrollable height on. *)
Lemma scrollProgress_scrollable64 (win : Window) :
  scrollable win ->
  exists p : Q,
    Starfield64.scrollProgress win = Fin p /\
    0 <= p <= 1 /\
    (scrollY win == 0 -> p == 0) /\
    (sub (scrollHeight win) (innerHeight win) <= scrollY win -> p == 1).
Proof.
  intros [Hy Hh]. unfold Starfield64.scrollProgress, Ndiv, div.
  set (m := sub (scrollHeight win) (innerHeight win)).
  assert (Hm : 1 <= m).
  { apply round_ge; [unfold double; qeq | lra]. }
  destruct (Qeq_bool m 0) eqn:E.
  { apply Qeq_bool_iff in E. lra. }
  cbn [rounded]. set (q := round (scrollY win / m)).
  assert (Hq : 0 <= q).
  { apply round_nonneg. apply Qle_shift_div_l; lra. }
  assert (Top : m <= scrollY win -> 1 <= q).
  { intros T. apply round_ge; [unfold double; qeq |].
    apply Qle_shift_div_l; lra. }
  assert (Bot : scrollY win == 0 -> q == 0).
  { intros Z. apply round_zero. rewrite Z. unfold Qdiv. ring. }
  unfold Math_min, lt.
  destruct (Qltb_cases 1 q) as [[-> A] | [-> A]].
  - exists 1. split; [reflexivity |]. split; [lra |].
    split; [| reflexivity]. intros Z. apply Bot in Z. lra.
  - exists q. split; [reflexivity |]. split; [lra |].
    split; [exact Bot |]. intros T. apply Top in T. lra.
Qed.

Lemma alpha_range (o p : Q) :
  opacity_min <= o -> o <= opacity_max -> 0 <= p <= 1 ->
  mul opacity_min 0.5 <= alpha o p /\ alpha o p <= opacity_max.
Proof.
  intros O0 O1 [P0 P1]. unfold alpha.
  assert (0 < opacity_min) as C by qlt.
  assert (0 <= mul p 0.5) as M by (apply mul_nonneg; lra).
  assert (0.5 <= add 0.5 (mul p 0.5)) as A.
  { apply round_ge; [unfold double; qeq | lra]. }
  assert (add 0.5 (mul p 0.5) <= 1) as B.
  { apply Qle_trans with (add 0.5 (mul 1 0.5)); [| qle].
    apply add_le; [lra |]. apply mul_le; lra. }
  split; [apply mul_le; lra |].
  apply round_le_hi; [apply add_double |].
  rewrite <- (Qmult_1_r opacity_max).
  apply Qmult_le_compat_nonneg; split; lra.
Qed.

Lemma draw_star_well_formed64 (h p : Q) (s : Star.t) :
  0 <= p <= 1 -> star_in_band h s ->
  circle_well_formed h (Starfield64.draw_star s (Fin p)).
Proof.
  intros P (T & D & Y & Z & R & V).
  destruct (opacity_in_band s T) as [O0 O1].
  unfold Starfield64.draw_star, circle_well_formed.
  split; [exact Y |]. split; [exact R |].
  exact (alpha_range (Star.opacity s) p O0 O1 P).
Qed.

Lemma animate_circles64 (win : Window) (f : Field) (g : Rand) :
  double_draws g -> 0 <= height f ->
  Forall (star_in_band (height f)) (stars f) ->
  scrollable win ->
  Forall (circle_well_formed (height f))
         (snd (fst (Starfield64.animate win f g))).
Proof.
  intros U H F W.
  destruct (scrollProgress_scrollable64 win W) as (p & Ep & Hp & _).
  rewrite (animate_ops64 win f g p Ep). constructor; [exact I |].
  apply List.Forall_map. rewrite below_ceiling. apply Forall_take.
  destruct (animate_in_band64 win f g U H F) as (_ & B & _).
  eapply Forall_impl; [exact B |].
  intros s Hs. now apply draw_star_well_formed64.
Qed.

Lemma frames_circles64 (wins : list Window) (f : Field) (g : Rand) :
  double_draws g -> 0 <= height f ->
  Forall (star_in_band (height f)) (stars f) ->
  Forall scrollable wins ->
  Forall (circle_well_formed (height f))
         (snd (fst (Starfield64.frames wins f g))).
Proof.
  revert f g. induction wins as [| win wins IH]; intros f g U H F W.
  - cbn. constructor.
  - apply Forall_cons in W as [W1 W]. cbn [Starfield64.frames]. unfold bind.
    pose proof (animate_circles64 win f g U H F W1) as C.
    destruct (animate_in_band64 win f g U H F) as (Eh & B & U1).
    destruct (Starfield64.animate win f g) as [r g1]. cbn [fst snd] in *.
    assert (H' : 0 <= height (fst r)) by (rewrite Eh; exact H).
    rewrite <- Eh in B. specialize (IH (fst r) g1 U1 H' B W).
    destruct (Starfield64.frames wins (fst r) g1) as [rs g2]. unfold ret.
    cbn [fst snd] in *. apply Forall_app. split; [exact C |].
    now rewrite <- Eh.
Qed.

(** *** Updates in a row *)

Lemma iter_step_double (step y : Q) (k : nat) :
  double y -> double (Nat.iter k (fun v => add v step) y).
Proof. intros D. destruct k; [exact D | apply add_double]. Qed.

Lemma iter_step_le (step y : Q) (k : nat) :
  double y -> 0 <= step ->
  Nat.iter k (fun v => add v step) y
  <= Nat.iter (S k) (fun v => add v step) y.
Proof.
  intros D P.
  change (Nat.iter (S k) (fun v => add v step) y)
    with (add (Nat.iter k (fun v => add v step) y) step).
  pose proof (iter_step_double step y k D) as Dk.
  set (x := Nat.iter k (fun v => add v step) y) in *.
  apply round_ge; [exact Dk | lra].
Qed.

Lemma iter_step_succ (step y : Q) (k : nat) :
  Nat.iter (S k) (fun v => add v step) y =
  Nat.iter k (fun v => add v step) (add y step).
Proof. induction k as [| k IH]; [reflexivity |]. cbn in *. now rewrite IH. Qed.

Lemma iter_step_first (step y : Q) (k : nat) :
  double y -> 0 <= step ->
  add y step <= Nat.iter (S k) (fun v => add v step) y.
Proof.
  intros D P. induction k as [| k IH]; [cbn; lra |].
  apply Qle_trans with (1 := IH). now apply iter_step_le.
Qed.

End RoundedBand.

Import RoundedBand.

(** X12. After a resize to a viewport whose height is a double that is
    not negative, and after any number of frames, with draws that are
    doubles of [0, 1), every star of the pool lies between ten pixels above
    the top edge and the bottom edge, keeps a depth in [0.5, 2.5], a size
    in [0, 1.5) and a twinkle speed in [0, 0.05), and has an opacity
    between the doubles [0.1 - 0.05] and [0.8 + 0.05]. *)
Theorem starfield_stars_in_band (win : Window) (wins : list Window)
    (f : Field) (g : Rand) (i : nat) (s : Star.t) :
  Spec64.double_draws g ->
  Spec64.double (innerHeight win) ->
  0 <= innerHeight win ->
  let started := Starfield64.resize win f g in
  let f' := fst (fst (Starfield64.frames wins (fst started) (snd started))) in
  stars f' !! i = Some s ->
  (-10 <= Star.y s /\ Star.y s <= innerHeight win) /\
  (0.5 <= Star.z s /\ Star.z s <= 2.5) /\
  (0 <= Star.size s /\ Star.size s < 1.5) /\
  (0 <= Star.twinkleSpeed s /\ Star.twinkleSpeed s < Double.lit 0.05) /\
  (Shape64.opacity_min <= Star.opacity s /\
   Star.opacity s <= Shape64.opacity_max).
Proof.
  intros U D H started f' E.
  destruct (resize_in_band64 win f g U D H) as (Eh & B & U1).
  fold started in Eh, B, U1.
  destruct (frames_in_band64 wins (fst started) (snd started) U1)
    as (_ & B' & _); [rewrite Eh; exact H | exact B |].
  fold f' in B'. rewrite Eh in B'.
  rewrite Forall_lookup in B'. destruct (B' i s E) as (T & _ & Y & Z & R & V).
  pose proof (opacity_in_band s T) as O. destruct T as (_ & V0 & _).
  repeat split; try tauto.
Qed.

Lemma starfield_stars_in_band_witness :
  let win := {| innerWidth := 800; innerHeight := 600; scrollY := 0;
                scrollHeight := 3000 |} in
  let f := {| canvas := {| canvas_width := 0; canvas_height := 0;
                           style_opacity := 0 |};
              width := 0; height := 0; stars := [] |} in
  let g : Rand := fun _ => 0.5 in
  let s := fst (Star64.constructor 800 600 g) in
  Spec64.double_draws g /\ Spec64.double (innerHeight win) /\
  0 <= innerHeight win /\
  stars (fst (fst (Starfield64.frames []
                     (fst (Starfield64.resize win f g))
                     (snd (Starfield64.resize win f g)))))
    !! 0%nat = Some s /\
  -10 <= Star.y s /\ Star.y s <= innerHeight win.
Proof.
  intros win f g s.
  assert (H1 : Spec64.double_draws g).
  { intros n. split; [unfold Spec64.double; qeq | split; [qle | qlt]]. }
  assert (H2 : Spec64.double (innerHeight win)) by (unfold Spec64.double; qeq).
  assert (H3 : 0 <= innerHeight win) by qle.
  assert (H4 : stars (fst (fst (Starfield64.frames []
                                  (fst (Starfield64.resize win f g))
                                  (snd (Starfield64.resize win f g)))))
               !! 0%nat = Some s) by (vm_compute; reflexivity).
  split; [exact H1 |]. split; [exact H2 |]. split; [exact H3 |].
  split; [exact H4 |].
  exact (proj1 (starfield_stars_in_band win [] f g 0 s H1 H2 H3 H4)).
Defined.

(** The greatest opacity is reached, and it is above 0.85: the star of
    the draws 0x1.cccccccccccc9p-1 for the opacity and [1 - 2^-53] for the
    speed has it after six updates. *)
Example greatest_opacity_reached :
  let g : Rand := fun n =>
    match n with
    | 3%nat => 8106479329266889 # 9007199254740992
    | 4%nat => 1 - 2 ^ (-53)
    | _ => 0.5
    end in
  let born := Star64.constructor 800 600 g in
  let s := fst (Star64.updates 6 800 600 (fst born) (snd born)) in
  Star.opacity s == Shape64.opacity_max /\ 0.85 < Shape64.opacity_max /\
  Shape64.opacity_max < 1 /\ Shape64.opacity_min == Double.lit 0.05 /\
  Double.mul Shape64.opacity_min 0.5 == Double.lit 0.025.
Proof.
  intros g born s. split; [qeq | split; [qlt | split; [qlt | split; qeq]]].
Qed.

(** X13. On a page that scrolls, a frame over a pool of 400 stars draws
    a prefix of the pool: the first [m] stars, in order, where [m] is the
    threshold that the code computes, rounded up; never fewer than 40 and
    never more than 400; exactly 40 at the top of the page and all 400
    once the scroll offset has reached the scrollable height, or gone
    beyond it. *)
Theorem starfield_draws_prefix (win : Window) (f : Field) (g : Rand) :
  Shape64.scrollable win ->
  length (stars f) = 400%nat ->
  let r := fst (Starfield64.animate win f g) in
  let m := Shape64.drawn win in
  (40 <= m <= 400)%nat /\
  snd r = ClearRect 0 0 (width f) (height f)
          :: map (fun s => Starfield64.draw_star s
                             (Starfield64.scrollProgress win))
                 (take m (stars (fst r))) /\
  (scrollY win == 0 -> m = 40%nat) /\
  (Double.sub (scrollHeight win) (innerHeight win) <= scrollY win ->
   m = 400%nat).
Proof.
  intros W Hlen r m.
  destruct (scrollProgress_scrollable64 win W) as (p & Ep & Hp & P0 & P1).
  subst m. unfold Shape64.drawn. rewrite Ep.
  split; [now apply cutoff_range64 |]. split.
  - subst r. rewrite (animate_ops64 win f g p Ep). now rewrite below_ceiling.
  - split.
    + intros Y0. rewrite (Qceiling_comp _ 40); [reflexivity |].
      rewrite (cutoff_comp p 0 (P0 Y0)). qeq.
    + intros Y1. rewrite (Qceiling_comp _ 400); [reflexivity |].
      rewrite (cutoff_comp p 1 (P1 Y1)). qeq.
Qed.

Lemma starfield_draws_prefix_witness :
  let win := {| innerWidth := 800; innerHeight := 600; scrollY := 1200;
                scrollHeight := 3000 |} in
  let s := {| Star.x := 5; Star.y := 20; Star.z := 1; Star.size := 1;
              Star.opacity := 0.25; Star.twinkleSpeed := 0.03125;
              Star.twinkleDir := 1 |} in
  let f := {| canvas := {| canvas_width := 800; canvas_height := 600;
                           style_opacity := 1 |};
              width := 800; height := 600; stars := List.repeat s 400 |} in
  Shape64.scrollable win /\ length (stars f) = 400%nat /\
  (40 <= Shape64.drawn win <= 400)%nat.
Proof.
  intros win s f.
  assert (H1 : Shape64.scrollable win) by (split; qle).
  assert (H2 : length (stars f) = 400%nat) by (vm_compute; reflexivity).
  split; [exact H1 |]. split; [exact H2 |].
  exact (proj1 (starfield_draws_prefix win f (fun _ => 0.5) H1 H2)).
Defined.

(** The number follows the rounded threshold: 130 stars half way down,
    291 at the scroll offset 2000 of a page 3000 high in a viewport 600
    high. *)
Example drawn_counts :
  Shape64.drawn {| innerWidth := 800; innerHeight := 600; scrollY := 1200;
                   scrollHeight := 3000 |} = 130%nat /\
  Shape64.drawn {| innerWidth := 800; innerHeight := 600; scrollY := 2000;
                   scrollHeight := 3000 |} = 291%nat.
Proof. vm_compute. split; reflexivity. Qed.

(** X14. After a resize to a viewport whose height is a double that is
    not negative, in frames on a page that scrolls, every circle drawn is
    well formed: its centre is between ten pixels above the top edge and
    the bottom edge, its radius is below 1.5, and its alpha is a number
    between half the least opacity and the greatest opacity, above 0 and
    below 1: within what [rgba] accepts. *)
Theorem starfield_circles_in_range (win : Window) (wins : list Window)
    (f : Field) (g : Rand) :
  Spec64.double_draws g ->
  Spec64.double (innerHeight win) ->
  0 <= innerHeight win ->
  Forall Shape64.scrollable wins ->
  let started := Starfield64.resize win f g in
  Forall (Shape64.circle_well_formed (innerHeight win))
         (snd (fst (Starfield64.frames wins (fst started) (snd started)))).
Proof.
  intros U D H W started.
  destruct (resize_in_band64 win f g U D H) as (Eh & B & U1).
  fold started in Eh, B, U1. rewrite <- Eh.
  apply frames_circles64; auto; rewrite Eh; exact H.
Qed.

Lemma starfield_circles_in_range_witness :
  let win := {| innerWidth := 800; innerHeight := 600; scrollY := 1200;
                scrollHeight := 3000 |} in
  let f := {| canvas := {| canvas_width := 0; canvas_height := 0;
                           style_opacity := 0 |};
              width := 0; height := 0; stars := [] |} in
  let g : Rand := fun _ => 0.5 in
  Spec64.double_draws g /\ Spec64.double (innerHeight win) /\
  0 <= innerHeight win /\ Forall Shape64.scrollable [win; win] /\
  Forall (Shape64.circle_well_formed (innerHeight win))
    (snd (fst (Starfield64.frames [win; win]
                 (fst (Starfield64.resize win f g))
                 (snd (Starfield64.resize win f g))))).
Proof.
  intros win f g.
  assert (H1 : Spec64.double_draws g).
  { intros n. split; [unfold Spec64.double; qeq | split; [qle | qlt]]. }
  assert (H2 : Spec64.double (innerHeight win)) by (unfold Spec64.double; qeq).
  assert (H3 : 0 <= innerHeight win) by qle.
  assert (H4 : Forall Shape64.scrollable [win; win])
    by (repeat constructor; qle).
  split; [exact H1 |]. split; [exact H2 |]. split; [exact H3 |].
  split; [exact H4 |].
  exact (starfield_circles_in_range win [win; win] f g H1 H2 H3 H4).
Defined.

(** X15. Updates compose while the star stays on the screen: if [y] is a
    double, the depth is not negative and [n] rounded steps of [z * 0.2]
    from [y] do not pass the height, then [n] calls of [update] draw no
    random number, leave [y] at the sum of these [n] rounded steps, and
    leave [x], [z], [size] and [twinkleSpeed] as they were. *)
Theorem star_updates_accumulate (n : nat) (w h : Q) (s : Star.t)
    (g : Rand) :
  Spec64.double (Star.y s) ->
  0 <= Star.z s ->
  let step := Double.mul (Star.z s) (Double.lit 0.2) in
  let y_after := Nat.iter n (fun v => Double.add v step) (Star.y s) in
  y_after <= h ->
  let r := Star64.updates n w h s g in
  snd r = g /\
  Star.y (fst r) = y_after /\
  Star.x (fst r) = Star.x s /\
  Star.z (fst r) = Star.z s /\
  Star.size (fst r) = Star.size s /\
  Star.twinkleSpeed (fst r) = Star.twinkleSpeed s.
Proof.
  revert s. induction n as [| n IH]; intros s D Hz step y_after Hy.
  - cbn. repeat split; auto.
  - assert (P : 0 <= step).
    { apply mul_nonneg; [exact Hz | qle]. }
    assert (K : Double.add (Star.y s) step <= h).
    { apply Qle_trans with (2 := Hy). now apply iter_step_first. }
    cbn [Star64.updates]. unfold bind. rewrite update_keep64 by exact K.
    set (s1 := Star64.twinkle (Star64.drift s)).
    destruct (IH s1) as (G & Y & X & Z & R & V).
    + apply add_double.
    + exact Hz.
    + subst s1 y_after. cbn [Star64.twinkle Star64.drift Star.y Star.z].
      fold step. rewrite <- iter_step_succ. exact Hy.
    + cbv zeta in *. rewrite G, Y, X, Z, R, V. subst s1 y_after.
      cbn [Star64.twinkle Star64.drift Star.x Star.y Star.z Star.size
           Star.twinkleSpeed].
      fold step. rewrite <- iter_step_succ. repeat split; auto.
Qed.

Lemma star_updates_accumulate_witness :
  let s := {| Star.x := 12; Star.y := 100; Star.z := 2; Star.size := 1;
              Star.opacity := 0.25; Star.twinkleSpeed := 0.03125;
              Star.twinkleDir := 1 |} in
  let step := Double.mul (Star.z s) (Double.lit 0.2) in
  Spec64.double (Star.y s) /\ 0 <= Star.z s /\
  Nat.iter 50 (fun v => Double.add v step) (Star.y s) <= 600 /\
  snd (Star64.updates 50 800 600 s (fun _ => 0.5)) = (fun _ => 0.5).
Proof.
  intros s step.
  assert (H1 : Spec64.double (Star.y s)) by (unfold Spec64.double; qeq).
  assert (H2 : 0 <= Star.z s) by qle.
  assert (H3 : Nat.iter 50 (fun v => Double.add v step) (Star.y s) <= 600)
    by qle.
  split; [exact H1 |]. split; [exact H2 |]. split; [exact H3 |].
  exact (proj1 (star_updates_accumulate 50 800 600 s (fun _ => 0.5)
                  H1 H2 H3)).
Defined.

(** The sum of the rounded steps is not the product: fifty steps of
    [2 * 0.2] from 100 end above 120, and under a height of 120 the
    fiftieth update recycles the star. *)
Example fifty_steps :
  let s := {| Star.x := 12; Star.y := 100; Star.z := 2; Star.size := 1;
              Star.opacity := 0.25; Star.twinkleSpeed := 0.03125;
              Star.twinkleDir := 1 |} in
  120 < Star.y (fst (Star64.updates 50 800 600 s (fun _ => 0.5))) /\
  Star.y (fst (Star64.updates 50 800 120 s (fun _ => 0.5))) == -10.
Proof. intros s. split; [qlt | qeq]. Qed.

(** ** The animation loop *)

Lemma animate_clears_once (win : Window) (f : Field) (g : Rand) :
  length (List.filter Loop.is_clear (snd (fst (animate win f g)))) = 1%nat.
Proof.
  unfold animate, bind.
  pose proof (forEach_ops (width f) (height f) (scrollProgress win)
                (stars f) 0 g) as O.
  destruct (forEach _ 0 (stars f) g) as [r g1]. unfold ret.
  cbn [fst snd List.filter Loop.is_clear length] in *. f_equal.
  rewrite O. generalize (List.filter (fun e => visible (scrollProgress win) e.1)
                           (indexed_from 0 r.1)).
  intros l. induction l as [| e l IH]; [reflexivity | exact IH].
Qed.

(** The state of a running starfield: one loop, one listener, a pool of
    400 stars, and one clearing of the canvas for each frame so far. *)
Lemma loop_step (ev : Loop.Event) (pg : Page.t) (g : Rand) (cleared : nat) :
  frame_requests pg = 1%nat ->
  Page.resize_listeners pg = 1%nat ->
  (exists f, starfield pg = Some f /\ length (stars f) = 400%nat) ->
  length (List.filter Loop.is_clear (painted pg)) = cleared ->
  let pg' := fst (Loop.step ev pg g) in
  frame_requests pg' = 1%nat /\
  Page.resize_listeners pg' = 1%nat /\
  (exists f, starfield pg' = Some f /\ length (stars f) = 400%nat) /\
  length (List.filter Loop.is_clear (painted pg')) =
    ((if Loop.is_frame ev then 1 else 0) + cleared)%nat.
Proof.
  intros R L (f & F & P) C. destruct ev as [| w h | y]; cbn [Loop.step].
  - unfold Loop.on_frame. rewrite R, F.
    pose proof (animate_length (window pg) f g) as A.
    pose proof (animate_clears_once (window pg) f g) as K.
    destruct (animate (window pg) f g) as [r g1].
    cbn [fst snd frame_requests Page.resize_listeners starfield painted
         Loop.is_frame] in *.
    repeat split; auto.
    + exists (fst r). split; [reflexivity | congruence].
    + rewrite List.filter_app, length_app, K, C. lia.
  - unfold Loop.on_resize. rewrite F, L. cbn [Loop.resize_each]. unfold bind.
    match goal with |- context [resize ?win f g] =>
      pose proof (resize_length win f g) as A;
      destruct (resize win f g) as [f1 g1]
    end.
    unfold ret. cbn [fst snd frame_requests Page.resize_listeners starfield
                     painted Loop.is_frame] in *.
    repeat split; auto. exists f1. split; [reflexivity | exact A].
  - cbn [fst Loop.on_scroll frame_requests Page.resize_listeners starfield
         painted Loop.is_frame].
    repeat split; auto. now exists f.
Qed.

(** X16. Once started, the starfield runs as one loop: after any frames,
    resizes and scrolls exactly one frame callback is pending (the loop
    does not end, and a resize does not start a second one), one resize
    listener is registered, the pool has 400 stars, and the canvas has
    been cleared once at the start and once for each frame since. *)
Theorem starfield_runs_one_loop (win : Window) (cv : Canvas) (g : Rand)
    (evs : list Loop.Event) :
  exists (pg0 : Page.t) (g0 : Rand),
    initSpaceBackground (Loop.loaded win (Some cv)) g = Normal (pg0, g0) /\
    let pg := fst (Loop.run evs pg0 g0) in
    frame_requests pg = 1%nat /\
    Page.resize_listeners pg = 1%nat /\
    (exists f, starfield pg = Some f /\ length (stars f) = 400%nat) /\
    length (List.filter Loop.is_clear (painted pg)) =
      S (length (List.filter Loop.is_frame evs)).
Proof.
  assert (G : forall evs pg g cleared,
    frame_requests pg = 1%nat ->
    Page.resize_listeners pg = 1%nat ->
    (exists f, starfield pg = Some f /\ length (stars f) = 400%nat) ->
    length (List.filter Loop.is_clear (painted pg)) = cleared ->
    let pg' := fst (Loop.run evs pg g) in
    frame_requests pg' = 1%nat /\
    Page.resize_listeners pg' = 1%nat /\
    (exists f, starfield pg' = Some f /\ length (stars f) = 400%nat) /\
    length (List.filter Loop.is_clear (painted pg')) =
      (length (List.filter Loop.is_frame evs) + cleared)%nat).
  { clear. induction evs as [| ev evs IH]; intros pg g cleared R L F C.
    - cbn. auto.
    - cbn [Loop.run].
      destruct (loop_step ev pg g cleared R L F C) as (R' & L' & F' & C').
      destruct (Loop.step ev pg g) as [pg1 g1]. cbn [fst] in *.
      destruct (IH pg1 g1 _ R' L' F' C') as (R2 & L2 & F2 & C2).
      repeat split; auto. rewrite C2. cbn [List.filter].
      destruct (Loop.is_frame ev); cbn [length]; lia. }
  unfold initSpaceBackground, Loop.loaded.
  cbn [space_canvas truthy negb member window Page.resize_listeners
       frame_requests painted].
  set (f0 := {| canvas := cv; width := 0; height := 0; stars := [] |}).
  pose proof (resize_length win f0 g) as L.
  destruct (resize win f0 g) as [f1 g1]. cbn [fst] in L.
  pose proof (animate_length win f1 g1) as A.
  pose proof (animate_clears_once win f1 g1) as K.
  destruct (animate win f1 g1) as [r g2]. cbn [fst snd] in A, K.
  eexists _, g2. split; [reflexivity |].
  match goal with |- context [Loop.run evs ?pg0 g2] =>
    destruct (G evs pg0 g2 1%nat) as (R2 & L2 & F2 & C2)
  end; try reflexivity.
  - eexists. split; [reflexivity |]. cbn. unfold baseStarCount in L.
    congruence.
  - cbn [painted app]. exact K.
  - cbv zeta in *. repeat split; auto. rewrite C2. lia.
Qed.

(** X17. Without the canvas element the page stays as it is for the
    starfield: no frame, resize or scroll that follows paints anything,
    creates a pool, or requests a frame. *)
Theorem starfield_stays_off (win : Window) (g : Rand)
    (evs : list Loop.Event) :
  exists (pg0 : Page.t) (g0 : Rand),
    initSpaceBackground (Loop.loaded win None) g = Normal (pg0, g0) /\
    let pg := fst (Loop.run evs pg0 g0) in
    painted pg = [] /\ starfield pg = None /\
    frame_requests pg = 0%nat /\ Page.resize_listeners pg = 0%nat /\
    snd (Loop.run evs pg0 g0) = g.
Proof.
  exists (Loop.loaded win None), g. split; [reflexivity |].
  assert (G : forall evs pg,
    painted pg = [] -> starfield pg = None -> frame_requests pg = 0%nat ->
    Page.resize_listeners pg = 0%nat ->
    let pg' := fst (Loop.run evs pg g) in
    painted pg' = [] /\ starfield pg' = None /\ frame_requests pg' = 0%nat /\
    Page.resize_listeners pg' = 0%nat /\ snd (Loop.run evs pg g) = g).
  { clear. induction evs as [| ev evs IH]; intros pg P F R L; [cbn; auto |].
    cbn [Loop.run]. destruct ev as [| w h | y]; cbn [Loop.step].
    - unfold Loop.on_frame. rewrite R. now apply IH.
    - unfold Loop.on_resize. rewrite F. now apply IH.
    - now apply IH. }
  now apply G.
Qed.

(** ** The reveal of elements on scroll *)

(** X18. The delay of the transition never exceeds 0.2 seconds, as the
    comment in the loop says, and it repeats every five elements. *)
Theorem stagger_delay_bounded (index : nat) :
  0 <= ScrollAnimations.delay index /\
  ScrollAnimations.delay index <= 0.2 /\
  ScrollAnimations.delay (index + 5) = ScrollAnimations.delay index.
Proof.
  unfold ScrollAnimations.delay.
  pose proof (Nat.mod_upper_bound index 5 ltac:(lia)) as B.
  assert (L : 0 <= inject_Z (Z.of_nat (index mod 5))).
  { change 0 with (inject_Z 0). rewrite <- Zle_Qle. lia. }
  assert (U : inject_Z (Z.of_nat (index mod 5)) <= 4).
  { change 4 with (inject_Z 4). rewrite <- Zle_Qle. lia. }
  split; [lra |]. split; [lra |].
  replace (index + 5)%nat with (index + 1 * 5)%nat by lia.
  now rewrite Nat.Div0.mod_add.
Qed.

#[local] Set Warnings "-clear-no-such-hyp".

Lemma on_entries_keeps (entries : list (nat * bool))
    (st : ScrollAnimations.State) (e : nat) :
  let st' := ScrollAnimations.on_entries entries st in
  (e ∈ ScrollAnimations.in_view st -> e ∈ ScrollAnimations.in_view st') /\
  (e ∉ ScrollAnimations.observed st -> e ∉ ScrollAnimations.observed st') /\
  (e ∈ ScrollAnimations.observed st ∪ ScrollAnimations.in_view st ->
   e ∈ ScrollAnimations.observed st' ∪ ScrollAnimations.in_view st') /\
  ((e, true) ∈ entries ->
   e ∈ ScrollAnimations.in_view st' /\ e ∉ ScrollAnimations.observed st').
Proof.
  revert st. induction entries as [| [t b] entries IH]; intros st.
  - cbn. split; [auto |]. split; [auto |]. split; [auto |].
    intros H. inversion H.
  - unfold ScrollAnimations.on_entries. cbn [foldl].
    fold (ScrollAnimations.on_entries entries
            (ScrollAnimations.on_entry (t, b) st)).
    destruct (IH (ScrollAnimations.on_entry (t, b) st)) as (K1 & K2 & K3 & K4).
    cbv zeta. destruct b; cbn [ScrollAnimations.on_entry
      ScrollAnimations.in_view ScrollAnimations.observed] in *.
    + split; [intros H; apply K1; set_solver |].
      split; [intros H; apply K2; set_solver |].
      split.
      * intros H. apply K3. destruct (decide (e = t)); set_solver.
      * intros H. apply elem_of_cons in H as [H | H].
        -- injection H as ->. split; [apply K1 | apply K2]; set_solver.
        -- now apply K4.
    + split; [exact K1 |]. split; [exact K2 |]. split; [exact K3 |].
      intros H. apply elem_of_cons in H as [H | H]; [discriminate |].
      now apply K4.
Qed.

Lemma run_keeps (batches : list (list (nat * bool)))
    (st : ScrollAnimations.State) (e : nat) :
  let st' := ScrollAnimations.run batches st in
  (e ∈ ScrollAnimations.in_view st -> e ∈ ScrollAnimations.in_view st') /\
  (e ∉ ScrollAnimations.observed st -> e ∉ ScrollAnimations.observed st') /\
  (e ∈ ScrollAnimations.observed st ∪ ScrollAnimations.in_view st ->
   e ∈ ScrollAnimations.observed st' ∪ ScrollAnimations.in_view st') /\
  ((exists entries, entries ∈ batches /\ (e, true) ∈ entries) ->
   e ∈ ScrollAnimations.in_view st' /\ e ∉ ScrollAnimations.observed st').
Proof.
  revert st. induction batches as [| entries batches IH]; intros st.
  - cbn. split; [auto |]. split; [auto |]. split; [auto |].
    intros (entries & H & _). inversion H.
  - unfold ScrollAnimations.run. cbn [foldl].
    fold (ScrollAnimations.run batches
            (ScrollAnimations.on_entries entries st)).
    destruct (IH (ScrollAnimations.on_entries entries st))
      as (K1 & K2 & K3 & K4).
    destruct (on_entries_keeps entries st e) as (J1 & J2 & J3 & J4).
    cbv zeta in *. split; [auto |]. split; [auto |]. split; [auto |].
    intros (en & Hen & He). apply elem_of_cons in Hen as [-> | Hen].
    + split; [apply K1 | apply K2]; now apply J4.
    + apply K4. eauto.
Qed.

(** X19. An element that the observer has once reported as intersecting
    has the class [in-view] from then on and is not observed any more;
    no element with the class is observed, and every animated element is
    either still observed or in view. *)
Theorem reveal_is_final (n : nat) (batches : list (list (nat * bool))) :
  let st := ScrollAnimations.run batches
              (ScrollAnimations.initScrollAnimations n) in
  (forall e, e ∈ ScrollAnimations.in_view st ->
             e ∉ ScrollAnimations.observed st) /\
  (forall e, (e < n)%nat ->
             e ∈ ScrollAnimations.observed st ∨
             e ∈ ScrollAnimations.in_view st) /\
  (forall e entries, entries ∈ batches -> (e, true) ∈ entries ->
             e ∈ ScrollAnimations.in_view st /\
             e ∉ ScrollAnimations.observed st).
Proof.
  intros st. split; [| split].
  - assert (G : forall batches st0,
      (forall e, e ∈ ScrollAnimations.in_view st0 ->
                 e ∉ ScrollAnimations.observed st0) ->
      forall e, e ∈ ScrollAnimations.in_view
                    (ScrollAnimations.run batches st0) ->
                e ∉ ScrollAnimations.observed
                    (ScrollAnimations.run batches st0)).
    { clear. unfold ScrollAnimations.run.
      induction batches as [| entries batches IH]; intros st0 H0;
        [exact H0 |].
      cbn [foldl]. apply IH. clear IH batches.
      unfold ScrollAnimations.on_entries. revert st0 H0.
      induction entries as [| [t b] entries IH]; intros st0 H0; [exact H0 |].
      cbn [foldl]. apply IH. destruct b; [| exact H0].
      cbn [ScrollAnimations.on_entry ScrollAnimations.in_view
           ScrollAnimations.observed].
      intros e He. destruct (decide (e = t)) as [-> | N]; [set_solver |].
      assert (e ∈ ScrollAnimations.in_view st0) by set_solver.
      specialize (H0 e). set_solver. }
    apply G. cbn. set_solver.
  - intros e He.
    destruct (run_keeps batches (ScrollAnimations.initScrollAnimations n) e)
      as (_ & _ & K & _).
    fold st in K. apply elem_of_union. apply K. apply elem_of_union. left.
    cbn. apply elem_of_list_to_set, elem_of_seq. lia.
  - intros e entries Hb He.
    destruct (run_keeps batches (ScrollAnimations.initScrollAnimations n) e)
      as (_ & _ & _ & K).
    apply K. eauto.
Qed.

(** ** The lightbox *)

Lemma lightbox_step_inv (ev : Lightbox.Event) (st : Lightbox.State) :
  (Lightbox.active st = false ->
   (0 < Lightbox.pending st)%nat \/ Lightbox.src st = EmptyString) ->
  Lightbox.active (Lightbox.step ev st) = false ->
  (0 < Lightbox.pending (Lightbox.step ev st))%nat \/
  Lightbox.src (Lightbox.step ev st) = EmptyString.
Proof.
  intros H. destruct ev as [[url |] | [| |] | key |]; cbn [Lightbox.step].
  - cbn. discriminate.
  - exact H.
  - cbn. intros _. left. lia.
  - exact H.
  - cbn. intros _. left. lia.
  - unfold Lightbox.keydown.
    destruct (String.eqb key "Escape" && Lightbox.active st); [| exact H].
    cbn. intros _. left. lia.
  - unfold Lightbox.timeout.
    destruct (Lightbox.pending st) eqn:P; [rewrite P; exact H |].
    cbn. auto.
Qed.

(** X20. A lightbox that is closed and has no timer pending shows no
    image: once the callbacks of [closeLightbox] have run, the [src] of
    its image is empty. *)
Theorem lightbox_closed_is_blank (evs : list Lightbox.Event) :
  let st := Lightbox.run evs Lightbox.initLightbox in
  Lightbox.active st = false -> Lightbox.pending st = 0%nat ->
  Lightbox.src st = EmptyString.
Proof.
  assert (G : forall evs st0,
    (Lightbox.active st0 = false ->
     (0 < Lightbox.pending st0)%nat \/ Lightbox.src st0 = EmptyString) ->
    Lightbox.active (Lightbox.run evs st0) = false ->
    (0 < Lightbox.pending (Lightbox.run evs st0))%nat \/
    Lightbox.src (Lightbox.run evs st0) = EmptyString).
  { clear. unfold Lightbox.run.
    induction evs as [| ev evs IH]; intros st0 H0; [exact H0 |].
    cbn [foldl]. apply IH. now apply lightbox_step_inv. }
  intros st A P. destruct (G evs Lightbox.initLightbox) as [H | H]; auto.
  fold st in H. lia.
Qed.

Lemma lightbox_closed_is_blank_witness :
  let evs := [Lightbox.ClickPlaceholder (Some "a.png"%string);
              Lightbox.KeyDown "Escape"%string; Lightbox.Timeout] in
  let st := Lightbox.run evs Lightbox.initLightbox in
  Lightbox.active st = false /\ Lightbox.pending st = 0%nat /\
  Lightbox.src st = EmptyString.
Proof.
  intros evs st.
  assert (H1 : Lightbox.active st = false) by reflexivity.
  assert (H2 : Lightbox.pending st = 0%nat) by reflexivity.
  split; [exact H1 |]. split; [exact H2 |].
  exact (lightbox_closed_is_blank evs H1 H2).
Defined.

(** X21. An image opened while a close is still pending is blanked: when
    the lightbox is closed, opened again on some image, and the callback
    of the close then runs, the lightbox is open with an empty [src], and
    stays so through every event that neither closes it nor opens an
    image. *)
Theorem lightbox_reopened_is_blanked (st : Lightbox.State) (url : string)
    (evs : list Lightbox.Event) :
  Forall LightboxEvents.leaves_open evs ->
  let reopened :=
    Lightbox.timeout
      (Lightbox.click_placeholder (Some url) (Lightbox.closeLightbox st)) in
  let later := Lightbox.run evs reopened in
  Lightbox.active later = true /\ Lightbox.src later = EmptyString.
Proof.
  intros F reopened later.
  assert (R : Lightbox.active reopened = true /\
              Lightbox.src reopened = EmptyString) by (now cbn).
  subst later. revert R. generalize reopened. clear reopened.
  unfold Lightbox.run.
  induction F as [| ev evs Hev F IH]; intros st0 R; [exact R |].
  cbn [foldl]. apply IH. destruct R as [A S0].
  destruct ev as [[u |] | [| |] | key |];
    cbn [Lightbox.step LightboxEvents.leaves_open] in *;
    try contradiction; auto.
  - unfold Lightbox.keydown.
    destruct (String.eqb_spec key "Escape"); [contradiction | auto].
  - unfold Lightbox.timeout. destruct (Lightbox.pending st0); cbn; auto.
Qed.

Lemma lightbox_reopened_is_blanked_witness :
  let evs := [Lightbox.KeyDown "a"%string; Lightbox.Timeout] in
  let st := Lightbox.click_placeholder (Some "a.png"%string)
              Lightbox.initLightbox in
  Forall LightboxEvents.leaves_open evs /\
  Lightbox.src
    (Lightbox.run evs
       (Lightbox.timeout
          (Lightbox.click_placeholder (Some "b.png"%string)
             (Lightbox.closeLightbox st)))) = EmptyString.
Proof.
  intros evs st.
  assert (H : Forall LightboxEvents.leaves_open evs)
    by (repeat constructor; discriminate).
  split; [exact H |].
  exact (proj2 (lightbox_reopened_is_blanked st "b.png"%string evs H)).
Defined.
